(** * Elastik: the multiresolution strain-minimisation core

    A shallow embedding of [src/create_map_projection.py] (and the [Scalar]
    class of [src/util.py]).

    Conventions of the embedding.
    - numpy integer arrays are [list Z], boolean arrays are [list bool];
      indexing follows numpy: a negative index counts from the end, an index
      outside the array raises [IndexError].
    - float64 quantities that the code does arithmetic on (positions, spacings,
      scales, weights, strains, energies) are real numbers; the values
      [np.inf] and [-np.inf] that the objective functions return as signals are
      separate constructors of [energy].  Rounding, overflow and NaN produced
      by arithmetic are outside this model; where rounding decides what
      holds of the interpolation weights, module [Binary64] has the same
      arithmetic on binary64 numbers.
    - The absent-node sentinel of the input mesh (NaN) is the constructor
      [NaN] of [float].
    - Python exceptions are the [Raise] results of a small error monad; a
      [while] loop gets a fuel argument and yields [OutOfFuel] when the fuel is
      used up before the loop ends. *)

From Stdlib Require Import Reals Lra Lia ZArith List Bool Sorted Permutation.
From Stdlib Require Floats.
Import ListNotations.


(** ** Exceptions and the error monad *)

Inductive exn : Set :=
| IndexError
| ValueError
| ZeroDivisionError.

Inductive result (A : Type) : Type :=
| Ok (a : A)
| Raise (e : exn)
| OutOfFuel.

Arguments Ok {A} a.
Arguments Raise {A} e.
Arguments OutOfFuel {A}.

Definition bind {A B : Type} (m : result A) (k : A -> result B) : result B :=
  match m with
  | Ok a => k a
  | Raise e => Raise e
  | OutOfFuel => OutOfFuel
  end.

Notation "x <- m ;; k" := (bind m (fun x => k))
  (at level 61, m at next level, right associativity).
Notation "' p <- m ;; k" := (bind m (fun x => let p := x in k))
  (at level 61, p pattern, m at next level, right associativity).

Fixpoint mapM {A B : Type} (f : A -> result B) (l : list A) : result (list B) :=
  match l with
  | [] => Ok []
  | a :: l' => b <- f a ;; bs <- mapM f l' ;; Ok (b :: bs)
  end.

(** ** numpy indexing *)

(** [a[i]] for an integer [i]. *)
Definition np_index {A : Type} (a : list A) (i : Z) : result A :=
  let n := Z.of_nat (length a) in
  let k := if (i <? 0)%Z then (i + n)%Z else i in
  if ((0 <=? k) && (k <? n))%Z then
    match nth_error a (Z.to_nat k) with
    | Some x => Ok x
    | None => Raise IndexError
    end
  else Raise IndexError.

(** [a[idx]] for an integer array [idx]. *)
Definition np_take {A : Type} (a : list A) (idx : list Z) : result (list A) :=
  mapM (np_index a) idx.

(** ** Reals as the code compares them *)

Definition Rltb (x y : R) : bool := if Rlt_dec x y then true else false.
Definition Rleb (x y : R) : bool := if Rle_dec x y then true else false.

Definition Rsum (l : list R) : R := fold_right Rplus 0%R l.

(** ** Cells *)

(** One row of [cell_definitions] as [enumerate_cells] returns it: the section,
    the two grid indices, and the four corner nodes. *)
Record cell : Set := mkCell {
  cell_h : Z;
  cell_i : Z;
  cell_j : Z;
  cell_west : Z;
  cell_east : Z;
  cell_south : Z;
  cell_north : Z
}.

(** ** The strain evaluator *)

Definition point : Type := (R * R)%type.

Definition sub_point (p q : point) : point :=
  (fst p - fst q, snd p - snd q)%R.

Definition div_point (p : point) (d : R) : point :=
  (fst p / d, snd p / d)%R.

(** Elementwise [f(a, b)] on two arrays of one length. *)
Definition zip_with {A B C : Type} (f : A -> B -> C) (a : list A) (b : list B)
    : list C :=
  map (fun x => f (fst x) (snd x)) (combine a b).

(** [(a - b)/(spacing/cell_scales)[:, np.newaxis]]: [a], [b] and [spacing]
    have one entry per cell; [cell_scales] must have as many. *)
Definition finite_difference (a b : list point) (spacing cell_scales : list R)
    : result (list point) :=
  if Nat.eqb (length spacing) (length cell_scales) then
    Ok (zip_with div_point (zip_with sub_point a b)
                 (zip_with Rdiv spacing cell_scales))
  else Raise ValueError.

(** [sqrt((dxdΛ + dydΦ)**2 + (dxdΦ - dydΛ)**2)/2] and
    [sqrt((dxdΛ - dydΦ)**2 + (dxdΦ + dydΛ)**2)/2] for one cell, from the two
    columns (dxdΛ, dydΛ) and (dxdΦ, dydΦ) of its Jacobian. *)
Definition trace_at (F_lam F_phi : point) : R :=
  (sqrt ((fst F_lam + snd F_phi) ^ 2 + (fst F_phi - snd F_lam) ^ 2) / 2)%R.

Definition antitrace_at (F_lam F_phi : point) : R :=
  (sqrt ((fst F_lam - snd F_phi) ^ 2 + (fst F_phi + snd F_lam) ^ 2) / 2)%R.

(** [compute_principal_strains]: the pair (major strains, minor strains),
    one entry per cell. *)
Definition compute_principal_strains (positions : list point)
    (cell_definitions : list cell) (cell_scales : list R)
    (dPhi dLam : list R) : result (list R * list R) :=
  let i := map cell_i cell_definitions in
  west <- np_take positions (map cell_west cell_definitions) ;;
  east <- np_take positions (map cell_east cell_definitions) ;;
  lam <- np_take dLam i ;;
  F_lam <- finite_difference east west lam cell_scales ;;
  south <- np_take positions (map cell_south cell_definitions) ;;
  north <- np_take positions (map cell_north cell_definitions) ;;
  phi <- np_take dPhi i ;;
  F_phi <- finite_difference north south phi cell_scales ;;
  let trace := zip_with trace_at F_lam F_phi in
  let antitrace := zip_with antitrace_at F_lam F_phi in
  Ok (zip_with Rplus trace antitrace, zip_with Rminus trace antitrace).

(** ** Linear operators on vectors of 2-D points *)

Definition scale_point (w : R) (p : point) : point :=
  (w * fst p, w * snd p)%R.

Definition add_point (p q : point) : point :=
  (fst p + fst q, snd p + snd q)%R.

Definition origin : point := (0%R, 0%R).

(** Rows of [v] selected by a boolean mask. *)
Fixpoint select_rows {A : Type} (mask : list bool) (v : list A) : list A :=
  match mask, v with
  | m :: mask', x :: v' =>
      if m then x :: select_rows mask' v' else select_rows mask' v'
  | _, _ => []
  end.

(** Modelled from the spec: the module [sparse] ([DenseSparseArray]) is not
    among the sources.  Section 4.2 of the specification gives its three
    forms: the identity restricted to a boolean mask of rows (a row
    selection), the operator built by [from_coordinates], whose output row [k]
    is the weighted sum of the input rows named by [indices[k]], and a scalar
    acting by multiplication ([util.Scalar]). *)
Inductive operator : Type :=
| Restriction (n : nat) (mask : list bool)
| Gather (n_in : nat) (indices : list (list Z)) (weights : list (list R))
| ScalarOp (value : R).

Fixpoint gather_row (v : list point) (idx : list Z) (w : list R) : result point :=
  match idx, w with
  | [], [] => Ok origin
  | i :: idx', x :: w' =>
      if ((0 <=? i) && (i <? Z.of_nat (length v)))%Z then
        p <- np_index v i ;;
        rest <- gather_row v idx' w' ;;
        Ok (add_point (scale_point x p) rest)
      else Raise IndexError
  | _, _ => Raise ValueError
  end.

Fixpoint gather_rows (v : list point) (indices : list (list Z))
    (weights : list (list R)) : result (list point) :=
  match indices, weights with
  | [], [] => Ok []
  | idx :: indices', w :: weights' =>
      p <- gather_row v idx w ;;
      rest <- gather_rows v indices' weights' ;;
      Ok (p :: rest)
  | _, _ => Raise ValueError
  end.

(** [op @ v] *)
Definition matmul (op : operator) (v : list point) : result (list point) :=
  match op with
  | Restriction n mask =>
      if Nat.eqb (length v) n && Nat.eqb (length mask) n
      then Ok (select_rows mask v) else Raise ValueError
  | Gather n_in indices weights =>
      if Nat.eqb (length v) n_in
      then gather_rows v indices weights else Raise ValueError
  | ScalarOp c => Ok (map (scale_point c) v)
  end.

(** ** The three objective functions *)

(** What an objective function returns: a finite number, [np.inf] or
    [-np.inf]. *)
Inductive energy : Type :=
| Finite (x : R)
| PosInf
| NegInf.

(** [(f(a, b)*cell_weights).sum()] for an elementwise [f]. *)
Fixpoint weighted_terms (f : R -> R -> R) (a b w : list R) : result (list R) :=
  match a, b, w with
  | [], [], [] => Ok []
  | x :: a', y :: b', k :: w' =>
      rest <- weighted_terms f a' b' w' ;; Ok ((f x y * k)%R :: rest)
  | _, _, _ => Raise ValueError
  end.

Section Objectives.
Open Scope R_scope.

(** The variables of [create_map_projection] that its nested objective
    functions close over. *)
Variable restore : operator.
Variable cell_definitions : list cell.
Variable cell_scales : list R.
Variable cell_weights : list R.
Variable dPhi dLam : list R.

Definition strains_of (positions : list point) : result (list R * list R) :=
  restored <- matmul restore positions ;;
  compute_principal_strains restored cell_definitions cell_scales dPhi dLam.

Definition all_positive (a : list R) : bool := forallb (fun x => Rltb 0 x) a.
Definition any_nonpositive (a : list R) : bool := existsb (fun x => Rleb x 0) a.
Definition any_below (a : list R) (bound : R) : bool :=
  existsb (fun x => Rltb x bound) a.

Definition aggressive_term (a b : R) : R := exp (-6 * a) + exp (-6 * b).
Definition lenient_term (a b : R) : R := (a + b - 2) ^ 2 + 2 * (a - b) ^ 2.
Definition strict_term (a b : R) : R :=
  ((a * b) ^ 2 - 1) / 2 - ln (a * b) + 2 * (a - b) ^ 2.

Definition compute_energy_aggressive (positions : list point) : result energy :=
  '(a, b) <- strains_of positions ;;
  if all_positive a && all_positive b then Ok NegInf
  else if any_below a (-100) || any_below b (-100) then Ok PosInf
  else Ok (Finite (Rsum (map (fun ab => aggressive_term (fst ab) (snd ab))
                             (combine a b)))).

Definition compute_energy_lenient (positions : list point) : result energy :=
  '(a, b) <- strains_of positions ;;
  if all_positive a && all_positive b then Ok NegInf
  else
    terms <- weighted_terms lenient_term a b cell_weights ;;
    Ok (Finite (Rsum terms)).

Definition compute_energy_strict (positions : list point) : result energy :=
  '(a, b) <- strains_of positions ;;
  if any_nonpositive a || any_nonpositive b then Ok PosInf
  else
    terms <- weighted_terms strict_term a b cell_weights ;;
    Ok (Finite (Rsum terms)).
End Objectives.

(** ** Loops and array updates *)

(** [for i in range(n): s = body(i, s)], stopping at the first exception. *)
Definition for_range {S : Type} (n : nat) (body : nat -> S -> result S)
    (s : S) : result S :=
  fold_left (fun acc i => s' <- acc ;; body i s') (seq 0 n) (Ok s).

Fixpoint set_nth {A : Type} (k : nat) (x : A) (a : list A) : list A :=
  match a, k with
  | [], _ => []
  | _ :: a', O => x :: a'
  | y :: a', S k' => y :: set_nth k' x a'
  end.

(** [a[i] = x] for an integer [i]. *)
Definition np_assign {A : Type} (a : list A) (i : Z) (x : A) : result (list A) :=
  let n := Z.of_nat (length a) in
  let k := if (i <? 0)%Z then (i + n)%Z else i in
  if ((0 <=? k) && (k <? n))%Z then Ok (set_nth (Z.to_nat k) x a)
  else Raise IndexError.

(** [np.max(a)]: an empty array has no maximum. *)
Definition np_max (a : list Z) : result Z :=
  match a with
  | [] => Raise ValueError
  | x :: a' => Ok (fold_left Z.max a' x)
  end.

(** ** The grid lookup table *)

(** A 3-D integer array (section, row, column) -> node index or -1: its shape
    and its entries.  Only entries inside the shape are ever read. *)
Record lookup_table : Type := mkTable {
  n_sections : nat;
  n_rows : nat;
  n_cols : nat;
  node_at : nat -> nat -> nat -> Z
}.

(** The table held by nested lists (sections of rows of columns), with the
    shape of its first section and first row. *)
Definition table_of_lists (t : list (list (list Z))) : lookup_table :=
  {| n_sections := length t;
     n_rows := length (hd [] t);
     n_cols := length (hd [] (hd [] t));
     node_at := fun h i j => nth j (nth i (nth h t []) []) (-1)%Z |}.

(** The entries in C order. *)
Definition table_entries (t : lookup_table) : list Z :=
  flat_map (fun h =>
    flat_map (fun i =>
      map (fun j => node_at t h i j) (seq 0 (n_cols t)))
      (seq 0 (n_rows t)))
    (seq 0 (n_sections t)).

(** ** The cell enumerator *)

(** One row of the 12-column working array of [enumerate_cells]: five columns
    that are dropped at the end and the seven that are kept. *)
Record candidate : Set := mkCandidate {
  cand_h : Z;
  cand_i : Z;
  cand_j : Z;
  cand_node1_i : Z;
  cand_node2_i : Z;
  cand_cell : cell
}.

Definition corner_key (c : cell) : Z * Z * Z * Z :=
  (cell_west c, cell_east c, cell_south c, cell_north c).

(** Lexicographic comparison of two rows of four integers. *)
Definition key_compare (k1 k2 : Z * Z * Z * Z) : comparison :=
  let '(a1, b1, c1, d1) := k1 in
  let '(a2, b2, c2, d2) := k2 in
  match (a1 ?= a2)%Z with
  | Eq => match (b1 ?= b2)%Z with
          | Eq => match (c1 ?= c2)%Z with
                  | Eq => (d1 ?= d2)%Z
                  | r => r
                  end
          | r => r
          end
  | r => r
  end.

(** The candidate cell at grid place (h, i, j) for the offsets (di, dj). *)
Definition candidate_at (t : lookup_table) (di dj : nat) (h i j : nat) : candidate :=
  {| cand_h := Z.of_nat h;
     cand_i := Z.of_nat i;
     cand_j := Z.of_nat j;
     cand_node1_i := Z.of_nat (i + di);
     cand_node2_i := Z.of_nat (i + 1 - di);
     cand_cell :=
       {| cell_h := Z.of_nat h;
          cell_i := Z.of_nat (i + di);
          cell_j := Z.of_nat (j + dj);
          cell_west := node_at t h (i + di) j;
          cell_east := node_at t h (i + di) (j + 1);
          cell_south := node_at t h i (j + dj);
          cell_north := node_at t h (i + 1) (j + dj) |} |}.

(** All candidates for one pair of offsets, over the raveled index grid of
    shape (sections, rows - 1, columns - 1). *)
Definition candidates_for (t : lookup_table) (di dj : nat) : list candidate :=
  flat_map (fun h =>
    flat_map (fun i =>
      map (fun j => candidate_at t di dj h i j) (seq 0 (n_cols t - 1)))
      (seq 0 (n_rows t - 1)))
    (seq 0 (n_sections t)).

Definition all_candidates (t : lookup_table) : list candidate :=
  flat_map (fun di => flat_map (fun dj => candidates_for t di dj) (seq 0 2))
           (seq 0 2).

(** Insertion into a list sorted by corner key; a candidate whose key is
    already present is not inserted, so the first occurrence stays. *)
Fixpoint insert_unique (c : candidate) (l : list candidate) : list candidate :=
  match l with
  | [] => [c]
  | d :: l' =>
      match key_compare (corner_key (cand_cell c)) (corner_key (cand_cell d)) with
      | Lt => c :: d :: l'
      | Eq => d :: l'
      | Gt => d :: insert_unique c l'
      end
  end.

(** [cell_definitions[np.unique(cell_definitions[:, -4:], axis=0,
    return_index=True)[1], :]]: one row per distinct corner key, the first
    occurrence of each, in increasing key order. *)
Definition unique_by_corners (l : list candidate) : list candidate :=
  fold_left (fun acc c => insert_unique c acc) l [].

Definition missing_node (c : cell) : bool :=
  ((cell_west c =? -1) || (cell_east c =? -1) ||
   (cell_south c =? -1) || (cell_north c =? -1))%Z.

Definition degenerate (c : cell) : bool := (cell_west c =? cell_east c)%Z.

Definition kept_candidates (t : lookup_table) : list candidate :=
  filter (fun d => negb (missing_node (cand_cell d) || degenerate (cand_cell d)))
         (unique_by_corners (all_candidates t)).

(** Equatorial radius of the WGS 84 ellipsoid, [EARTH.R] of [util.py] (km). *)
Definition EARTH_R : R := 6378.137%R.

(** Area weight and linear scale of one kept candidate.  [values] and [scales]
    are the stacked rasters after [downsample] brought them to the shape of
    the grid. *)
Definition candidate_weight_scale (values scales : Z -> Z -> Z -> R)
    (dPhi dLam : list R) (d : candidate) : result (R * R) :=
  phi1 <- np_index dPhi (cand_node1_i d) ;;
  lam1 <- np_index dLam (cand_node1_i d) ;;
  phi2 <- np_index dPhi (cand_node2_i d) ;;
  lam2 <- np_index dLam (cand_node2_i d) ;;
  let A_1 := (phi1 * lam1)%R in
  let A_2 := (phi2 * lam2)%R in
  let area := ((3 * A_1 + A_2) / 16 / (4 * PI * EARTH_R ^ 2))%R in
  Ok ((area * values (cand_h d) (cand_i d) (cand_j d))%R,
      sqrt (scales (cand_h d) (cand_i d) (cand_j d))).

(** [enumerate_cells], from the resampled rasters on: the cell list, the cell
    weights and the cell scales. *)
Definition enumerate_cells (node_indices : lookup_table)
    (values scales : Z -> Z -> Z -> R) (dPhi dLam : list R)
    : result (list cell * list R * list R) :=
  let kept := kept_candidates node_indices in
  ws <- mapM (candidate_weight_scale values scales dPhi dLam) kept ;;
  Ok (map cand_cell kept, map fst ws, map snd ws).

(** ** The skeleton builder *)

(** [follow_graph]: every entry of [state] that has not arrived moves to its
    successor and counts one more step, until all have arrived.  The distances
    are counts held in a float array; here they are natural numbers. *)
Definition stuck (arrived : list bool) (next state : list Z) : bool :=
  existsb (fun x : bool * (Z * Z) =>
             let '(a, (n, s)) := x in negb a && (n =? s)%Z)
          (combine arrived (combine next state)).

Definition advance (arrived : list bool) (next state : list Z) : list Z :=
  map (fun x : bool * (Z * Z) => let '(a, (n, s)) := x in if a then s else n)
      (combine arrived (combine next state)).

Definition count_step (arrived : list bool) (distance : list nat) : list nat :=
  map (fun x : bool * nat => let '(a, d) := x in if a then d else S d)
      (combine arrived distance).

Fixpoint follow_loop (fuel : nat) (progression : list Z) (until : list bool)
    (state : list Z) (distance_traveld : list nat) (arrived : list bool)
    : result (list Z * list nat) :=
  if forallb (fun a => a) arrived then Ok (state, distance_traveld)
  else
    match fuel with
    | O => OutOfFuel
    | S fuel' =>
        next <- np_take progression state ;;
        if stuck arrived next state then Raise ValueError
        else
          let state' := advance arrived next state in
          let distance' := count_step arrived distance_traveld in
          arrived' <- np_take until state' ;;
          follow_loop fuel' progression until state' distance' arrived'
    end.

Definition follow_graph (fuel : nat) (progression : list Z) (frum : list Z)
    (until : list bool) : result (list Z * list nat) :=
  arrived <- np_take until frum ;;
  follow_loop fuel progression until frum (repeat O (length frum)) arrived.

(** The weights of one interpolated point between two references at the given
    distances. *)
Definition interpolation_weit (distance_a distance_b : nat) : R * R :=
  let weit_a :=
    if Nat.eqb (distance_a + distance_b) 0 then 1%R
    else (INR distance_b / INR (distance_a + distance_b))%R in
  (weit_a, (1 - weit_a)%R).

Fixpoint get_interpolation_weits (distance_a distance_b : list nat)
    : result (list R * list R) :=
  match distance_a, distance_b with
  | [], [] => Ok ([], [])
  | da :: distance_a', db :: distance_b' =>
      '(weits_a, weits_b) <- get_interpolation_weits distance_a' distance_b' ;;
      let (wa, wb) := interpolation_weit da db in
      Ok (wa :: weits_a, wb :: weits_b)
  | _, _ => Raise ValueError
  end.

(** The four neighbor arrays. *)
Record neibors : Type := mkNeibors {
  east_neibor : list Z;
  west_neibor : list Z;
  north_neibor : list Z;
  south_neibor : list Z
}.

(** The body of the first triple loop of [mesh_skeleton] at (h, i, j). *)
Definition link_neibors (t : lookup_table) (h i j : nat) (g : neibors)
    : result neibors :=
  let k := node_at t h i j in
  if (k =? -1)%Z then Ok g
  else
    west <- (if (1 <=? j)%nat && negb (node_at t h i (j - 1) =? -1)%Z
             then np_assign (west_neibor g) k (node_at t h i (j - 1))
             else Ok (west_neibor g)) ;;
    east <- (if (j + 1 <? n_cols t)%nat && negb (node_at t h i (j + 1) =? -1)%Z
             then np_assign (east_neibor g) k (node_at t h i (j + 1))
             else Ok (east_neibor g)) ;;
    south <- (if (1 <=? i)%nat && negb (node_at t h (i - 1) j =? -1)%Z
              then np_assign (south_neibor g) k (node_at t h (i - 1) j)
              else Ok (south_neibor g)) ;;
    north <- (if (i + 1 <? n_rows t)%nat && negb (node_at t h (i + 1) j =? -1)%Z
              then np_assign (north_neibor g) k (node_at t h (i + 1) j)
              else Ok (north_neibor g)) ;;
    Ok {| east_neibor := east; west_neibor := west;
          north_neibor := north; south_neibor := south |}.

Definition build_neibors (t : lookup_table) (n_full : nat) : result neibors :=
  for_range (n_sections t) (fun h =>
    for_range (n_rows t) (fun i =>
      for_range (n_cols t) (fun j => link_neibors t h i j)))
    {| east_neibor := repeat (-1)%Z n_full;
       west_neibor := repeat (-1)%Z n_full;
       north_neibor := repeat (-1)%Z n_full;
       south_neibor := repeat (-1)%Z n_full |}.

(** Python's [x % m] on integers. *)
Definition py_mod (x m : Z) : result Z :=
  if (m =? 0)%Z then Raise ZeroDivisionError else Ok (x mod m)%Z.

(** The body of the second triple loop at (h, i, j): [n_lat] is [ф.size] and
    [east_west_factor] the column stride of row [i]. *)
Definition mark_anchors (t : lookup_table) (factor : Z) (n_lat : nat)
    (east_west_factor : Z) (h i j : nat) (marks : list bool * list bool)
    : result (list bool * list bool) :=
  let (has_defined_neibors, is_defined) := marks in
  let k := node_at t h i j in
  if (k =? -1)%Z then Ok marks
  else
    r <- py_mod (Z.min (Z.of_nat i) (Z.of_nat n_lat - 1 - Z.of_nat i)) factor ;;
    let important_row := (r =? 0)%Z in
    c <- py_mod (Z.of_nat j) east_west_factor ;;
    let important_col := (c =? 0)%Z in
    old_row <- np_index has_defined_neibors k ;;
    has_defined_neibors' <- np_assign has_defined_neibors k (old_row || important_row) ;;
    old_col <- np_index is_defined k ;;
    is_defined' <- np_assign is_defined k (old_col || important_col) ;;
    Ok (has_defined_neibors', is_defined').

(** [int(round(x))] for a float [x]: the nearest integer, a tie going to the
    even one. *)
Definition round_half_even (x : R) : Z :=
  let f := Int_part x in
  let d := (x - IZR f)%R in
  if Rltb d (1 / 2) then f
  else if Rltb (1 / 2) d then (f + 1)%Z
  else if Z.even f then f else (f + 1)%Z.

(** [int(round(factor/np.cos(ф[i])))] *)
Definition east_west_factor_at (factor : Z) (lat : R) : Z :=
  round_half_even (IZR factor / cos lat).

(** [np.where(is_defined, np.cumsum(is_defined) - 1, -1)] *)
Fixpoint reindex_from (count : Z) (is_defined : list bool) : list Z :=
  match is_defined with
  | [] => []
  | true :: rest => count :: reindex_from (count + 1) rest
  | false :: rest => (-1)%Z :: reindex_from count rest
  end.

(** What [mesh_skeleton] computes before it packs the two operators. *)
Record skeleton : Type := mkSkeleton {
  sk_n_full : nat;
  sk_n_partial : Z;
  sk_is_defined : list bool;
  sk_reindex : list Z;
  sk_defining_indices : list (list Z);
  sk_defining_weits : list (list R)
}.

Definition reduction_of (s : skeleton) : operator :=
  Restriction (sk_n_full s) (sk_is_defined s).

(** [mesh_skeleton] with the column stride of every row given:
    [strides[i]] stands for [int(round(factor/np.cos(ф[i])))] and [n_lat] for
    [ф.size]. *)
Definition mesh_skeleton_strided (fuel : nat) (lookup_table : lookup_table)
    (factor : Z) (n_lat : nat) (strides : list Z)
    : result (skeleton * (operator * operator)) :=
  top <- np_max (table_entries lookup_table) ;;
  if (top + 1 <? 0)%Z then Raise ValueError
  else
  let n_full := Z.to_nat (top + 1) in
  g <- build_neibors lookup_table n_full ;;
  '(has_defined_neibors, is_defined) <-
    for_range (n_sections lookup_table) (fun h =>
      for_range (n_rows lookup_table) (fun i marks =>
        east_west_factor <- np_index strides (Z.of_nat i) ;;
        for_range (n_cols lookup_table)
          (mark_anchors lookup_table factor n_lat east_west_factor h i) marks))
      (repeat false (n_full + 1), repeat false n_full) ;;
  let at_edge := zip_with (fun n s => (n =? -1)%Z || (s =? -1)%Z)
                          (north_neibor g) (south_neibor g) in
  let has_defined_neibors :=
    zip_with orb (firstn n_full has_defined_neibors) at_edge
    ++ skipn n_full has_defined_neibors in
  east_has <- np_take has_defined_neibors (east_neibor g) ;;
  west_has <- np_take has_defined_neibors (west_neibor g) ;;
  let is_defined :=
    zip_with orb is_defined
      (zip_with (fun e w => negb e || negb w) east_has west_has) in
  let is_defined := zip_with andb is_defined (firstn n_full has_defined_neibors) in
  let reindex := reindex_from 0 is_defined in
  top_partial <- np_max reindex ;;
  let n_partial := (top_partial + 1)%Z in
  let everyone := map Z.of_nat (seq 0 n_full) in
  '(n_reference, n_distance) <-
    follow_graph fuel (north_neibor g) everyone has_defined_neibors ;;
  '(ne_reference, ne_distance) <-
    follow_graph fuel (east_neibor g) n_reference is_defined ;;
  '(nw_reference, nw_distance) <-
    follow_graph fuel (west_neibor g) n_reference is_defined ;;
  '(s_reference, s_distance) <-
    follow_graph fuel (south_neibor g) everyone has_defined_neibors ;;
  '(se_reference, se_distance) <-
    follow_graph fuel (east_neibor g) s_reference is_defined ;;
  '(sw_reference, sw_distance) <-
    follow_graph fuel (west_neibor g) s_reference is_defined ;;
  '(n_weit, s_weit) <- get_interpolation_weits n_distance s_distance ;;
  '(ne_weit, nw_weit) <- get_interpolation_weits ne_distance nw_distance ;;
  '(se_weit, sw_weit) <- get_interpolation_weits se_distance sw_distance ;;
  let defining_indices :=
    zip_with (fun ne r => ne :: r) ne_reference
      (zip_with (fun nw r => nw :: r) nw_reference
        (zip_with (fun se sw => [se; sw]) se_reference sw_reference)) in
  let defining_weits :=
    zip_with (fun x r => x :: r) (zip_with Rmult n_weit ne_weit)
      (zip_with (fun x r => x :: r) (zip_with Rmult n_weit nw_weit)
        (zip_with (fun x y => [x; y]) (zip_with Rmult s_weit se_weit)
                                      (zip_with Rmult s_weit sw_weit))) in
  gathered <- mapM (np_take reindex) defining_indices ;;
  let s := {| sk_n_full := n_full; sk_n_partial := n_partial;
              sk_is_defined := is_defined; sk_reindex := reindex;
              sk_defining_indices := defining_indices;
              sk_defining_weits := defining_weits |} in
  Ok (s, (Restriction n_full is_defined,
          Gather (Z.to_nat n_partial) gathered defining_weits)).

(** [mesh_skeleton(lookup_table, factor, ф)]: the pair (reduction,
    restoration). *)
Definition mesh_skeleton (fuel : nat) (lookup_table : lookup_table)
    (factor : Z) (lat : list R) : result (operator * operator) :=
  r <- mesh_skeleton_strided fuel lookup_table factor (length lat)
         (map (east_west_factor_at factor) lat) ;;
  Ok (snd r).

(** ** The node enumerator *)

(** A coordinate of the input mesh: a number, or NaN for an absent node. *)
Inductive float : Type :=
| Num (x : R)
| NaN.

Definition Reqb (x y : R) : bool := if Req_dec_T x y then true else false.

Definition isnan (a : float) : bool :=
  match a with
  | NaN => true
  | Num _ => false
  end.

(** [a != b] on floats: NaN differs from everything. *)
Definition float_ne (a b : float) : bool :=
  match a, b with
  | Num x, Num y => negb (Reqb x y)
  | _, _ => true
  end.

(** The order numpy sorts floats by: the usual one, with NaN after every
    number and not before itself. *)
Definition float_lt (a b : float) : bool :=
  match a, b with
  | Num x, Num y => Rltb x y
  | Num _, NaN => true
  | NaN, _ => false
  end.

(** A row of the flattened mesh: the two coordinates of one grid entry. *)
Definition mesh_row : Type := (float * float)%type.

Definition row_ne (r q : mesh_row) : bool :=
  float_ne (fst r) (fst q) || float_ne (snd r) (snd q).

(** Rows are sorted field by field. *)
Definition row_lt (r q : mesh_row) : bool :=
  float_lt (fst r) (fst q)
  || (negb (float_lt (fst q) (fst r)) && float_lt (snd r) (snd q)).

(** The mesh: an array of shape (sections, rows, columns, 2). *)
Record mesh_grid : Type := mkMesh {
  mesh_sections : nat;
  mesh_rows : nat;
  mesh_cols : nat;
  position_at : nat -> nat -> nat -> mesh_row
}.

(** [mesh.reshape((-1, mesh.shape[-1]))] *)
Definition flat_positions (m : mesh_grid) : list mesh_row :=
  flat_map (fun h =>
    flat_map (fun i =>
      map (fun j => position_at m h i j) (seq 0 (mesh_cols m)))
      (seq 0 (mesh_rows m)))
    (seq 0 (mesh_sections m)).

(** Stable insertion of an indexed row into a sorted list: after every row
    that is not greater. *)
Fixpoint insert_row (x : nat * mesh_row) (l : list (nat * mesh_row))
    : list (nat * mesh_row) :=
  match l with
  | [] => [x]
  | y :: l' =>
      if row_lt (snd x) (snd y) then x :: y :: l' else y :: insert_row x l'
  end.

(** The rows with their places in the input, stably sorted. *)
Definition argsort_rows (rows : list mesh_row) : list (nat * mesh_row) :=
  fold_left (fun acc x => insert_row x acc)
            (combine (seq 0 (length rows)) rows) [].

(** One pass over the sorted rows: a row is kept when it is the first or
    differs from the row before it; every row gets the index of the last row
    kept so far. *)
Fixpoint unique_scan (prev : option mesh_row) (count : nat)
    (l : list (nat * mesh_row)) : list mesh_row * list (nat * nat) :=
  match l with
  | [] => ([], [])
  | (p, r) :: l' =>
      let keep := match prev with
                  | None => true
                  | Some q => row_ne r q
                  end in
      let count' := if keep then S count else count in
      let (u, inv) := unique_scan (Some r) count' l' in
      (if keep then r :: u else u, (p, count' - 1)%nat :: inv)
  end.

Fixpoint assoc_nat (p : nat) (l : list (nat * nat)) : nat :=
  match l with
  | [] => O
  | (q, v) :: l' => if Nat.eqb p q then v else assoc_nat p l'
  end.

(** [np.unique(rows, axis=0, return_inverse=True)]: the sorted rows without
    repetition, and for every input row its index among them. *)
Definition np_unique_rows (rows : list mesh_row) : list mesh_row * list nat :=
  let (u, inv) := unique_scan None 0 (argsort_rows rows) in
  (u, map (fun p => assoc_nat p inv) (seq 0 (length rows))).

(** [np.nonzero(mask)[0][0]]: the first index where the mask holds. *)
Fixpoint first_true {A : Type} (f : A -> bool) (l : list A) : option nat :=
  match l with
  | [] => None
  | x :: l' => if f x then Some O else option_map S (first_true f l')
  end.

(** [flat.reshape(mesh.shape[:-1])] *)
Definition reshape_like (mesh : mesh_grid) (flat : list Z) : lookup_table :=
  {| n_sections := mesh_sections mesh;
     n_rows := mesh_rows mesh;
     n_cols := mesh_cols mesh;
     node_at := fun h i j =>
       nth ((h * mesh_rows mesh + i) * mesh_cols mesh + j) flat (-1)%Z |}.

(** [enumerate_nodes(mesh)]: the lookup table of node indices and the list of
    node positions. *)
Definition enumerate_nodes (mesh : mesh_grid)
    : result (lookup_table * list mesh_row) :=
  let (node_positions, node_indices) := np_unique_rows (flat_positions mesh) in
  match first_true (fun r => isnan (fst r)) node_positions with
  | None => Raise IndexError
  | Some nan_index =>
      let node_indices :=
        map (fun k => if (nan_index <=? k)%nat then (-1)%Z else Z.of_nat k)
            node_indices in
      Ok (reshape_like mesh node_indices, firstn nan_index node_positions)
  end.

(** * More of the sources *)

(** ** [util.py] *)

(** [bin_centers]: [(bin_edges[1:] + bin_edges[:-1])/2]. *)
Definition bin_centers (bin_edges : list R) : list R :=
  zip_with (fun hi lo => ((hi + lo) / 2)%R) (tl bin_edges) (removelast bin_edges).

(** [np.digitize(x, bins)] for one number [x], with [right=False]: numpy
    accepts bins that never decrease (the result is the number of bins not
    above [x]) or never increase (the number of bins above [x]) and raises
    [ValueError] for others. *)
Fixpoint monotone (le : R -> R -> bool) (l : list R) : bool :=
  match l with
  | x :: ((y :: _) as l') => le x y && monotone le l'
  | _ => true
  end.

Definition count_where (f : R -> bool) (l : list R) : Z :=
  Z.of_nat (length (filter f l)).

Definition np_digitize (x : R) (bins : list R) : result Z :=
  if monotone Rleb bins then Ok (count_where (fun b => Rleb b x) bins)
  else if monotone (fun a b => Rleb b a) bins
       then Ok (count_where (fun b => Rltb x b) bins)
       else Raise ValueError.

(** [bin_index] for one number [x]:
    [np.where(x < bin_edges[-1], np.digitize(x, bin_edges) - 1,
              bin_edges.size - 2)]. *)
Definition bin_index (x : R) (bin_edges : list R) : result Z :=
  last_edge <- np_index bin_edges (-1) ;;
  d <- np_digitize x bin_edges ;;
  Ok (if Rltb x last_edge then (d - 1)%Z
      else (Z.of_nat (length bin_edges) - 2)%Z).

(** [x[:-1] |= x[1:]] and [x[1:] |= x[:-1]] on a 1-D boolean array: numpy
    reads the right-hand side before it writes, so every entry is combined
    with the old value of its neighbor. *)
Definition or_with_next (x : list bool) : list bool :=
  zip_with orb (removelast x) (tl x) ++ skipn (length x - 1) x.

Definition or_with_previous (x : list bool) : list bool :=
  firstn 1 x ++ zip_with orb (tl x) (removelast x).

(** [dilate(x, distance)]: the array [x] itself is updated and returned; this
    is its final content. *)
Definition dilate (x : list bool) (distance : Z) : list bool :=
  Nat.iter (Z.to_nat distance) (fun y => or_with_previous (or_with_next y)) x.

(** ** [create_map_projection.py]: the bounding box *)

(** [np.fmin] and [np.fmax]: a NaN operand is passed over. *)
Definition fmin (a b : float) : float :=
  match a, b with
  | Num x, Num y => Num (Rmin x y)
  | Num x, NaN => Num x
  | NaN, _ => b
  end.

Definition fmax (a b : float) : float :=
  match a, b with
  | Num x, Num y => Num (Rmax x y)
  | Num x, NaN => Num x
  | NaN, _ => b
  end.

(** [np.nanmin] and [np.nanmax] reduce with [fmin] and [fmax]: an empty array
    raises [ValueError]; an array of NaN alone gives NaN (and a warning). *)
Definition np_nanmin (a : list float) : result float :=
  match a with
  | [] => Raise ValueError
  | x :: a' => Ok (fold_left fmin a' x)
  end.

Definition np_nanmax (a : list float) : result float :=
  match a with
  | [] => Raise ValueError
  | x :: a' => Ok (fold_left fmax a' x)
  end.

(** [get_bounding_box(points)]: [[left, bottom], [right, top]], over the rows
    of [points] whatever its shape. *)
Definition get_bounding_box (points : list mesh_row)
    : result (mesh_row * mesh_row) :=
  left <- np_nanmin (map fst points) ;;
  bottom <- np_nanmin (map snd points) ;;
  right <- np_nanmax (map fst points) ;;
  top <- np_nanmax (map snd points) ;;
  Ok ((left, bottom), (right, top)).

(** ** [create_map_projection.py]: resampling a raster *)

(** What [downsample] is given: a 0-d array or a 2-d array. *)
Inductive raster : Type :=
| Raster0 (value : R)
| Raster2 (rows cols : nat) (pixel : nat -> nat -> R).

(** A 2-d array of floats of a given shape. *)
Record float_image : Type := mkImage {
  image_rows : nat;
  image_cols : nat;
  image_pixel : nat -> nat -> float
}.

(** The outcome of a function that checks its arguments with [assert]. *)
Inductive asserted (A : Type) : Type :=
| Passed (a : A)
| AssertionError.
Arguments Passed {A} a.
Arguments AssertionError {A}.

(** [np.mean] of a 1-d selection: NaN (and a warning) for an empty one. *)
Definition np_mean (l : list R) : float :=
  match l with
  | [] => NaN
  | _ => Num (Rsum l / INR (length l))
  end.

Section Downsample.

(** [reduced_index N n k] stands for the float computation
    [(np.arange(N)/N*n).astype(int)[k]], which rounding keeps from being the
    exact quotient; the model leaves it open. *)
Variable reduced_index : nat -> nat -> nat -> nat.

(** The indices [k] with [i_reduc[k] == i]. *)
Definition block (N n i : nat) : list nat :=
  filter (fun k => Nat.eqb (reduced_index N n k) i) (seq 0 N).

(** [full[i_reduc == i][:, j_reduc == j]], flattened. *)
Definition block_pixels (pixel : nat -> nat -> R) (N M : nat)
    (shape : nat * nat) (i j : nat) : list R :=
  flat_map (fun k => map (pixel k) (block M (snd shape) j))
           (block N (fst shape) i).

(** [downsample(full, shape)] for a 2-tuple [shape]. *)
Definition downsample (full : raster) (shape : nat * nat)
    : asserted float_image :=
  match full with
  | Raster0 value =>
      Passed {| image_rows := fst shape; image_cols := snd shape;
                image_pixel := fun _ _ => Num value |}
  | Raster2 N M pixel =>
      if (fst shape <? N)%nat && (snd shape <? M)%nat then
        Passed {| image_rows := fst shape; image_cols := snd shape;
                  image_pixel := fun i j =>
                    np_mean (block_pixels pixel N M shape i j) |}
      else AssertionError
  end.

End Downsample.

(** ** [create_map_projection.py]: back from the node list to the mesh *)

(** The last step of [create_map_projection]:
    [mesh = node_positions[node_indices, :]] and
    [mesh[node_indices == -1, :] = np.nan]; the rows of the new mesh in C
    order. *)
Definition rebuild_mesh (node_positions : list mesh_row)
    (node_indices : lookup_table) : result (list mesh_row) :=
  looked <- np_take node_positions (table_entries node_indices) ;;
  Ok (zip_with (fun k r => if (k =? -1)%Z then (NaN, NaN) else r)
               (table_entries node_indices) looked).

(** ** The interpolation weights in binary64 *)

(** The arithmetic of [get_interpolation_weits] and of [defining_weits] in
    [mesh_skeleton] with the float64 operations of the source (IEEE 754
    binary64, round to nearest even), at one node.  The distances are the
    counts of [follow_graph], which holds them as floats
    ([distance_traveld = np.zeros(state.shape)]). *)
Module Binary64.
Import PrimFloat.
#[local] Open Scope float_scope.

Definition interpolation_weit (distance_a distance_b : PrimFloat.float)
    : PrimFloat.float * PrimFloat.float :=
  let normal := negb (distance_a + distance_b =? 0) in
  let weit_a :=
    if normal then distance_b / (distance_a + distance_b) else 1 in
  (weit_a, 1 - weit_a).

(** One row of [defining_weits]. *)
Definition defining_weits
    (n_distance s_distance ne_distance nw_distance se_distance sw_distance
       : PrimFloat.float) : list PrimFloat.float :=
  let '(n_weit, s_weit) := interpolation_weit n_distance s_distance in
  let '(ne_weit, nw_weit) := interpolation_weit ne_distance nw_distance in
  let '(se_weit, sw_weit) := interpolation_weit se_distance sw_distance in
  [n_weit * ne_weit; n_weit * nw_weit; s_weit * se_weit; s_weit * sw_weit].

(** [a.sum()] of a short array: the entries are added in order. *)
Definition np_sum (a : list PrimFloat.float) : PrimFloat.float :=
  fold_left PrimFloat.add a 0.

End Binary64.

(** ** Vocabulary of the properties *)

(** The two strains of one cell, from its four corner positions, the two
    spacings of its row and its linear scale. *)
Definition corner_strains (pw pe ps pn : point) (dLam dPhi scale : R) : R * R :=
  let F_lam := div_point (sub_point pe pw) (dLam / scale) in
  let F_phi := div_point (sub_point pn ps) (dPhi / scale) in
  (trace_at F_lam F_phi + antitrace_at F_lam F_phi,
   trace_at F_lam F_phi - antitrace_at F_lam F_phi)%R.

(** The strains of one cell of the list, looked up in the arrays. *)
Definition cell_strains (positions : list point) (dPhi dLam : list R)
    (cs : cell * R) : result (R * R) :=
  let (c, scale) := cs in
  pw <- np_index positions (cell_west c) ;;
  pe <- np_index positions (cell_east c) ;;
  lam <- np_index dLam (cell_i c) ;;
  ps <- np_index positions (cell_south c) ;;
  pn <- np_index positions (cell_north c) ;;
  phi <- np_index dPhi (cell_i c) ;;
  Ok (corner_strains pw pe ps pn lam phi scale).

(** A cell on which the mapping is the identity in the cell's own units: its
    east corner lies one column spacing (divided by the cell's scale) to the
    right of its west corner, its north corner one row spacing above its south
    corner. *)
Definition identity_cell (positions : list point) (dPhi dLam : list R)
    (c : cell) (scale : R) : Prop :=
  exists pw pe ps pn lam phi,
    np_index positions (cell_west c) = Ok pw /\
    np_index positions (cell_east c) = Ok pe /\
    np_index positions (cell_south c) = Ok ps /\
    np_index positions (cell_north c) = Ok pn /\
    np_index dLam (cell_i c) = Ok lam /\
    np_index dPhi (cell_i c) = Ok phi /\
    (lam / scale <> 0 /\ phi / scale <> 0 /\
     fst pe - fst pw = lam / scale /\ snd pe - snd pw = 0 /\
     fst pn - fst ps = 0 /\ snd pn - snd ps = phi / scale)%R.

(** The sum over the cells of [f a b * w], and of [f a b], for the strains
    [a], [b] and the weight [w] of each cell. *)
Fixpoint weighted_sum (f : R -> R -> R) (a b w : list R) : R :=
  match a, b, w with
  | x :: a', y :: b', k :: w' => (f x y * k + weighted_sum f a' b' w')%R
  | _, _, _ => 0%R
  end.

Fixpoint plain_sum (f : R -> R -> R) (a b : list R) : R :=
  match a, b with
  | x :: a', y :: b' => (f x y + plain_sum f a' b')%R
  | _, _ => 0%R
  end.

(** A unit square: four nodes and the one cell they bound, with unit spacings,
    scale and weight. *)
Definition square_positions : list point :=
  [(0, 0); (1, 0); (0, 1); (1, 1)]%R.

Definition square_cell : cell :=
  {| cell_h := 0; cell_i := 0; cell_j := 0;
     cell_west := 0; cell_east := 1; cell_south := 0; cell_north := 2 |}.

(** The same square with its north corner mirrored below the south one: a
    folded cell. *)
Definition folded_positions : list point :=
  [(0, 0); (1, 0); (0, -1); (1, -1)]%R.

(** The square stretched to twice its width. *)
Definition stretched_positions : list point :=
  [(0, 0); (2, 0); (0, 1); (2, 1)]%R.

(** The strict lexicographic order on corner keys. *)
Definition key_lt (k1 k2 : Z * Z * Z * Z) : Prop :=
  let '(a1, b1, c1, d1) := k1 in
  let '(a2, b2, c2, d2) := k2 in
  (a1 < a2 \/ (a1 = a2 /\ (b1 < b2 \/ (b1 = b2 /\
     (c1 < c2 \/ (c1 = c2 /\ d1 < d2))))))%Z.


Definition cand_lt (d e : candidate) : Prop :=
  key_lt (corner_key (cand_cell d)) (corner_key (cand_cell e)).


(** A grid of one section, three rows and two columns with an absent node in
    its middle row and a repeated node (a pole) in its top row. *)
Definition corner_table : lookup_table :=
  table_of_lists [[[0; 1]; [2; -1]; [3; 3]]]%Z.

(** The place in an array of length [n] that the index [i] denotes, a negative
    index counting from the end. *)
Definition place (n : nat) (i : Z) : option nat :=
  let k := if (i <? 0)%Z then (i + Z.of_nat n)%Z else i in
  if ((0 <=? k) && (k <? Z.of_nat n))%Z then Some (Z.to_nat k) else None.

(** How many entries of a mask hold. *)
Definition count_true (mask : list bool) : nat :=
  length (filter (fun b => b) mask).

(** All four neighbor arrays have one entry per node. *)
Definition neibors_sized (n : nat) (g : neibors) : Prop :=
  length (east_neibor g) = n /\ length (west_neibor g) = n /\
  length (north_neibor g) = n /\ length (south_neibor g) = n.


(** What every row of the two operators looks like. *)
Definition skeleton_row (mask : list bool) (k : nat) (row : list Z)
    (weits : list R) : Prop :=
  exists r1 r2 r3 r4 w1 w2 w3 w4,
    row = map (fun r => Z.of_nat (count_true (firstn r mask))) [r1; r2; r3; r4] /\
    weits = [w1; w2; w3; w4] /\
    ((r1 < length mask)%nat /\ nth r1 mask false = true) /\
    ((r2 < length mask)%nat /\ nth r2 mask false = true) /\
    ((r3 < length mask)%nat /\ nth r3 mask false = true) /\
    ((r4 < length mask)%nat /\ nth r4 mask false = true) /\
    (0 <= w1 /\ 0 <= w2 /\ 0 <= w3 /\ 0 <= w4 /\ w1 + w2 + w3 + w4 = 1)%R /\
    (nth k mask false = true -> r1 = k /\ r2 = k /\ r3 = k /\ r4 = k).


(** The weighted sum of four points, as the restoration operator adds them up. *)
Definition combine4 (w1 w2 w3 w4 : R) (p1 p2 p3 p4 : point) : point :=
  add_point (scale_point w1 p1)
    (add_point (scale_point w2 p2)
       (add_point (scale_point w3 p3)
          (add_point (scale_point w4 p4) origin))).

(** A fully-defined grid of one section, five rows and five columns, its nodes
    numbered row by row. *)
Definition grid5 : lookup_table :=
  table_of_lists
    [[[0; 1; 2; 3; 4]; [5; 6; 7; 8; 9]; [10; 11; 12; 13; 14];
      [15; 16; 17; 18; 19]; [20; 21; 22; 23; 24]]]%Z.

(** The mask of the nine nodes at rows 0, 2, 4 and columns 0, 2, 4 of
    [grid5]. *)
Definition every_other_node : list bool :=
  [true; false; true; false; true;
   false; false; false; false; false;
   true; false; true; false; true;
   false; false; false; false; false;
   true; false; true; false; true].

(** The mask of seven nodes of [grid5]: columns 0 and 4 of rows 0 and 4,
    columns 0, 2 and 4 of row 2. *)
Definition thinned_outer_rows : list bool :=
  [true; false; false; false; true;
   false; false; false; false; false;
   true; false; true; false; true;
   false; false; false; false; false;
   true; false; false; false; true].

(** Five rows of latitudes from 60 degrees south to 60 degrees north, and from
    30 degrees south to 30 degrees north. *)
Definition wide_latitudes : list R :=
  [- (PI / 3); - (PI / 6); 0; PI / 6; PI / 3]%R.

Definition low_latitudes : list R :=
  [- (PI / 6); - (PI / 12); 0; PI / 12; PI / 6]%R.

(** A grid of one section and one column whose middle rows repeat node 0
    around node 1, between absent entries: north and south of node 0 is node
    1, north and south of node 1 is node 0. *)
Definition loop_table : lookup_table :=
  table_of_lists [[[-1]; [0]; [1]; [0]; [-1]]]%Z.

Definition is_ok {A : Type} (r : result A) : bool :=
  match r with
  | Ok _ => true
  | _ => false
  end.

(** The mask of key nodes that a result of [mesh_skeleton] selects. *)
Definition key_mask (r : result (operator * operator)) : option (list bool) :=
  match r with
  | Ok (Restriction _ mask, _) => Some mask
  | _ => None
  end.

(** [r <= q] in the order rows are sorted by. *)
Definition row_le (r q : mesh_row) : Prop := row_lt q r = false.

(** A mesh of one section, two rows and two columns: three nodes, two of them
    at the same place, and one absent entry. *)
Definition small_mesh : mesh_grid :=
  {| mesh_sections := 1; mesh_rows := 2; mesh_cols := 2;
     position_at := fun _ i j =>
       match i, j with
       | O, O => (Num 1, Num 0)
       | O, _ => (Num 0, Num 0)
       | _, O => (NaN, NaN)
       | _, _ => (Num 1, Num 0)
       end |}.

(** The same mesh with a node in place of the absent entry. *)
Definition full_mesh : mesh_grid :=
  {| mesh_sections := 1; mesh_rows := 2; mesh_cols := 2;
     position_at := fun _ i j =>
       match i, j with
       | O, O => (Num 1, Num 0)
       | O, _ => (Num 0, Num 0)
       | _, O => (Num 2, Num 2)
       | _, _ => (Num 1, Num 0)
       end |}.

Definition indexed_le (x y : nat * mesh_row) : Prop := row_le (snd x) (snd y).

(** Two rows that differ as floats. *)
Definition rows_differ (r q : mesh_row) : Prop := row_ne q r = true.

(** A loop over a list of places, stopping at the first exception: the nested
    [for] loops of [mesh_skeleton] seen as one pass. *)
Definition foldM {S X : Type} (step : X -> S -> result S) (l : list X) (s : S)
    : result S :=
  fold_left (fun acc x => s' <- acc ;; step x s') l (Ok s).

(** The places (h, i, j) of a table in the order the loops visit them. *)
Definition places (t : lookup_table) : list (nat * (nat * nat)) :=
  flat_map (fun h =>
    map (pair h)
        (flat_map (fun i => map (pair i) (seq 0 (n_cols t)))
                  (seq 0 (n_rows t))))
    (seq 0 (n_sections t)).

Definition node_of (t : lookup_table) (x : nat * (nat * nat)) : Z :=
  node_at t (fst x) (fst (snd x)) (snd (snd x)).

(** Every entry of the table is a node index below [n], and no node index
    stands at two places. *)
Definition well_numbered (t : lookup_table) (n : nat) : Prop :=
  (forall x, In x (places t) -> (0 <= node_of t x < Z.of_nat n)%Z) /\
  (forall x y, In x (places t) -> In y (places t) ->
     node_of t x = node_of t y -> x = y).

(** The entry next to a place in each direction, -1 beyond the edge. *)
Definition west_of (t : lookup_table) (x : nat * (nat * nat)) : Z :=
  let '(h, (i, j)) := x in
  if (1 <=? j)%nat then node_at t h i (j - 1) else (-1)%Z.

Definition east_of (t : lookup_table) (x : nat * (nat * nat)) : Z :=
  let '(h, (i, j)) := x in
  if (j + 1 <? n_cols t)%nat then node_at t h i (j + 1) else (-1)%Z.

Definition south_of (t : lookup_table) (x : nat * (nat * nat)) : Z :=
  let '(h, (i, j)) := x in
  if (1 <=? i)%nat then node_at t h (i - 1) j else (-1)%Z.

Definition north_of (t : lookup_table) (x : nat * (nat * nat)) : Z :=
  let '(h, (i, j)) := x in
  if (i + 1 <? n_rows t)%nat then node_at t h (i + 1) j else (-1)%Z.

(** The steps of the two loops of [mesh_skeleton] at a place. *)
Definition link_at (t : lookup_table) (x : nat * (nat * nat)) (g : neibors)
    : result neibors :=
  link_neibors t (fst x) (fst (snd x)) (snd (snd x)) g.

Definition mark_at (t : lookup_table) (factor : Z) (n_lat : nat)
    (strides : list Z) (x : nat * (nat * nat)) (marks : list bool * list bool)
    : result (list bool * list bool) :=
  mark_anchors t factor n_lat (nth (fst (snd x)) strides 0%Z)
               (fst x) (fst (snd x)) (snd (snd x)) marks.

(** Row anchors and column anchors, as the second loop decides them. *)
Definition important_row (factor : Z) (n_lat : nat) (x : nat * (nat * nat)) : bool :=
  let i := Z.of_nat (fst (snd x)) in
  ((Z.min i (Z.of_nat n_lat - 1 - i)) mod factor =? 0)%Z.

Definition important_col (strides : list Z) (x : nat * (nat * nat)) : bool :=
  (Z.of_nat (snd (snd x)) mod nth (fst (snd x)) strides 0%Z =? 0)%Z.

Definition neibors_blank_at (k : nat) (g : neibors) : Prop :=
  nth k (west_neibor g) 0%Z = (-1)%Z /\ nth k (east_neibor g) 0%Z = (-1)%Z /\
  nth k (south_neibor g) 0%Z = (-1)%Z /\ nth k (north_neibor g) 0%Z = (-1)%Z.

Definition neibors_linked_at (t : lookup_table) (x : nat * (nat * nat))
    (g : neibors) : Prop :=
  let k := Z.to_nat (node_of t x) in
  nth k (west_neibor g) 0%Z = west_of t x /\
  nth k (east_neibor g) 0%Z = east_of t x /\
  nth k (south_neibor g) 0%Z = south_of t x /\
  nth k (north_neibor g) 0%Z = north_of t x.

(** A table in which the nodes 0 .. n-1 stand each at exactly one place: a
    fully defined grid whose positions are all distinct. *)
Definition fully_numbered (t : lookup_table) (n : nat) : Prop :=
  well_numbered t n /\
  (forall k, (k < n)%nat -> exists x, In x (places t) /\ node_of t x = Z.of_nat k) /\
  (0 < n)%nat.

(** A place in a row of anchors: a row the stride of [factor] hits, or the
    first or last row. *)
Definition row_anchor (t : lookup_table) (factor : Z) (n_lat : nat)
    (x : nat * (nat * nat)) : bool :=
  important_row factor n_lat x
  || (negb (fst (snd x) + 1 <? n_rows t)%nat || negb (1 <=? fst (snd x))%nat).

(** A key place: in a row of anchors, at a column the stride of its row hits
    or at the first or last column. *)
Definition key_place (t : lookup_table) (factor : Z) (n_lat : nat)
    (strides : list Z) (x : nat * (nat * nat)) : bool :=
  (important_col strides x
   || (negb ((snd (snd x) + 1 <? n_cols t)%nat && row_anchor t factor n_lat x)
       || negb ((1 <=? snd (snd x))%nat && row_anchor t factor n_lat x)))
  && row_anchor t factor n_lat x.

(** ** More vocabulary *)

(** The node a walker of [follow_graph] stands on after [d] steps from [s]. *)
Fixpoint follow_steps (progression : list Z) (d : nat) (s : Z) : result Z :=
  match d with
  | O => Ok s
  | S d' => s' <- np_index progression s ;; follow_steps progression d' s'
  end.

(** An index that numpy accepts for an array of length [n], counting from
    either end. *)
Definition index_of (n : nat) (i : Z) : Prop :=
  (- Z.of_nat n <= i < Z.of_nat n)%Z.

(** The mirror image of a point in the x axis. *)
Definition mirror_point (p : point) : point := (fst p, - snd p)%R.

(** A node index that stands at some place of the table. *)
Definition entry_of (t : lookup_table) (k : Z) : Prop :=
  exists h i j, (h < n_sections t)%nat /\ (i < n_rows t)%nat /\
                (j < n_cols t)%nat /\ node_at t h i j = k.

(** A grid of one section and one column without absent entries, in which
    node 1 stands both at row 1 and at row 3. *)
Definition dup5 : lookup_table :=
  table_of_lists [[[0]; [1]; [2]; [1]; [3]]]%Z.

(** * Properties *)

(** ** The error monad *)

Lemma bind_ok {A B : Type} (m : result A) (k : A -> result B) (b : B) :
  bind m k = Ok b -> exists a, m = Ok a /\ k a = Ok b.
Proof.
  destruct m as [a | e |]; simpl; intros H; try discriminate.
  exists a. split; [reflexivity | exact H].
Qed.

Ltac inv_bind H :=
  let a := fresh "a" in
  let Ha := fresh "Ha" in
  apply bind_ok in H; destruct H as (a & Ha & H).

Tactic Notation "inv_bind_as" hyp(H) simple_intropattern(x) ident(Hx) :=
  apply bind_ok in H; destruct H as (x & Hx & H).

Lemma mapM_ok {A B : Type} (f : A -> result B) (l : list A) (bs : list B) :
  mapM f l = Ok bs -> Forall2 (fun a b => f a = Ok b) l bs.
Proof.
  revert bs. induction l as [| a l IH]; simpl; intros bs H.
  - injection H as <-. constructor.
  - inv_bind H. inv_bind H. injection H as <-.
    constructor; [assumption | apply IH; assumption].
Qed.

Lemma Forall2_ok_mapM {A B : Type} (f : A -> result B) (l : list A) (bs : list B) :
  Forall2 (fun a b => f a = Ok b) l bs -> mapM f l = Ok bs.
Proof.
  induction 1 as [| a b l bs Hab _ IH]; simpl.
  - reflexivity.
  - rewrite Hab, IH. reflexivity.
Qed.


(** ** Arrays: lengths and entries *)

Lemma Forall2_nth {A B : Type} (P : A -> B -> Prop) (l : list A) (l' : list B)
    (k : nat) (d : A) (d' : B) :
  Forall2 P l l' -> (k < length l)%nat -> P (nth k l d) (nth k l' d').
Proof.
  intros H. revert k. induction H as [| x y l l' Hxy _ IH]; simpl; intros k Hk.
  - lia.
  - destruct k as [| k]; [exact Hxy | apply IH; lia].
Qed.

Lemma np_take_length {A : Type} (a : list A) (idx : list Z) (r : list A) :
  np_take a idx = Ok r -> length r = length idx.
Proof.
  intros H. apply mapM_ok in H. symmetry. exact (Forall2_length H).
Qed.

Lemma np_take_nth {A : Type} (a : list A) (idx : list Z) (r : list A)
    (k : nat) (d : Z) (d' : A) :
  np_take a idx = Ok r -> (k < length idx)%nat ->
  np_index a (nth k idx d) = Ok (nth k r d').
Proof.
  intros H Hk. apply mapM_ok in H.
  exact (Forall2_nth (fun i x => np_index a i = Ok x) _ _ k d d' H Hk).
Qed.

Lemma np_index_nat {A : Type} (a : list A) (k : nat) (d : A) :
  (k < length a)%nat -> np_index a (Z.of_nat k) = Ok (nth k a d).
Proof.
  intros Hk. unfold np_index.
  destruct (Z.ltb_spec (Z.of_nat k) 0); [lia |].
  destruct (Z.leb_spec 0 (Z.of_nat k)); [| lia].
  destruct (Z.ltb_spec (Z.of_nat k) (Z.of_nat (length a))); [| lia].
  simpl. rewrite Nat2Z.id.
  rewrite (nth_error_nth' a d Hk). reflexivity.
Qed.

(** The place in the array that an index denotes, negative ones counted from
    the end. *)
Lemma np_index_place {A : Type} (a : list A) (i : Z) (x : A) (d : A) :
  np_index a i = Ok x ->
  exists k, (k < length a)%nat /\ nth k a d = x /\
            np_index a i = np_index a (Z.of_nat k).
Proof.
  unfold np_index at 1.
  set (j := if (i <? 0)%Z then (i + Z.of_nat (length a))%Z else i).
  destruct (Z.leb_spec 0 j); [| discriminate].
  destruct (Z.ltb_spec j (Z.of_nat (length a))); [| discriminate].
  simpl. destruct (nth_error a (Z.to_nat j)) eqn:E; [| discriminate].
  intros Hx. injection Hx as <-.
  assert (Hk : (Z.to_nat j < length a)%nat) by lia.
  exists (Z.to_nat j). split; [exact Hk |]. split.
  - apply nth_error_nth. exact E.
  - rewrite (np_index_nat a _ d Hk). unfold np_index. fold j.
    destruct (Z.leb_spec 0 j); [| lia].
    destruct (Z.ltb_spec j (Z.of_nat (length a))); [| lia].
    simpl. rewrite E. f_equal. symmetry. apply nth_error_nth. exact E.
Qed.

Lemma length_zip_with {A B C : Type} (f : A -> B -> C) (a : list A) (b : list B) :
  length (zip_with f a b) = Nat.min (length a) (length b).
Proof. unfold zip_with. rewrite length_map, length_combine. reflexivity. Qed.

Lemma nth_zip_with {A B C : Type} (f : A -> B -> C) (a : list A) (b : list B)
    (k : nat) (da : A) (db : B) (dc : C) :
  (k < length a)%nat -> (k < length b)%nat ->
  nth k (zip_with f a b) dc = f (nth k a da) (nth k b db).
Proof.
  revert b k. induction a as [| x a IH]; intros [| y b] [| k]; simpl;
    intros Ha Hb; try lia; try reflexivity.
  apply IH; lia.
Qed.


Lemma nth_of_firstn {A : Type} (l : list A) (n k : nat) (d : A) :
  (k < n)%nat -> nth k (firstn n l) d = nth k l d.
Proof.
  intros Hk. rewrite nth_firstn.
  destruct (Nat.ltb_spec k n); [reflexivity | lia].
Qed.

Lemma np_index_by_place {A : Type} (a : list A) (i : Z) (d : A) :
  np_index a i = match place (length a) i with
                 | Some r => Ok (nth r a d)
                 | None => Raise IndexError
                 end.
Proof.
  unfold np_index, place.
  set (j := if (i <? 0)%Z then (i + Z.of_nat (length a))%Z else i).
  destruct (Z.leb_spec 0 j) as [H0 | H0]; [| reflexivity].
  destruct (Z.ltb_spec j (Z.of_nat (length a))) as [H1 | H1]; [| reflexivity].
  simpl. assert (Hk : (Z.to_nat j < length a)%nat) by lia.
  rewrite (nth_error_nth' a d Hk). reflexivity.
Qed.

Lemma place_bound (n : nat) (i : Z) (r : nat) :
  place n i = Some r -> (r < n)%nat.
Proof.
  unfold place.
  set (j := if (i <? 0)%Z then (i + Z.of_nat n)%Z else i).
  destruct (Z.leb_spec 0 j); [| discriminate].
  destruct (Z.ltb_spec j (Z.of_nat n)); [| discriminate].
  simpl. intros E. injection E as <-. lia.
Qed.

Lemma place_nat (n k : nat) : (k < n)%nat -> place n (Z.of_nat k) = Some k.
Proof.
  intros Hk. unfold place.
  destruct (Z.ltb_spec (Z.of_nat k) 0); [lia |].
  destruct (Z.leb_spec 0 (Z.of_nat k)); [| lia].
  destruct (Z.ltb_spec (Z.of_nat k) (Z.of_nat n)); [| lia].
  simpl. rewrite Nat2Z.id. reflexivity.
Qed.

Lemma np_index_last {A : Type} (a : list A) (d : A) :
  (0 < length a)%nat -> np_index a (-1) = Ok (nth (length a - 1) a d).
Proof.
  intros H. rewrite (np_index_by_place a (-1) d).
  assert (E : place (length a) (-1) = Some (length a - 1)%nat).
  { unfold place. change (-1 <? 0)%Z with true. cbv iota.
    destruct (Z.leb_spec 0 (-1 + Z.of_nat (length a))); [| lia].
    destruct (Z.ltb_spec (-1 + Z.of_nat (length a)) (Z.of_nat (length a))); [| lia].
    cbn [andb]. f_equal. lia. }
  rewrite E. reflexivity.
Qed.

(** ** Strains *)

Lemma trace_at_pos (F_lam F_phi : point) : (0 <= trace_at F_lam F_phi)%R.
Proof.
  unfold trace_at. pose proof (sqrt_pos ((fst F_lam + snd F_phi) ^ 2
                                         + (fst F_phi - snd F_lam) ^ 2)). lra.
Qed.

Lemma antitrace_at_pos (F_lam F_phi : point) : (0 <= antitrace_at F_lam F_phi)%R.
Proof.
  unfold antitrace_at. pose proof (sqrt_pos ((fst F_lam - snd F_phi) ^ 2
                                             + (fst F_phi + snd F_lam) ^ 2)). lra.
Qed.

Lemma finite_difference_ok (a b : list point) (spacing cell_scales : list R)
    (F : list point) :
  finite_difference a b spacing cell_scales = Ok F ->
  length spacing = length cell_scales /\
  F = zip_with div_point (zip_with sub_point a b)
               (zip_with Rdiv spacing cell_scales).
Proof.
  unfold finite_difference.
  destruct (Nat.eqb_spec (length spacing) (length cell_scales)); [| discriminate].
  intros H. injection H as <-. auto.
Qed.

Lemma strains_ordered (F_lam F_phi : list point) :
  Forall2 (fun major minor => (minor <= major /\ 0 <= major)%R)
    (zip_with Rplus (zip_with trace_at F_lam F_phi)
                    (zip_with antitrace_at F_lam F_phi))
    (zip_with Rminus (zip_with trace_at F_lam F_phi)
                     (zip_with antitrace_at F_lam F_phi)).
Proof.
  revert F_phi. induction F_lam as [| fl F_lam IH]; intros [| fp F_phi];
    try constructor.
  - simpl. pose proof (trace_at_pos fl fp). pose proof (antitrace_at_pos fl fp).
    lra.
  - apply IH.
Qed.

Lemma principal_strains_shape positions cell_definitions cell_scales dPhi dLam a b :
  compute_principal_strains positions cell_definitions cell_scales dPhi dLam
    = Ok (a, b) ->
  length a = length cell_definitions /\
  Forall2 (fun major minor => (minor <= major /\ 0 <= major)%R) a b.
Proof.
  unfold compute_principal_strains. intros H.
  inv_bind_as H west Hwest. inv_bind_as H east Heast. inv_bind_as H lam Hlam.
  inv_bind_as H F_lam HFlam.
  inv_bind_as H south Hsouth. inv_bind_as H north Hnorth. inv_bind_as H phi Hphi.
  inv_bind_as H F_phi HFphi.
  injection H as <- <-.
  split; [| apply strains_ordered].
  apply np_take_length in Hwest, Heast, Hlam, Hsouth, Hnorth, Hphi.
  apply finite_difference_ok in HFlam, HFphi.
  destruct HFlam as [L1 ->], HFphi as [L2 ->].
  rewrite length_map in *. rewrite !length_zip_with. lia.
Qed.


(** The strains of a list of cells, one cell at a time. *)
Lemma strains_cons positions dPhi dLam c scale cells cell_scales x y a b :
  cell_strains positions dPhi dLam (c, scale) = Ok (x, y) ->
  compute_principal_strains positions cells cell_scales dPhi dLam = Ok (a, b) ->
  compute_principal_strains positions (c :: cells) (scale :: cell_scales)
    dPhi dLam = Ok (x :: a, y :: b).
Proof.
  unfold cell_strains, compute_principal_strains. intros Hc H.
  inv_bind_as Hc pw Hpw. inv_bind_as Hc pe Hpe. inv_bind_as Hc l Hl.
  inv_bind_as Hc ps Hps. inv_bind_as Hc pn Hpn. inv_bind_as Hc p Hp.
  injection Hc as <- <-.
  inv_bind_as H west Hwest. inv_bind_as H east Heast. inv_bind_as H lam Hlam.
  inv_bind_as H F_lam HFlam.
  inv_bind_as H south Hsouth. inv_bind_as H north Hnorth. inv_bind_as H phi Hphi.
  inv_bind_as H F_phi HFphi.
  injection H as <- <-.
  apply finite_difference_ok in HFlam, HFphi.
  destruct HFlam as [L1 ->], HFphi as [L2 ->].
  cbn [map]. unfold np_take in *. cbn [mapM].
  rewrite Hpw, Hwest, Hpe, Heast, Hl, Hlam, Hps, Hsouth, Hpn, Hnorth, Hp, Hphi.
  cbn [bind]. unfold finite_difference. cbn [length].
  rewrite L1, L2, !Nat.eqb_refl. cbn [bind].
  reflexivity.
Qed.

Lemma strains_nil positions dPhi dLam :
  compute_principal_strains positions [] [] dPhi dLam = Ok ([], []).
Proof. reflexivity. Qed.

(** ** Comparisons *)

Lemma Rltb_true (x y : R) : Rltb x y = true <-> (x < y)%R.
Proof. unfold Rltb. destruct (Rlt_dec x y); split; intros; auto; discriminate. Qed.

Lemma Rltb_false (x y : R) : Rltb x y = false <-> (y <= x)%R.
Proof.
  unfold Rltb. destruct (Rlt_dec x y); split; intros; auto; try discriminate; lra.
Qed.

Lemma Rleb_true (x y : R) : Rleb x y = true <-> (x <= y)%R.
Proof. unfold Rleb. destruct (Rle_dec x y); split; intros; auto; discriminate. Qed.

Lemma Rleb_false (x y : R) : Rleb x y = false <-> (y < x)%R.
Proof.
  unfold Rleb. destruct (Rle_dec x y); split; intros; auto; try discriminate; lra.
Qed.

Lemma all_positive_Forall (a : list R) :
  all_positive a = true <-> Forall (fun x => (0 < x)%R) a.
Proof.
  unfold all_positive. rewrite forallb_forall, Forall_forall.
  split; intros H x Hx; apply Rltb_true; auto.
Qed.

Lemma any_nonpositive_Exists (a : list R) :
  any_nonpositive a = true <-> Exists (fun x => (x <= 0)%R) a.
Proof.
  unfold any_nonpositive. rewrite existsb_exists, Exists_exists.
  split; intros (x & Hx & H); exists x; split; auto; apply Rleb_true; auto.
Qed.

Lemma any_below_Exists (a : list R) (bound : R) :
  any_below a bound = true <-> Exists (fun x => (x < bound)%R) a.
Proof.
  unfold any_below. rewrite existsb_exists, Exists_exists.
  split; intros (x & Hx & H); exists x; split; auto; apply Rltb_true; auto.
Qed.

(** ** The identity mapping *)

Lemma identity_corner_strains (pw pe ps pn : point) (lam phi scale : R) :
  (lam / scale <> 0 -> phi / scale <> 0 ->
   fst pe - fst pw = lam / scale -> snd pe - snd pw = 0 ->
   fst pn - fst ps = 0 -> snd pn - snd ps = phi / scale ->
   corner_strains pw pe ps pn lam phi scale = (1, 1))%R.
Proof.
  unfold corner_strains, trace_at, antitrace_at, div_point, sub_point.
  cbv zeta. simpl fst. simpl snd.
  generalize (lam / scale)%R (phi / scale)%R. intros u v Hu Hv Hx1 Hy1 Hx2 Hy2.
  rewrite Hx1, Hy1, Hx2, Hy2.
  replace (u / u)%R with 1%R by (field; assumption).
  replace (v / v)%R with 1%R by (field; assumption).
  replace (0 / u)%R with 0%R by (field; assumption).
  replace (0 / v)%R with 0%R by (field; assumption).
  replace ((1 + 1) ^ 2 + (0 - 0) ^ 2)%R with (2 ^ 2)%R by ring.
  replace ((1 - 1) ^ 2 + (0 + 0) ^ 2)%R with (0 ^ 2)%R by ring.
  rewrite !sqrt_pow2 by lra.
  f_equal; lra.
Qed.

Lemma identity_cell_strains positions dPhi dLam c scale :
  identity_cell positions dPhi dLam c scale ->
  cell_strains positions dPhi dLam (c, scale) = Ok (1%R, 1%R).
Proof.
  intros (pw & pe & ps & pn & lam & phi & Hw & He & Hs & Hn & Hl & Hp & H).
  destruct H as (H1 & H2 & H3 & H4 & H5 & H6).
  unfold cell_strains. rewrite Hw, He, Hl, Hs, Hn, Hp. simpl.
  f_equal. apply identity_corner_strains; assumption.
Qed.

Lemma identity_strains positions cell_definitions cell_scales dPhi dLam :
  Forall2 (identity_cell positions dPhi dLam) cell_definitions cell_scales ->
  compute_principal_strains positions cell_definitions cell_scales dPhi dLam
    = Ok (map (fun _ => 1%R) cell_definitions,
          map (fun _ => 1%R) cell_definitions).
Proof.
  induction 1 as [| c s cells scales Hc _ IH]; cbn [map].
  - apply strains_nil.
  - apply strains_cons; [| exact IH].
    apply identity_cell_strains. exact Hc.
Qed.

(** C6.  Where the mapping is the identity on every cell, in matching units,
    [compute_principal_strains] returns major strain 1 and minor strain 1 for
    every cell. *)
Theorem identity_mapping_unit_strains positions cell_definitions cell_scales
    dPhi dLam :
  Forall2 (identity_cell positions dPhi dLam) cell_definitions cell_scales ->
  compute_principal_strains positions cell_definitions cell_scales dPhi dLam
    = Ok (map (fun _ => 1%R) cell_definitions,
          map (fun _ => 1%R) cell_definitions).
Proof. exact (identity_strains positions cell_definitions cell_scales dPhi dLam). Qed.

Lemma square_is_identity :
  Forall2 (identity_cell square_positions [1%R] [1%R]) [square_cell] [1%R].
Proof.
  constructor; [| constructor].
  exists (0, 0)%R, (1, 0)%R, (0, 0)%R, (0, 1)%R, 1%R, 1%R.
  repeat (split; [reflexivity |]). simpl. repeat split; lra.
Qed.

Lemma identity_mapping_unit_strains_witness :
  Forall2 (identity_cell square_positions [1%R] [1%R]) [square_cell] [1%R] /\
  compute_principal_strains square_positions [square_cell] [1%R] [1%R] [1%R]
    = Ok ([1%R], [1%R]).
Proof.
  split; [exact square_is_identity |].
  apply (identity_mapping_unit_strains square_positions [square_cell] [1%R]).
  exact square_is_identity.
Defined.

(** ** The objective functions *)

Lemma strains_lengths positions cell_definitions cell_scales dPhi dLam a b :
  compute_principal_strains positions cell_definitions cell_scales dPhi dLam
    = Ok (a, b) ->
  length a = length cell_definitions /\ length b = length cell_definitions.
Proof.
  intros H. destruct (principal_strains_shape _ _ _ _ _ _ _ H) as [Ha Hab].
  split; [exact Ha |]. rewrite <- Ha. symmetry. exact (Forall2_length Hab).
Qed.

Lemma strains_of_lengths restore cell_definitions cell_scales dPhi dLam
    positions a b :
  strains_of restore cell_definitions cell_scales dPhi dLam positions
    = Ok (a, b) ->
  length a = length cell_definitions /\ length b = length cell_definitions.
Proof.
  unfold strains_of. intros H. inv_bind H. eapply strains_lengths; eassumption.
Qed.

Lemma weighted_terms_ok (f : R -> R -> R) (a b w : list R) :
  length a = length b -> length b = length w ->
  weighted_terms f a b w
    = Ok (map (fun x : R * R * R => (f (fst (fst x)) (snd (fst x)) * snd x)%R)
              (combine (combine a b) w)).
Proof.
  revert b w. induction a as [| x a IH]; intros [| y b] [| k w];
    simpl; intros Hab Hbw; try discriminate; try reflexivity.
  rewrite IH by lia. reflexivity.
Qed.

Lemma not_all_positive (a b : list R) :
  ~ (Forall (fun x => (0 < x)%R) a /\ Forall (fun x => (0 < x)%R) b) ->
  all_positive a && all_positive b = false.
Proof.
  intros H. destruct (all_positive a) eqn:Ha, (all_positive b) eqn:Hb;
    try reflexivity.
  exfalso. apply H. split; apply all_positive_Forall; assumption.
Qed.

Lemma all_positive_both (a b : list R) :
  Forall (fun x => (0 < x)%R) a /\ Forall (fun x => (0 < x)%R) b ->
  all_positive a && all_positive b = true.
Proof.
  intros [Ha Hb]. apply andb_true_iff. split; apply all_positive_Forall; assumption.
Qed.

Lemma Rsum_weighted (f : R -> R -> R) (a b w : list R) :
  Rsum (map (fun x : R * R * R => (f (fst (fst x)) (snd (fst x)) * snd x)%R)
            (combine (combine a b) w))
  = weighted_sum f a b w.
Proof.
  revert b w. induction a as [| x a IH]; intros [| y b] [| k w];
    try reflexivity.
  cbn [combine map Rsum fold_right fst snd weighted_sum].
  fold (Rsum (map (fun x : R * R * R => (f (fst (fst x)) (snd (fst x)) * snd x)%R)
                  (combine (combine a b) w))).
  rewrite IH. reflexivity.
Qed.

Lemma Rsum_plain (f : R -> R -> R) (a b : list R) :
  Rsum (map (fun x : R * R => f (fst x) (snd x)) (combine a b))
  = plain_sum f a b.
Proof.
  revert b. induction a as [| x a IH]; intros [| y b]; try reflexivity.
  cbn [combine map Rsum fold_right fst snd plain_sum].
  fold (Rsum (map (fun x : R * R => f (fst x) (snd x)) (combine a b))).
  rewrite IH. reflexivity.
Qed.

(** C1, as the code has it.  [compute_energy_lenient] returns minus infinity
    when every cell has both strains positive; when some strain is not
    positive it returns the finite sum of [w*((a+b-2)^2 + 2*(a-b)^2)] over the
    cells. *)
Theorem lenient_energy_values restore cell_definitions cell_scales
    cell_weights dPhi dLam positions a b :
  strains_of restore cell_definitions cell_scales dPhi dLam positions
    = Ok (a, b) ->
  length cell_weights = length cell_definitions ->
  (Forall (fun x => (0 < x)%R) a /\ Forall (fun x => (0 < x)%R) b ->
   compute_energy_lenient restore cell_definitions cell_scales cell_weights
     dPhi dLam positions = Ok NegInf) /\
  (~ (Forall (fun x => (0 < x)%R) a /\ Forall (fun x => (0 < x)%R) b) ->
   compute_energy_lenient restore cell_definitions cell_scales cell_weights
     dPhi dLam positions
   = Ok (Finite (weighted_sum
                   (fun x y => (x + y - 2) ^ 2 + 2 * (x - y) ^ 2)%R
                   a b cell_weights))).
Proof.
  intros Hs Hw. destruct (strains_of_lengths _ _ _ _ _ _ _ _ Hs) as [La Lb].
  unfold compute_energy_lenient. rewrite Hs. simpl.
  split; intros H.
  - rewrite all_positive_both by assumption. reflexivity.
  - rewrite not_all_positive by assumption.
    rewrite weighted_terms_ok by lia. cbn [bind]. do 2 f_equal.
    exact (Rsum_weighted lenient_term a b cell_weights).
Qed.

(** C4.  [compute_energy_strict] returns plus infinity exactly when some cell
    has a major or a minor strain that is not positive; otherwise it returns
    the finite sum of [w*(((a*b)^2 - 1)/2 - ln(a*b) + 2*(a-b)^2)]. *)
Theorem strict_energy_values restore cell_definitions cell_scales
    cell_weights dPhi dLam positions a b :
  strains_of restore cell_definitions cell_scales dPhi dLam positions
    = Ok (a, b) ->
  length cell_weights = length cell_definitions ->
  (compute_energy_strict restore cell_definitions cell_scales cell_weights
     dPhi dLam positions = Ok PosInf
   <-> Exists (fun x => (x <= 0)%R) a \/ Exists (fun x => (x <= 0)%R) b) /\
  (~ (Exists (fun x => (x <= 0)%R) a \/ Exists (fun x => (x <= 0)%R) b) ->
   compute_energy_strict restore cell_definitions cell_scales cell_weights
     dPhi dLam positions
   = Ok (Finite (weighted_sum
                   (fun x y =>
                      ((x * y) ^ 2 - 1) / 2 - ln (x * y) + 2 * (x - y) ^ 2)%R
                   a b cell_weights))).
Proof.
  intros Hs Hw. destruct (strains_of_lengths _ _ _ _ _ _ _ _ Hs) as [La Lb].
  unfold compute_energy_strict. rewrite Hs. cbn [bind].
  rewrite weighted_terms_ok by lia. cbn [bind].
  destruct (any_nonpositive a || any_nonpositive b) eqn:E.
  - apply orb_true_iff in E. rewrite !any_nonpositive_Exists in E.
    split; [tauto | intros H; contradiction].
  - apply orb_false_iff in E. destruct E as [Ea Eb].
    assert (N : ~ (Exists (fun x => (x <= 0)%R) a
                   \/ Exists (fun x => (x <= 0)%R) b)).
    { intros [H | H]; apply any_nonpositive_Exists in H; congruence. }
    split.
    + split; [discriminate | intros H; contradiction].
    + intros _. do 2 f_equal.
      exact (Rsum_weighted strict_term a b cell_weights).
Qed.

(** C7.  [compute_energy_aggressive] returns minus infinity when every cell
    has both strains positive; otherwise plus infinity when some strain is
    below -100; otherwise the sum of [exp(-6a) + exp(-6b)] over the cells. *)
Theorem aggressive_energy_values restore cell_definitions cell_scales
    dPhi dLam positions a b :
  strains_of restore cell_definitions cell_scales dPhi dLam positions
    = Ok (a, b) ->
  (Forall (fun x => (0 < x)%R) a /\ Forall (fun x => (0 < x)%R) b ->
   compute_energy_aggressive restore cell_definitions cell_scales
     dPhi dLam positions = Ok NegInf) /\
  (~ (Forall (fun x => (0 < x)%R) a /\ Forall (fun x => (0 < x)%R) b) ->
   Exists (fun x => (x < -100)%R) a \/ Exists (fun x => (x < -100)%R) b ->
   compute_energy_aggressive restore cell_definitions cell_scales
     dPhi dLam positions = Ok PosInf) /\
  (~ (Forall (fun x => (0 < x)%R) a /\ Forall (fun x => (0 < x)%R) b) ->
   ~ (Exists (fun x => (x < -100)%R) a \/ Exists (fun x => (x < -100)%R) b) ->
   compute_energy_aggressive restore cell_definitions cell_scales
     dPhi dLam positions
   = Ok (Finite (plain_sum (fun x y => exp (-6 * x) + exp (-6 * y))%R a b))).
Proof.
  intros Hs. unfold compute_energy_aggressive. rewrite Hs. simpl.
  split; [| split].
  - intros H. rewrite all_positive_both by assumption. reflexivity.
  - intros H E. rewrite not_all_positive by assumption.
    replace (any_below a (-100) || any_below b (-100)) with true; [reflexivity |].
    symmetry. apply orb_true_iff. rewrite !any_below_Exists. exact E.
  - intros H E. rewrite not_all_positive by assumption.
    replace (any_below a (-100) || any_below b (-100)) with false;
      [do 2 f_equal; exact (Rsum_plain aggressive_term a b) |].
    symmetry. apply orb_false_iff.
    split; apply not_true_is_false; intros F; apply any_below_Exists in F; tauto.
Qed.

(** ** The objective functions on the unit square and on a folded square *)

Lemma diagonal_corner_strains (pw pe ps pn : point) (u v : R) :
  (fst pe - fst pw = u -> snd pe - snd pw = 0 ->
   fst pn - fst ps = 0 -> snd pn - snd ps = - v ->
   0 <= u -> 0 <= v ->
   corner_strains pw pe ps pn 1 1 1 = ((Rabs (u - v) + (u + v)) / 2,
                                       (Rabs (u - v) - (u + v)) / 2))%R.
Proof.
  intros Hx1 Hy1 Hx2 Hy2 Hu Hv.
  unfold corner_strains, trace_at, antitrace_at, div_point, sub_point.
  cbv zeta. simpl fst. simpl snd.
  rewrite Hx1, Hy1, Hx2, Hy2.
  replace (1 / 1)%R with 1%R by field.
  replace ((u / 1 + - v / 1) ^ 2 + (0 / 1 - 0 / 1) ^ 2)%R
    with (Rsqr (u - v)) by (unfold Rsqr; field).
  replace ((u / 1 - - v / 1) ^ 2 + (0 / 1 + 0 / 1) ^ 2)%R
    with (Rsqr (u + v)) by (unfold Rsqr; field).
  rewrite !sqrt_Rsqr_abs. rewrite (Rabs_pos_eq (u + v)) by lra.
  f_equal; lra.
Qed.

Lemma square_strains :
  strains_of (ScalarOp 1) [square_cell] [1%R] [1%R] [1%R] square_positions
    = Ok ([1%R], [1%R]).
Proof.
  unfold strains_of. cbn [matmul bind].
  apply (identity_strains _ [square_cell] [1%R]).
  constructor; [| constructor].
  exists (1 * 0, 1 * 0)%R, (1 * 1, 1 * 0)%R, (1 * 0, 1 * 0)%R,
         (1 * 0, 1 * 1)%R, 1%R, 1%R.
  repeat (split; [reflexivity |]). simpl. repeat split; lra.
Qed.

Lemma folded_strains :
  strains_of (ScalarOp 1) [square_cell] [1%R] [1%R] [1%R] folded_positions
    = Ok ([1%R], [(-1)%R]).
Proof.
  unfold strains_of. cbn [matmul bind].
  apply strains_cons; [| apply strains_nil].
  transitivity
    (Ok (corner_strains (1 * 0, 1 * 0) (1 * 1, 1 * 0) (1 * 0, 1 * 0)
                        (1 * 0, 1 * -1) 1 1 1))%R; [reflexivity |].
  rewrite (diagonal_corner_strains _ _ _ _ 1 1) by (simpl; lra).
  replace (1 - 1)%R with 0%R by lra. rewrite Rabs_R0.
  f_equal. f_equal; lra.
Qed.

Lemma upright_corner_strains (pw pe ps pn : point) (u v : R) :
  (fst pe - fst pw = u -> snd pe - snd pw = 0 ->
   fst pn - fst ps = 0 -> snd pn - snd ps = v ->
   0 <= u -> 0 <= v ->
   corner_strains pw pe ps pn 1 1 1 = (((u + v) + Rabs (u - v)) / 2,
                                       ((u + v) - Rabs (u - v)) / 2))%R.
Proof.
  intros Hx1 Hy1 Hx2 Hy2 Hu Hv.
  unfold corner_strains, trace_at, antitrace_at, div_point, sub_point.
  cbv zeta. simpl fst. simpl snd.
  rewrite Hx1, Hy1, Hx2, Hy2.
  replace (1 / 1)%R with 1%R by field.
  replace ((u / 1 + v / 1) ^ 2 + (0 / 1 - 0 / 1) ^ 2)%R
    with (Rsqr (u + v)) by (unfold Rsqr; field).
  replace ((u / 1 - v / 1) ^ 2 + (0 / 1 + 0 / 1) ^ 2)%R
    with (Rsqr (u - v)) by (unfold Rsqr; field).
  rewrite !sqrt_Rsqr_abs. rewrite (Rabs_pos_eq (u + v)) by lra.
  f_equal; lra.
Qed.

Lemma stretched_strains :
  strains_of (ScalarOp 1) [square_cell] [1%R] [1%R] [1%R] stretched_positions
    = Ok ([2%R], [1%R]).
Proof.
  unfold strains_of. cbn [matmul bind].
  apply strains_cons; [| apply strains_nil].
  transitivity
    (Ok (corner_strains (1 * 0, 1 * 0) (1 * 2, 1 * 0) (1 * 0, 1 * 0)
                        (1 * 0, 1 * 1) 1 1 1))%R; [reflexivity |].
  rewrite (upright_corner_strains _ _ _ _ 2 1) by (simpl; lra).
  replace (2 - 1)%R with 1%R by lra. rewrite Rabs_R1.
  f_equal. f_equal; lra.
Qed.


(** C1, refuted as stated.  On the unit square the one cell has the finite
    strains (1, 1), both positive, and [compute_energy_lenient] returns minus
    infinity, not a finite value. *)
Lemma lenient_energy_unit_square :
  strains_of (ScalarOp 1) [square_cell] [1%R] [1%R] [1%R] square_positions
    = Ok ([1%R], [1%R]) /\
  compute_energy_lenient (ScalarOp 1) [square_cell] [1%R] [1%R] [1%R] [1%R]
    square_positions = Ok NegInf.
Proof.
  split; [exact square_strains |].
  unfold compute_energy_lenient. rewrite square_strains. simpl.
  assert (H : Rltb 0 1 = true) by (apply Rltb_true; lra).
  rewrite H. reflexivity.
Qed.

Lemma folded_not_all_positive :
  ~ (Forall (fun x => (0 < x)%R) [1%R] /\ Forall (fun x => (0 < x)%R) [(-1)%R]).
Proof. intros [_ H]. inversion H; subst. lra. Qed.

Lemma folded_none_below :
  ~ (Exists (fun x => (x < -100)%R) [1%R]
     \/ Exists (fun x => (x < -100)%R) [(-1)%R]).
Proof.
  intros [H | H]; inversion H as [? ? H1 | ? ? H1]; subst;
    try lra; inversion H1.
Qed.

Lemma stretched_all_positive :
  ~ (Exists (fun x => (x <= 0)%R) [2%R] \/ Exists (fun x => (x <= 0)%R) [1%R]).
Proof.
  intros [H | H]; inversion H as [? ? H1 | ? ? H1]; subst;
    try lra; inversion H1.
Qed.

Lemma lenient_energy_values_witness :
  strains_of (ScalarOp 1) [square_cell] [1%R] [1%R] [1%R] folded_positions
    = Ok ([1%R], [(-1)%R]) /\
  length [3%R] = length [square_cell] /\
  compute_energy_lenient (ScalarOp 1) [square_cell] [1%R] [3%R] [1%R] [1%R]
    folded_positions
  = Ok (Finite 36).
Proof.
  split; [exact folded_strains |]. split; [reflexivity |].
  rewrite (proj2 (lenient_energy_values (ScalarOp 1) [square_cell] [1%R] [3%R]
                    [1%R] [1%R] folded_positions [1%R] [(-1)%R]
                    folded_strains eq_refl)
                 folded_not_all_positive).
  f_equal. f_equal. cbn [weighted_sum]. ring.
Defined.

Lemma strict_energy_values_witness :
  (strains_of (ScalarOp 1) [square_cell] [1%R] [1%R] [1%R] folded_positions
     = Ok ([1%R], [(-1)%R]) /\
   length [3%R] = length [square_cell] /\
   compute_energy_strict (ScalarOp 1) [square_cell] [1%R] [3%R] [1%R] [1%R]
     folded_positions = Ok PosInf) /\
  (strains_of (ScalarOp 1) [square_cell] [1%R] [1%R] [1%R] stretched_positions
     = Ok ([2%R], [1%R]) /\
   compute_energy_strict (ScalarOp 1) [square_cell] [1%R] [3%R] [1%R] [1%R]
     stretched_positions = Ok (Finite ((7 / 2 - ln 2) * 3))).
Proof.
  split.
  - split; [exact folded_strains |]. split; [reflexivity |].
    apply (proj1 (strict_energy_values (ScalarOp 1) [square_cell] [1%R] [3%R]
                    [1%R] [1%R] folded_positions [1%R] [(-1)%R]
                    folded_strains eq_refl)).
    right. constructor. lra.
  - split; [exact stretched_strains |].
    rewrite (proj2 (strict_energy_values (ScalarOp 1) [square_cell] [1%R]
                      [3%R] [1%R] [1%R] stretched_positions [2%R] [1%R]
                      stretched_strains eq_refl)
                   stretched_all_positive).
    f_equal. f_equal. cbn [weighted_sum].
    replace (2 * 1)%R with 2%R by ring. field.
Defined.

Lemma aggressive_energy_values_witness :
  strains_of (ScalarOp 1) [square_cell] [1%R] [1%R] [1%R] folded_positions
    = Ok ([1%R], [(-1)%R]) /\
  compute_energy_aggressive (ScalarOp 1) [square_cell] [1%R] [1%R] [1%R]
    folded_positions
  = Ok (Finite (exp (-6) + exp 6)).
Proof.
  split; [exact folded_strains |].
  rewrite (proj2 (proj2 (aggressive_energy_values (ScalarOp 1) [square_cell]
                           [1%R] [1%R] [1%R] folded_positions [1%R] [(-1)%R]
                           folded_strains))
                 folded_not_all_positive folded_none_below).
  f_equal. f_equal. cbn [plain_sum].
  replace (-6 * 1)%R with (-6)%R by ring.
  replace (-6 * -1)%R with 6%R by ring. ring.
Defined.

(** ** The cell enumerator *)

Lemma np_index_in_range {A : Type} (a : list A) (i : Z) :
  (0 <= i < Z.of_nat (length a))%Z -> exists x, np_index a i = Ok x.
Proof.
  intros Hi. unfold np_index.
  destruct (Z.ltb_spec i 0); [lia |].
  destruct (Z.leb_spec 0 i); [| lia].
  destruct (Z.ltb_spec i (Z.of_nat (length a))); [| lia].
  simpl. destruct (nth_error a (Z.to_nat i)) eqn:E; [eauto |].
  apply nth_error_None in E. lia.
Qed.

Lemma mapM_total {A B : Type} (f : A -> result B) (l : list A) :
  Forall (fun a => exists b, f a = Ok b) l -> exists bs, mapM f l = Ok bs.
Proof.
  induction 1 as [| a l [b Hb] _ [bs IH]]; simpl.
  - eauto.
  - rewrite Hb, IH. simpl. eauto.
Qed.

Lemma insert_unique_In (c x : candidate) (l : list candidate) :
  In x (insert_unique c l) -> x = c \/ In x l.
Proof.
  induction l as [| d l IH]; cbn [insert_unique].
  - intros [<- | []]. auto.
  - destruct (key_compare (corner_key (cand_cell c)) (corner_key (cand_cell d)));
      cbn [In]; intros H; intuition (subst; auto).
Qed.

Lemma fold_insert_unique_In (l acc : list candidate) (x : candidate) :
  In x (fold_left (fun acc c => insert_unique c acc) l acc) ->
  In x l \/ In x acc.
Proof.
  revert acc. induction l as [| c l IH]; simpl; intros acc H.
  - auto.
  - destruct (IH _ H) as [H1 | H1]; auto.
    destruct (insert_unique_In _ _ _ H1) as [-> | H2]; auto.
Qed.

Lemma unique_by_corners_In (l : list candidate) (x : candidate) :
  In x (unique_by_corners l) -> In x l.
Proof.
  intros H. destruct (fold_insert_unique_In _ _ _ H) as [H1 | []]. exact H1.
Qed.

Lemma all_candidates_rows (t : lookup_table) (d : candidate) :
  In d (all_candidates t) ->
  (0 <= cand_node1_i d < Z.of_nat (n_rows t)
   /\ 0 <= cand_node2_i d < Z.of_nat (n_rows t))%Z.
Proof.
  unfold all_candidates, candidates_for. intros H.
  apply in_flat_map in H. destruct H as (di & Hdi & H).
  apply in_flat_map in H. destruct H as (dj & Hdj & H).
  apply in_flat_map in H. destruct H as (h & Hh & H).
  apply in_flat_map in H. destruct H as (i & Hi & H).
  apply in_map_iff in H. destruct H as (j & <- & Hj).
  apply in_seq in Hdi, Hi. simpl. lia.
Qed.

Lemma kept_candidates_valid (t : lookup_table) (d : candidate) :
  In d (kept_candidates t) <->
  In d (unique_by_corners (all_candidates t)) /\
  cell_west (cand_cell d) <> (-1)%Z /\ cell_east (cand_cell d) <> (-1)%Z /\
  cell_south (cand_cell d) <> (-1)%Z /\ cell_north (cand_cell d) <> (-1)%Z /\
  cell_west (cand_cell d) <> cell_east (cand_cell d).
Proof.
  unfold kept_candidates. rewrite filter_In.
  unfold missing_node, degenerate.
  rewrite negb_true_iff, !orb_false_iff, !Z.eqb_neq. tauto.
Qed.

Lemma key_compare_spec (k1 k2 : Z * Z * Z * Z) :
  match key_compare k1 k2 with
  | Eq => k1 = k2
  | Lt => key_lt k1 k2
  | Gt => key_lt k2 k1
  end.
Proof.
  destruct k1 as [[[a1 b1] c1] d1], k2 as [[[a2 b2] c2] d2].
  unfold key_compare, key_lt.
  destruct (Z.compare_spec a1 a2); try lia.
  destruct (Z.compare_spec b1 b2); try lia.
  destruct (Z.compare_spec c1 c2); try lia.
  destruct (Z.compare_spec d1 d2); try lia.
  congruence.
Qed.

Lemma key_lt_trans (k1 k2 k3 : Z * Z * Z * Z) :
  key_lt k1 k2 -> key_lt k2 k3 -> key_lt k1 k3.
Proof.
  destruct k1 as [[[a1 b1] c1] d1], k2 as [[[a2 b2] c2] d2],
           k3 as [[[a3 b3] c3] d3].
  unfold key_lt. lia.
Qed.

Lemma key_lt_irrefl (k : Z * Z * Z * Z) : ~ key_lt k k.
Proof. destruct k as [[[a b] c] d]. unfold key_lt. lia. Qed.

Lemma insert_unique_sorted (c : candidate) (l : list candidate) :
  StronglySorted cand_lt l -> StronglySorted cand_lt (insert_unique c l).
Proof.
  induction 1 as [| d l Hl IH Hd]; cbn [insert_unique].
  - repeat constructor.
  - pose proof (key_compare_spec (corner_key (cand_cell c))
                                 (corner_key (cand_cell d))) as Hc.
    destruct (key_compare (corner_key (cand_cell c)) (corner_key (cand_cell d))).
    + constructor; assumption.
    + constructor; [constructor; assumption |].
      constructor; [exact Hc |].
      eapply Forall_impl; [| exact Hd].
      intros e He. eapply key_lt_trans; eassumption.
    + constructor; [exact IH |].
      apply Forall_forall. intros x Hx.
      destruct (insert_unique_In _ _ _ Hx) as [-> | Hx'].
      * exact Hc.
      * rewrite Forall_forall in Hd. auto.
Qed.

Lemma unique_by_corners_sorted (l : list candidate) :
  StronglySorted cand_lt (unique_by_corners l).
Proof.
  unfold unique_by_corners.
  assert (H : forall acc, StronglySorted cand_lt acc ->
            StronglySorted cand_lt
              (fold_left (fun acc c => insert_unique c acc) l acc)).
  { induction l as [| c l IH]; simpl; intros acc Hacc; [exact Hacc |].
    apply IH, insert_unique_sorted, Hacc. }
  apply H. constructor.
Qed.

Lemma sorted_filter (f : candidate -> bool) (l : list candidate) :
  StronglySorted cand_lt l -> StronglySorted cand_lt (filter f l).
Proof.
  induction 1 as [| d l Hl IH Hd]; simpl; [constructor |].
  destruct (f d); [| exact IH].
  constructor; [exact IH |].
  apply Forall_forall. intros x Hx. apply filter_In in Hx.
  rewrite Forall_forall in Hd. apply Hd. tauto.
Qed.

Lemma sorted_keys_NoDup (l : list candidate) :
  StronglySorted cand_lt l ->
  NoDup (map (fun d => corner_key (cand_cell d)) l).
Proof.
  induction 1 as [| d l Hl IH Hd]; simpl; constructor; [| exact IH].
  intros Hin. apply in_map_iff in Hin. destruct Hin as (e & He & Hine).
  rewrite Forall_forall in Hd. specialize (Hd e Hine).
  unfold cand_lt in Hd. rewrite He in Hd. exact (key_lt_irrefl _ Hd).
Qed.

Lemma insert_unique_key (c x : candidate) (l : list candidate) :
  x = c \/ In x l ->
  exists y, In y (insert_unique c l)
            /\ corner_key (cand_cell y) = corner_key (cand_cell x).
Proof.
  induction l as [| d l IH]; cbn [insert_unique].
  - intros [-> | []]. exists c. simpl. auto.
  - pose proof (key_compare_spec (corner_key (cand_cell c))
                                 (corner_key (cand_cell d))) as Hc.
    destruct (key_compare (corner_key (cand_cell c)) (corner_key (cand_cell d)));
      intros [-> | [-> | Hx]].
    + exists d. simpl. auto.
    + exists x. simpl. auto.
    + exists x. simpl. auto.
    + exists c. simpl. auto.
    + exists x. simpl. auto.
    + exists x. simpl. auto.
    + destruct IH as (y & Hy & Hk); [auto |]. exists y. simpl. auto.
    + exists x. simpl. auto.
    + destruct IH as (y & Hy & Hk); [auto |]. exists y. simpl. auto.
Qed.

Lemma unique_by_corners_covers (l : list candidate) (x : candidate) :
  In x l ->
  exists y, In y (unique_by_corners l)
            /\ corner_key (cand_cell y) = corner_key (cand_cell x).
Proof.
  unfold unique_by_corners.
  assert (H : forall acc k,
            (exists x, (In x l \/ In x acc) /\ corner_key (cand_cell x) = k) ->
            exists y, In y (fold_left (fun acc c => insert_unique c acc) l acc)
                      /\ corner_key (cand_cell y) = k).
  { induction l as [| c l IH]; simpl; intros acc k (z & Hz & Hk).
    - destruct Hz as [[] | Hz]. exists z. auto.
    - apply IH. destruct Hz as [[<- | Hz] | Hz].
      + destruct (insert_unique_key c c acc) as (y & Hy & Hky); [auto |].
        exists y. split; [auto | congruence].
      + exists z. auto.
      + destruct (insert_unique_key c z acc) as (y & Hy & Hky); [auto |].
        exists y. split; [auto | congruence]. }
  intros Hx. apply H. exists x. auto.
Qed.

Lemma valid_by_key (c c' : cell) :
  corner_key c = corner_key c' ->
  missing_node c = missing_node c' /\ degenerate c = degenerate c'.
Proof.
  unfold corner_key, missing_node, degenerate. intros H.
  injection H as -> -> -> ->. auto.
Qed.

(** C8.  Given spacing arrays that cover the rows of the grid,
    [enumerate_cells] returns without an error.  Every cell it returns has
    four corners other than -1 and distinct west and east corners; no two
    returned cells have the same four corners; every returned cell is a
    candidate; and a candidate that meets both conditions has its corners in
    the list, so only the others are left out. *)
Theorem enumerate_cells_keeps_valid_cells (t : lookup_table)
    (values scales : Z -> Z -> Z -> R) (dPhi dLam : list R) :
  (n_rows t <= length dPhi)%nat ->
  (n_rows t <= length dLam)%nat ->
  exists cells weights cell_scales,
    enumerate_cells t values scales dPhi dLam = Ok (cells, weights, cell_scales) /\
    (forall c, In c cells ->
       cell_west c <> (-1)%Z /\ cell_east c <> (-1)%Z /\
       cell_south c <> (-1)%Z /\ cell_north c <> (-1)%Z /\
       cell_west c <> cell_east c) /\
    NoDup (map corner_key cells) /\
    (forall c, In c cells -> exists d, In d (all_candidates t) /\ cand_cell d = c) /\
    (forall d, In d (all_candidates t) ->
       missing_node (cand_cell d) = false -> degenerate (cand_cell d) = false ->
       exists c, In c cells /\ corner_key c = corner_key (cand_cell d)).
Proof.
  intros HPhi HLam. unfold enumerate_cells.
  destruct (mapM_total (candidate_weight_scale values scales dPhi dLam)
              (kept_candidates t)) as [ws Hws].
  { apply Forall_forall. intros d Hd.
    apply kept_candidates_valid in Hd. destruct Hd as [Hd _].
    apply unique_by_corners_In, all_candidates_rows in Hd.
    unfold candidate_weight_scale.
    destruct (np_index_in_range dPhi (cand_node1_i d)) as [x1 ->]; [lia |].
    destruct (np_index_in_range dLam (cand_node1_i d)) as [x2 ->]; [lia |].
    destruct (np_index_in_range dPhi (cand_node2_i d)) as [x3 ->]; [lia |].
    destruct (np_index_in_range dLam (cand_node2_i d)) as [x4 ->]; [lia |].
    simpl. eauto. }
  rewrite Hws. simpl.
  exists (map cand_cell (kept_candidates t)), (map fst ws), (map snd ws).
  split; [reflexivity |]. split; [| split; [| split]].
  - intros c Hc. apply in_map_iff in Hc. destruct Hc as (d & <- & Hd).
    apply kept_candidates_valid in Hd. tauto.
  - rewrite map_map. apply sorted_keys_NoDup.
    apply sorted_filter, unique_by_corners_sorted.
  - intros c Hc. apply in_map_iff in Hc. destruct Hc as (d & <- & Hd).
    exists d. split; [| reflexivity].
    apply kept_candidates_valid in Hd. apply unique_by_corners_In. tauto.
  - intros d Hd Hm Hg.
    destruct (unique_by_corners_covers _ _ Hd) as (y & Hy & Hk).
    destruct (valid_by_key _ _ Hk) as [Em Eg].
    exists (cand_cell y). split; [| exact Hk].
    apply in_map. unfold kept_candidates. apply filter_In.
    split; [exact Hy |]. rewrite Em, Eg, Hm, Hg. reflexivity.
Qed.

Lemma enumerate_cells_keeps_valid_cells_witness :
  (n_rows corner_table <= length [1; 1; 1]%R)%nat /\
  (n_rows corner_table <= length [1; 1; 1]%R)%nat /\
  exists cells weights cell_scales,
    enumerate_cells corner_table (fun _ _ _ => 1%R) (fun _ _ _ => 1%R)
      [1; 1; 1]%R [1; 1; 1]%R = Ok (cells, weights, cell_scales) /\
    (forall c, In c cells ->
       cell_west c <> (-1)%Z /\ cell_east c <> (-1)%Z /\
       cell_south c <> (-1)%Z /\ cell_north c <> (-1)%Z /\
       cell_west c <> cell_east c) /\
    NoDup (map corner_key cells) /\
    (forall c, In c cells ->
       exists d, In d (all_candidates corner_table) /\ cand_cell d = c) /\
    (forall d, In d (all_candidates corner_table) ->
       missing_node (cand_cell d) = false -> degenerate (cand_cell d) = false ->
       exists c, In c cells /\ corner_key c = corner_key (cand_cell d)).
Proof.
  split; [simpl; lia |]. split; [simpl; lia |].
  apply (enumerate_cells_keeps_valid_cells corner_table); simpl; lia.
Defined.

(** On the grid [corner_table] one cell survives out of eight candidates. *)
Example corner_table_cells :
  map cand_cell (kept_candidates corner_table)
  = [ {| cell_h := 0; cell_i := 0; cell_j := 0;
         cell_west := 0; cell_east := 1; cell_south := 0; cell_north := 2 |} ].
Proof. vm_compute. reflexivity. Qed.

(** ** Following a graph *)

Lemma length_advance (arrived : list bool) (next state : list Z) :
  length arrived = length state -> length next = length state ->
  length (advance arrived next state) = length state.
Proof.
  intros H1 H2. unfold advance.
  rewrite length_map, !length_combine. lia.
Qed.

Lemma length_count_step (arrived : list bool) (distance : list nat) :
  length arrived = length distance ->
  length (count_step arrived distance) = length distance.
Proof.
  intros H. unfold count_step. rewrite length_map, length_combine. lia.
Qed.

Lemma nth_advance (arrived : list bool) (next state : list Z) (k : nat) :
  length arrived = length state -> length next = length state ->
  (k < length state)%nat ->
  nth k (advance arrived next state) 0%Z
  = if nth k arrived false then nth k state 0%Z else nth k next 0%Z.
Proof.
  unfold advance. revert arrived next k.
  induction state as [| s state IH]; intros [| a arrived] [| n next] [| k];
    simpl; intros H1 H2 Hk; try lia; try reflexivity.
  apply IH; lia.
Qed.

Lemma nth_count_step (arrived : list bool) (distance : list nat) (k : nat) :
  length arrived = length distance -> (k < length distance)%nat ->
  nth k (count_step arrived distance) O
  = if nth k arrived false then nth k distance O else S (nth k distance O).
Proof.
  unfold count_step. revert arrived k.
  induction distance as [| d distance IH]; intros [| a arrived] [| k];
    simpl; intros H1 Hk; try lia; try reflexivity.
  apply IH; lia.
Qed.

Lemma forallb_nth (arrived : list bool) (k : nat) :
  forallb (fun a => a) arrived = true -> (k < length arrived)%nat ->
  nth k arrived false = true.
Proof.
  intros H Hk. rewrite forallb_forall in H. apply H. apply nth_In. exact Hk.
Qed.

Lemma follow_loop_spec (fuel : nat) (progression : list Z) (until : list bool) :
  forall state distance arrived state' distance',
    np_take until state = Ok arrived ->
    length distance = length state ->
    follow_loop fuel progression until state distance arrived
      = Ok (state', distance') ->
    length state' = length state /\ length distance' = length state /\
    (forall k, (k < length state)%nat ->
       np_index until (nth k state' 0%Z) = Ok true) /\
    (forall k, (k < length state)%nat ->
       np_index until (nth k state 0%Z) = Ok true ->
       nth k state' 0%Z = nth k state 0%Z /\ nth k distance' O = nth k distance O).
Proof.
  induction fuel as [| fuel IH]; intros state distance arrived state' distance'
    Harr Hlen H; cbn [follow_loop] in H;
    destruct (forallb (fun a => a) arrived) eqn:Hall.
  - injection H as <- <-.
    split; [reflexivity |]. split; [exact Hlen |]. split; [| auto].
    intros k Hk. rewrite (np_take_nth _ _ _ k 0%Z false Harr Hk).
    f_equal. apply forallb_nth; [exact Hall |].
    rewrite (np_take_length _ _ _ Harr). exact Hk.
  - discriminate.
  - injection H as <- <-.
    split; [reflexivity |]. split; [exact Hlen |]. split; [| auto].
    intros k Hk. rewrite (np_take_nth _ _ _ k 0%Z false Harr Hk).
    f_equal. apply forallb_nth; [exact Hall |].
    rewrite (np_take_length _ _ _ Harr). exact Hk.
  - inv_bind H. rename a into next. rename Ha into Hnext.
    destruct (stuck arrived next state); [discriminate |].
    inv_bind H. rename a into arrived2. rename Ha into Harr2.
    pose proof (np_take_length _ _ _ Harr) as La.
    pose proof (np_take_length _ _ _ Hnext) as Ln.
    pose proof (length_advance arrived next state La Ln) as Ls.
    assert (Ld : length (count_step arrived distance) = length distance)
      by (apply length_count_step; lia).
    assert (Hl2 : length (count_step arrived distance)
                  = length (advance arrived next state)) by lia.
    destruct (IH _ _ _ _ _ Harr2 Hl2 H) as (L1 & L2 & Hu & Hk).
    rewrite Ls in *.
    split; [exact L1 |]. split; [exact L2 |]. split; [exact Hu |].
    intros k Hlt Huk.
    assert (Ea : nth k arrived false = true).
    { pose proof (np_take_nth _ _ _ k 0%Z false Harr Hlt) as E.
      rewrite Huk in E. injection E as E. auto. }
    assert (Es : nth k (advance arrived next state) 0%Z = nth k state 0%Z).
    { rewrite nth_advance by auto. rewrite Ea. reflexivity. }
    destruct (Hk k Hlt) as [E1 E2]; [rewrite Es; exact Huk |].
    rewrite E1, E2, Es. rewrite nth_count_step by lia. rewrite Ea. auto.
Qed.

Lemma follow_graph_spec (fuel : nat) (progression frum : list Z)
    (until : list bool) (state : list Z) (distance : list nat) :
  follow_graph fuel progression frum until = Ok (state, distance) ->
  length state = length frum /\ length distance = length frum /\
  (forall k, (k < length frum)%nat ->
     np_index until (nth k state 0%Z) = Ok true) /\
  (forall k, (k < length frum)%nat ->
     np_index until (nth k frum 0%Z) = Ok true ->
     nth k state 0%Z = nth k frum 0%Z /\ nth k distance O = O).
Proof.
  unfold follow_graph. intros H. inv_bind H.
  destruct (follow_loop_spec _ _ _ _ _ _ _ _ Ha (repeat_length O (length frum)) H)
    as (L1 & L2 & Hu & Hk).
  split; [exact L1 |]. split; [exact L2 |]. split; [exact Hu |].
  intros k Hlt Huk. destruct (Hk k Hlt Huk) as [E1 E2].
  split; [exact E1 |]. rewrite E2. apply nth_repeat_lt. exact Hlt.
Qed.

(** ** Interpolation weights *)

Lemma interpolation_weit_convex (da db : nat) :
  (0 <= fst (interpolation_weit da db) /\ 0 <= snd (interpolation_weit da db)
   /\ fst (interpolation_weit da db) + snd (interpolation_weit da db) = 1)%R.
Proof.
  unfold interpolation_weit. simpl.
  destruct (Nat.eqb_spec (da + db) 0) as [E | E].
  - lra.
  - assert (Hpos : (0 < INR (da + db))%R) by (apply lt_0_INR; lia).
    assert (Hb : (0 <= INR db)%R) by apply pos_INR.
    assert (Hle : (INR db <= INR (da + db))%R) by (apply le_INR; lia).
    assert (H0 : (0 <= INR db / INR (da + db))%R).
    { apply Rmult_le_pos; [exact Hb |]. left. apply Rinv_0_lt_compat, Hpos. }
    assert (H1 : (INR db / INR (da + db) <= 1)%R).
    { apply (Rmult_le_reg_r (INR (da + db))); [exact Hpos |].
      unfold Rdiv. rewrite Rmult_assoc, Rinv_l by lra. lra. }
    lra.
Qed.

Lemma get_interpolation_weits_spec (distance_a distance_b : list nat)
    (weits_a weits_b : list R) :
  get_interpolation_weits distance_a distance_b = Ok (weits_a, weits_b) ->
  length distance_b = length distance_a /\
  length weits_a = length distance_a /\ length weits_b = length distance_a /\
  forall k, (k < length distance_a)%nat ->
    nth k weits_a 0%R
      = fst (interpolation_weit (nth k distance_a O) (nth k distance_b O)) /\
    nth k weits_b 0%R
      = snd (interpolation_weit (nth k distance_a O) (nth k distance_b O)).
Proof.
  revert distance_b weits_a weits_b.
  induction distance_a as [| da distance_a IH]; intros [| db distance_b] wa wb H;
    cbn [get_interpolation_weits] in H; try discriminate.
  - injection H as <- <-. simpl. repeat split; intros; lia.
  - inv_bind H. destruct a as [wa' wb']. cbn beta iota in H.
    destruct (interpolation_weit da db) as [x y] eqn:E.
    injection H as <- <-.
    destruct (IH _ _ _ Ha) as (L0 & L1 & L2 & Hk).
    cbn [length]. split; [lia |]. split; [lia |]. split; [lia |].
    intros [| k] Hlt; cbn [nth].
    + rewrite E. auto.
    + apply Hk. lia.
Qed.

(** ** Re-indexing the key nodes *)

Lemma length_reindex_from (count : Z) (mask : list bool) :
  length (reindex_from count mask) = length mask.
Proof.
  revert count. induction mask as [| [|] mask IH]; simpl; intros count;
    [reflexivity | |]; rewrite IH; reflexivity.
Qed.

Lemma nth_reindex_from (count : Z) (mask : list bool) (k : nat) :
  nth k mask false = true ->
  nth k (reindex_from count mask) (-1)%Z
  = (count + Z.of_nat (count_true (firstn k mask)))%Z.
Proof.
  revert count k. induction mask as [| m mask IH]; intros count [| k] Hk;
    simpl in Hk; try discriminate.
  - subst m. simpl. unfold count_true. simpl. lia.
  - destruct m; simpl; rewrite (IH _ _ Hk); unfold count_true; simpl; lia.
Qed.

Lemma length_select_rows {A : Type} (mask : list bool) (v : list A) :
  length v = length mask -> length (select_rows mask v) = count_true mask.
Proof.
  revert v. induction mask as [| m mask IH]; intros [| x v] H; simpl in *;
    try lia; try reflexivity.
  unfold count_true in *. destruct m; simpl; rewrite IH by lia; reflexivity.
Qed.

Lemma nth_select_rows {A : Type} (mask : list bool) (v : list A) (k : nat) (d : A) :
  length v = length mask -> nth k mask false = true ->
  nth (count_true (firstn k mask)) (select_rows mask v) d = nth k v d.
Proof.
  revert v k. induction mask as [| m mask IH]; intros [| x v] [| k] H Hk;
    simpl in *; try discriminate; try lia.
  - subst m. reflexivity.
  - unfold count_true in *. destruct m; simpl; apply IH; auto; lia.
Qed.

Lemma count_true_firstn (mask : list bool) (k : nat) :
  nth k mask false = true ->
  (count_true (firstn k mask) < count_true mask)%nat.
Proof.
  revert k. induction mask as [| m mask IH]; intros [| k] Hk; simpl in *;
    try discriminate.
  - subst m. unfold count_true. simpl. lia.
  - specialize (IH _ Hk). unfold count_true in *. destruct m; simpl; lia.
Qed.

Lemma max_reindex_from (mask : list bool) (count x : Z) :
  (-1 <= x <= count - 1)%Z ->
  fold_left Z.max (reindex_from count mask) x
  = if Nat.eqb (count_true mask) 0 then x
    else (count + Z.of_nat (count_true mask) - 1)%Z.
Proof.
  revert count x. induction mask as [| m mask IH]; intros count x Hx.
  - reflexivity.
  - destruct m; cbn [reindex_from fold_left].
    + rewrite IH by lia. unfold count_true. cbn [filter length].
      fold (count_true mask).
      destruct (Nat.eqb_spec (count_true mask) 0) as [E | E]; simpl; lia.
    + rewrite IH by lia. unfold count_true. cbn [filter].
      fold (count_true mask).
      destruct (Nat.eqb_spec (count_true mask) 0) as [E | E]; simpl; lia.
Qed.

Lemma np_max_reindex (mask : list bool) (top : Z) :
  np_max (reindex_from 0 mask) = Ok top ->
  (top + 1)%Z = Z.of_nat (count_true mask).
Proof.
  destruct mask as [| [|] mask]; cbn [reindex_from np_max]; intros H;
    try discriminate; injection H as <-.
  - rewrite max_reindex_from by lia. unfold count_true. cbn [filter length].
    fold (count_true mask).
    destruct (Nat.eqb_spec (count_true mask) 0) as [E | E]; lia.
  - rewrite max_reindex_from by lia. unfold count_true. cbn [filter].
    fold (count_true mask).
    destruct (Nat.eqb_spec (count_true mask) 0) as [E | E]; lia.
Qed.

(** ** Loops *)

Lemma fold_bind_not_ok {S : Type} (body : nat -> S -> result S) (l : list nat)
    (acc : result S) (s' : S) :
  fold_left (fun acc i => s <- acc ;; body i s) l acc = Ok s' ->
  exists s, acc = Ok s.
Proof.
  revert acc. induction l as [| i l IH]; simpl; intros acc H.
  - eauto.
  - destruct (IH _ H) as [x Hx]. destruct acc as [s | e |]; simpl in Hx;
      try discriminate. eauto.
Qed.

Lemma for_range_inv {S : Type} (P : S -> Prop) (n : nat)
    (body : nat -> S -> result S) (s s' : S) :
  (forall i x y, P x -> body i x = Ok y -> P y) ->
  P s -> for_range n body s = Ok s' -> P s'.
Proof.
  intros Hbody. unfold for_range. generalize (seq 0 n). intros l.
  revert s. induction l as [| i l IH]; simpl; intros s Hs H.
  - injection H as <-. exact Hs.
  - destruct (fold_bind_not_ok _ _ _ _ H) as [y Hy]. rewrite Hy in H.
    apply (IH y); [| exact H]. eapply Hbody; eassumption.
Qed.

Lemma length_set_nth {A : Type} (k : nat) (x : A) (a : list A) :
  length (set_nth k x a) = length a.
Proof.
  revert k. induction a as [| y a IH]; intros [| k]; simpl; auto.
Qed.

Lemma np_assign_length {A : Type} (a a' : list A) (i : Z) (x : A) :
  np_assign a i x = Ok a' -> length a' = length a.
Proof.
  unfold np_assign. destruct (_ && _)%bool; [| discriminate].
  intros H. injection H as <-. apply length_set_nth.
Qed.

Lemma guarded_assign_length {A : Type} (c : bool) (a a' : list A) (i : Z) (x : A) :
  (if c then np_assign a i x else Ok a) = Ok a' -> length a' = length a.
Proof.
  destruct c; intros H.
  - eapply np_assign_length; eassumption.
  - injection H as <-. reflexivity.
Qed.

Lemma link_neibors_sized (t : lookup_table) (n h i j : nat) (g g' : neibors) :
  neibors_sized n g -> link_neibors t h i j g = Ok g' -> neibors_sized n g'.
Proof.
  intros (He & Hw & Hn & Hs). unfold link_neibors.
  destruct (node_at t h i j =? -1)%Z.
  - intros H. injection H as <-. repeat split; assumption.
  - intros H. inv_bind H. rename a into west, Ha into Hwest.
    inv_bind H. rename a into east, Ha into Heast.
    inv_bind H. rename a into south, Ha into Hsouth.
    inv_bind H. rename a into north, Ha into Hnorth.
    injection H as <-.
    apply guarded_assign_length in Hwest, Heast, Hsouth, Hnorth.
    unfold neibors_sized. simpl. repeat split; congruence.
Qed.

Lemma build_neibors_sized (t : lookup_table) (n : nat) (g : neibors) :
  build_neibors t n = Ok g -> neibors_sized n g.
Proof.
  unfold build_neibors.
  apply for_range_inv.
  - intros h x y Hx. apply for_range_inv; [| exact Hx].
    intros i x1 y1 Hx1. apply for_range_inv; [| exact Hx1].
    intros j x2 y2. apply link_neibors_sized.
  - unfold neibors_sized. simpl. rewrite !repeat_length. auto.
Qed.

Lemma mark_anchors_sized (t : lookup_table) (factor : Z) (n_lat : nat)
    (stride : Z) (h i j : nat) (n : nat) (marks marks' : list bool * list bool) :
  length (fst marks) = S n /\ length (snd marks) = n ->
  mark_anchors t factor n_lat stride h i j marks = Ok marks' ->
  length (fst marks') = S n /\ length (snd marks') = n.
Proof.
  destruct marks as [hdn isd]. simpl. intros [H1 H2]. unfold mark_anchors.
  destruct (node_at t h i j =? -1)%Z.
  - intros H. injection H as <-. auto.
  - intros H. repeat inv_bind H. injection H as <-. simpl.
    match goal with
    | Hx : np_assign hdn _ _ = Ok _, Hy : np_assign isd _ _ = Ok _ |- _ =>
        apply np_assign_length in Hx, Hy; split; congruence
    end.
Qed.

(** ** The skeleton *)

Lemma nth_everyone (n k : nat) :
  (k < n)%nat -> nth k (map Z.of_nat (seq 0 n)) 0%Z = Z.of_nat k.
Proof.
  intros Hk. change 0%Z with (Z.of_nat 0). rewrite map_nth, seq_nth by exact Hk.
  reflexivity.
Qed.

(** A reference that the mask accepts denotes a key node, and re-indexing it
    gives the rank of that node among the key nodes. *)
Lemma key_reference (mask : list bool) (i : Z) :
  np_index mask i = Ok true ->
  exists r, (r < length mask)%nat /\ nth r mask false = true /\
            np_index (reindex_from 0 mask) i
              = Ok (Z.of_nat (count_true (firstn r mask))) /\
            (forall k, (k < length mask)%nat -> i = Z.of_nat k -> r = k).
Proof.
  intros H. rewrite (np_index_by_place mask i false) in H.
  destruct (place (length mask) i) as [r |] eqn:E; [| discriminate].
  injection H as H. exists r.
  split; [exact (place_bound _ _ _ E) |]. split; [exact H |]. split.
  - rewrite (np_index_by_place _ i (-1)%Z), length_reindex_from, E.
    rewrite nth_reindex_from by exact H. reflexivity.
  - intros k Hk ->. rewrite place_nat in E by exact Hk. congruence.
Qed.

Lemma four_weights_convex (n s ne nw se sw : R) :
  (0 <= n -> 0 <= s -> n + s = 1 ->
   0 <= ne -> 0 <= nw -> ne + nw = 1 ->
   0 <= se -> 0 <= sw -> se + sw = 1 ->
   0 <= n * ne /\ 0 <= n * nw /\ 0 <= s * se /\ 0 <= s * sw /\
   n * ne + n * nw + s * se + s * sw = 1)%R.
Proof.
  intros. repeat split; try (apply Rmult_le_pos; assumption).
  replace (n * ne + n * nw + s * se + s * sw)%R
    with (n * (ne + nw) + s * (se + sw))%R by ring.
  replace (ne + nw)%R with 1%R by auto. replace (se + sw)%R with 1%R by auto.
  lra.
Qed.

Lemma mesh_skeleton_strided_rows (fuel : nat) (t : lookup_table) (factor : Z)
    (n_lat : nat) (strides : list Z) (s : skeleton) (reduce restore : operator) :
  mesh_skeleton_strided fuel t factor n_lat strides = Ok (s, (reduce, restore)) ->
  length (sk_is_defined s) = sk_n_full s /\
  reduce = Restriction (sk_n_full s) (sk_is_defined s) /\
  sk_n_partial s = Z.of_nat (count_true (sk_is_defined s)) /\
  exists gathered,
    restore = Gather (count_true (sk_is_defined s)) gathered
                     (sk_defining_weits s) /\
    length gathered = sk_n_full s /\
    length (sk_defining_weits s) = sk_n_full s /\
    forall k, (k < sk_n_full s)%nat ->
      skeleton_row (sk_is_defined s) k (nth k gathered [])
                   (nth k (sk_defining_weits s) []).
Proof.
  unfold mesh_skeleton_strided. intros H.
  inv_bind H. rename a into top, Ha into Htop.
  destruct (top + 1 <? 0)%Z eqn:Hneg; [discriminate |].
  inv_bind H. rename a into g, Ha into Hg.
  inv_bind H. destruct a as [hdn0 isd0]. rename Ha into Hmarks.
  cbn beta iota zeta in H.
  set (n := Z.to_nat (top + 1)) in *.
  set (hdn := zip_with orb (firstn n hdn0)
                (zip_with (fun n s : Z => (n =? -1)%Z || (s =? -1)%Z)
                   (north_neibor g) (south_neibor g)) ++ skipn n hdn0) in *.
  inv_bind H. rename a into east_has, Ha into Heast.
  inv_bind H. rename a into west_has, Ha into Hwest.
  set (isd := zip_with andb
                (zip_with orb isd0
                   (zip_with (fun e w : bool => negb e || negb w) east_has west_has))
                (firstn n hdn)) in *.
  inv_bind H. rename a into top_partial, Ha into Hpartial.
  inv_bind H. destruct a as [n_ref n_dist]. rename Ha into Hn.
  inv_bind H. destruct a as [ne_ref ne_dist]. rename Ha into Hne.
  inv_bind H. destruct a as [nw_ref nw_dist]. rename Ha into Hnw.
  inv_bind H. destruct a as [s_ref s_dist]. rename Ha into Hs.
  inv_bind H. destruct a as [se_ref se_dist]. rename Ha into Hse.
  inv_bind H. destruct a as [sw_ref sw_dist]. rename Ha into Hsw.
  inv_bind H. destruct a as [n_weit s_weit]. rename Ha into Hnweit.
  inv_bind H. destruct a as [ne_weit nw_weit]. rename Ha into Hneweit.
  inv_bind H. destruct a as [se_weit sw_weit]. rename Ha into Hseweit.
  inv_bind H. rename a into gathered, Ha into Hgathered.
  injection H as <- <- <-. cbn [sk_n_full sk_is_defined sk_n_partial
                                sk_defining_weits].
  (* sizes *)
  destruct (build_neibors_sized _ _ _ Hg) as (Le & Lw & Ln & Ls).
  assert (Lmarks : length hdn0 = S n /\ length isd0 = n).
  { pose (P := fun m : list bool * list bool =>
                 length (fst m) = S n /\ length (snd m) = n).
    change (P (hdn0, isd0)). revert Hmarks. apply (for_range_inv P).
    - intros h x y Hx. apply (for_range_inv P); [| exact Hx].
      intros i x1 y1 Hx1 Hb. inv_bind Hb. revert Hb.
      apply (for_range_inv P); [| exact Hx1].
      intros j x2 y2. apply mark_anchors_sized.
    - unfold P. simpl. rewrite !repeat_length. lia. }
  destruct Lmarks as [Lh0 Li0].
  assert (Lhdn : length hdn = S n).
  { unfold hdn. rewrite length_app, !length_zip_with, length_firstn, length_skipn.
    lia. }
  pose proof (np_take_length _ _ _ Heast) as Leh.
  pose proof (np_take_length _ _ _ Hwest) as Lwh.
  assert (Lisd : length isd = n).
  { unfold isd. rewrite !length_zip_with, length_firstn. lia. }
  assert (Lev : length (map Z.of_nat (seq 0 n)) = n)
    by (rewrite length_map, length_seq; reflexivity).
  destruct (follow_graph_spec _ _ _ _ _ _ Hn) as (Ln1 & Ln2 & Hnu & Hnk).
  destruct (follow_graph_spec _ _ _ _ _ _ Hne) as (Lne1 & Lne2 & Hneu & Hnek).
  destruct (follow_graph_spec _ _ _ _ _ _ Hnw) as (Lnw1 & Lnw2 & Hnwu & Hnwk).
  destruct (follow_graph_spec _ _ _ _ _ _ Hs) as (Ls1 & Ls2 & Hsu & Hsk).
  destruct (follow_graph_spec _ _ _ _ _ _ Hse) as (Lse1 & Lse2 & Hseu & Hsek).
  destruct (follow_graph_spec _ _ _ _ _ _ Hsw) as (Lsw1 & Lsw2 & Hswu & Hswk).
  rewrite Lev in *. rewrite Ln1 in *. rewrite Ls1 in *.
  destruct (get_interpolation_weits_spec _ _ _ _ Hnweit) as (_ & Wn1 & Wn2 & Wn).
  destruct (get_interpolation_weits_spec _ _ _ _ Hneweit) as (_ & Wne1 & Wne2 & Wne).
  destruct (get_interpolation_weits_spec _ _ _ _ Hseweit) as (_ & Wse1 & Wse2 & Wse).
  rewrite Ln2 in *. rewrite Lne2 in *. rewrite Lse2 in *.
  split; [exact Lisd |]. split; [reflexivity |].
  pose proof (np_max_reindex _ _ Hpartial) as Hcount.
  split; [exact Hcount |].
  exists gathered. rewrite Hcount, Nat2Z.id.
  split; [reflexivity |].
  pose proof (mapM_ok _ _ _ Hgathered) as Hrows.
  pose proof (Forall2_length Hrows) as Lg.
  rewrite !length_zip_with in Lg.
  split; [lia |]. split; [rewrite !length_zip_with; lia |].
  intros k Hk.
  (* the four references and their weights *)
  set (idx := zip_with (fun ne r => ne :: r) ne_ref
                (zip_with (fun nw r => nw :: r) nw_ref
                   (zip_with (fun se sw => [se; sw]) se_ref sw_ref))) in *.
  assert (Eidx : nth k idx []
                 = [nth k ne_ref 0%Z; nth k nw_ref 0%Z;
                    nth k se_ref 0%Z; nth k sw_ref 0%Z]).
  { unfold idx.
    rewrite (nth_zip_with _ _ _ k 0%Z [] []) by (rewrite ?length_zip_with; lia).
    rewrite (nth_zip_with _ _ _ k 0%Z [] []) by (rewrite ?length_zip_with; lia).
    rewrite (nth_zip_with _ _ _ k 0%Z 0%Z []) by lia.
    reflexivity. }
  assert (Hrow : np_take (reindex_from 0 isd) (nth k idx []) = Ok (nth k gathered [])).
  { apply (Forall2_nth (fun a b => np_take (reindex_from 0 isd) a = Ok b)
             _ _ k [] [] Hrows).
    unfold idx. rewrite !length_zip_with. lia. }
  rewrite Eidx in Hrow.
  destruct (key_reference isd _ (Hneu k Hk)) as (r1 & R1a & R1b & R1c & R1d).
  destruct (key_reference isd _ (Hnwu k Hk)) as (r2 & R2a & R2b & R2c & R2d).
  destruct (key_reference isd _ (Hseu k Hk)) as (r3 & R3a & R3b & R3c & R3d).
  destruct (key_reference isd _ (Hswu k Hk)) as (r4 & R4a & R4b & R4c & R4d).
  unfold np_take in Hrow. cbn [mapM] in Hrow.
  rewrite R1c, R2c, R3c, R4c in Hrow. cbn [bind] in Hrow.
  injection Hrow as Hrow.
  destruct (Wn k Hk) as [En Es]. destruct (Wne k Hk) as [Ene Enw].
  destruct (Wse k Hk) as [Ese Esw].
  pose proof (interpolation_weit_convex (nth k n_dist O) (nth k s_dist O))
    as (Cn1 & Cn2 & Cn3).
  pose proof (interpolation_weit_convex (nth k ne_dist O) (nth k nw_dist O))
    as (Cne1 & Cne2 & Cne3).
  pose proof (interpolation_weit_convex (nth k se_dist O) (nth k sw_dist O))
    as (Cse1 & Cse2 & Cse3).
  rewrite <- En, <- Es in *. rewrite <- Ene, <- Enw in *.
  rewrite <- Ese, <- Esw in *.
  exists r1, r2, r3, r4,
    (nth k n_weit 0 * nth k ne_weit 0)%R, (nth k n_weit 0 * nth k nw_weit 0)%R,
    (nth k s_weit 0 * nth k se_weit 0)%R, (nth k s_weit 0 * nth k sw_weit 0)%R.
  split; [symmetry; exact Hrow |]. split.
  { rewrite (nth_zip_with _ _ _ k 0%R [] [])
      by (rewrite ?length_zip_with; lia).
    rewrite (nth_zip_with _ _ _ k 0%R [] [])
      by (rewrite ?length_zip_with; lia).
    rewrite (nth_zip_with _ _ _ k 0%R 0%R [])
      by (rewrite ?length_zip_with; lia).
    rewrite !(nth_zip_with Rmult _ _ k 0%R 0%R 0%R) by lia.
    reflexivity. }
  split; [auto |]. split; [auto |]. split; [auto |]. split; [auto |].
  split; [apply four_weights_convex; assumption |].
  (* a key node refers to itself *)
  intros Hkey.
  assert (Hh : nth k hdn false = true).
  { unfold isd in Hkey.
    rewrite (nth_zip_with andb _ _ k false false false) in Hkey
      by (rewrite ?length_zip_with, ?length_firstn; lia).
    apply andb_true_iff in Hkey. destruct Hkey as [_ Hkey].
    rewrite nth_firstn in Hkey.
    destruct (Nat.ltb_spec k n); [exact Hkey | discriminate]. }
  assert (Ek : forall l : list Z, nth k l 0%Z = Z.of_nat k ->
               np_index isd (nth k l 0%Z) = Ok true).
  { intros l ->. rewrite (np_index_nat isd k false) by lia. rewrite Hkey.
    reflexivity. }
  assert (Eh : np_index hdn (nth k (map Z.of_nat (seq 0 n)) 0%Z) = Ok true).
  { rewrite nth_everyone by exact Hk.
    rewrite (np_index_nat hdn k false) by lia. rewrite Hh. reflexivity. }
  destruct (Hnk k Hk Eh) as [En0 _]. rewrite nth_everyone in En0 by exact Hk.
  destruct (Hsk k Hk Eh) as [Es0 _]. rewrite nth_everyone in Es0 by exact Hk.
  destruct (Hnek k Hk (Ek _ En0)) as [Ene0 _].
  destruct (Hnwk k Hk (Ek _ En0)) as [Enw0 _].
  destruct (Hsek k Hk (Ek _ Es0)) as [Ese0 _].
  destruct (Hswk k Hk (Ek _ Es0)) as [Esw0 _].
  rewrite Lisd in *.
  repeat split.
  - apply R1d; [exact Hk | congruence].
  - apply R2d; [exact Hk | congruence].
  - apply R3d; [exact Hk | congruence].
  - apply R4d; [exact Hk | congruence].
Qed.

(** ** Reduction followed by restoration *)

Lemma gather_row_four (v : list point) (a1 a2 a3 a4 : nat) (w1 w2 w3 w4 : R) :
  (a1 < length v)%nat -> (a2 < length v)%nat ->
  (a3 < length v)%nat -> (a4 < length v)%nat ->
  gather_row v (map Z.of_nat [a1; a2; a3; a4]) [w1; w2; w3; w4]
  = Ok (combine4 w1 w2 w3 w4 (nth a1 v origin) (nth a2 v origin)
                 (nth a3 v origin) (nth a4 v origin)).
Proof.
  intros H1 H2 H3 H4. cbn [map gather_row].
  assert (R : forall a, (a < length v)%nat ->
            ((0 <=? Z.of_nat a) && (Z.of_nat a <? Z.of_nat (length v)))%Z = true).
  { intros a Ha. apply andb_true_iff. split; [apply Z.leb_le | apply Z.ltb_lt]; lia. }
  rewrite !R by assumption.
  rewrite !(np_index_nat v _ origin) by assumption.
  reflexivity.
Qed.

Lemma gather_rows_spec (v : list point) (indices : list (list Z))
    (weights : list (list R)) :
  length weights = length indices ->
  (forall k, (k < length indices)%nat ->
     exists p, gather_row v (nth k indices []) (nth k weights []) = Ok p) ->
  exists restored,
    gather_rows v indices weights = Ok restored /\
    length restored = length indices /\
    forall k, (k < length indices)%nat ->
      gather_row v (nth k indices []) (nth k weights [])
        = Ok (nth k restored origin).
Proof.
  revert weights. induction indices as [| idx indices IH];
    intros [| w weights] Hlen Hrows; simpl in Hlen; try lia.
  - exists []. simpl. repeat split; auto. intros; lia.
  - destruct (Hrows O) as [p Hp]; [simpl; lia |]. simpl in Hp.
    destruct (IH weights) as (rest & Hrest & Lrest & Hk); [lia | |].
    { intros k Hk. apply (Hrows (S k)). simpl. lia. }
    exists (p :: rest). cbn [gather_rows]. rewrite Hp, Hrest. simpl.
    split; [reflexivity |]. split; [lia |].
    intros [| k] Hlt; [exact Hp | apply Hk; lia].
Qed.

Lemma combine4_same (w1 w2 w3 w4 : R) (p : point) :
  (w1 + w2 + w3 + w4 = 1)%R -> combine4 w1 w2 w3 w4 p p p p = p.
Proof.
  intros H. destruct p as [x y]. unfold combine4, add_point, scale_point, origin.
  simpl. f_equal.
  - replace (w1 * x + (w2 * x + (w3 * x + (w4 * x + 0))))%R
      with ((w1 + w2 + w3 + w4) * x)%R by ring.
    rewrite H. ring.
  - replace (w1 * y + (w2 * y + (w3 * y + (w4 * y + 0))))%R
      with ((w1 + w2 + w3 + w4) * y)%R by ring.
    rewrite H. ring.
Qed.

Lemma skeleton_restores (fuel : nat) (t : lookup_table) (factor : Z)
    (n_lat : nat) (strides : list Z) (s : skeleton) (reduce restore : operator)
    (positions : list point) :
  mesh_skeleton_strided fuel t factor n_lat strides = Ok (s, (reduce, restore)) ->
  length positions = sk_n_full s ->
  exists restored,
    matmul reduce positions = Ok (select_rows (sk_is_defined s) positions) /\
    matmul restore (select_rows (sk_is_defined s) positions) = Ok restored /\
    length restored = sk_n_full s /\
    forall k, (k < sk_n_full s)%nat ->
      (nth k (sk_is_defined s) false = true ->
       nth k restored origin = nth k positions origin) /\
      exists r1 r2 r3 r4 w1 w2 w3 w4,
        ((r1 < sk_n_full s)%nat /\ nth r1 (sk_is_defined s) false = true) /\
        ((r2 < sk_n_full s)%nat /\ nth r2 (sk_is_defined s) false = true) /\
        ((r3 < sk_n_full s)%nat /\ nth r3 (sk_is_defined s) false = true) /\
        ((r4 < sk_n_full s)%nat /\ nth r4 (sk_is_defined s) false = true) /\
        (0 <= w1 /\ 0 <= w2 /\ 0 <= w3 /\ 0 <= w4 /\ w1 + w2 + w3 + w4 = 1)%R /\
        nth k (sk_defining_weits s) [] = [w1; w2; w3; w4] /\
        nth k restored origin
          = combine4 w1 w2 w3 w4 (nth r1 positions origin)
              (nth r2 positions origin) (nth r3 positions origin)
              (nth r4 positions origin).
Proof.
  intros H Hpos.
  destruct (mesh_skeleton_strided_rows _ _ _ _ _ _ _ _ H)
    as (Lmask & -> & _ & gathered & -> & Lg & Lw & Hrows).
  set (mask := sk_is_defined s) in *. set (n := sk_n_full s) in *.
  set (v := select_rows mask positions).
  assert (Lv : length v = count_true mask)
    by (apply length_select_rows; lia).
  assert (Hsel : forall r, (r < length mask)%nat -> nth r mask false = true ->
            (count_true (firstn r mask) < length v)%nat /\
            nth (count_true (firstn r mask)) v origin = nth r positions origin).
  { intros r Hr Hm. split.
    - rewrite Lv. apply count_true_firstn. exact Hm.
    - apply nth_select_rows; [lia | exact Hm]. }
  assert (Hrow : forall k, (k < n)%nat ->
            exists r1 r2 r3 r4 w1 w2 w3 w4,
              ((r1 < n)%nat /\ nth r1 mask false = true) /\
              ((r2 < n)%nat /\ nth r2 mask false = true) /\
              ((r3 < n)%nat /\ nth r3 mask false = true) /\
              ((r4 < n)%nat /\ nth r4 mask false = true) /\
              (0 <= w1 /\ 0 <= w2 /\ 0 <= w3 /\ 0 <= w4
               /\ w1 + w2 + w3 + w4 = 1)%R /\
              nth k (sk_defining_weits s) [] = [w1; w2; w3; w4] /\
              (nth k mask false = true -> r1 = k /\ r2 = k /\ r3 = k /\ r4 = k) /\
              gather_row v (nth k gathered []) (nth k (sk_defining_weits s) [])
                = Ok (combine4 w1 w2 w3 w4 (nth r1 positions origin)
                        (nth r2 positions origin) (nth r3 positions origin)
                        (nth r4 positions origin))).
  { intros k Hk. destruct (Hrows k Hk)
      as (r1 & r2 & r3 & r4 & w1 & w2 & w3 & w4 & Eg & Ew
          & K1 & K2 & K3 & K4 & Hw & Hself).
    exists r1, r2, r3, r4, w1, w2, w3, w4.
    rewrite Lmask in K1, K2, K3, K4.
    repeat (split; [assumption |]).
    rewrite Eg, Ew.
    destruct (Hsel r1) as [B1 E1]; [lia | tauto |].
    destruct (Hsel r2) as [B2 E2]; [lia | tauto |].
    destruct (Hsel r3) as [B3 E3]; [lia | tauto |].
    destruct (Hsel r4) as [B4 E4]; [lia | tauto |].
    rewrite <- E1, <- E2, <- E3, <- E4.
    change (map (fun r => Z.of_nat (count_true (firstn r mask))) [r1; r2; r3; r4])
      with (map Z.of_nat [count_true (firstn r1 mask); count_true (firstn r2 mask);
                          count_true (firstn r3 mask); count_true (firstn r4 mask)]).
    apply gather_row_four; assumption. }
  destruct (gather_rows_spec v gathered (sk_defining_weits s)) as
    (restored & Hres & Lres & Hk).
  { lia. }
  { intros k Hlt. rewrite Lg in Hlt.
    destruct (Hrow k Hlt) as (r1 & r2 & r3 & r4 & w1 & w2 & w3 & w4 & Hx).
    eexists. apply Hx. }
  exists restored. split.
  { unfold matmul. rewrite Hpos, Lmask. fold n. rewrite Nat.eqb_refl. reflexivity. }
  split.
  { unfold matmul. fold v. rewrite Lv, Nat.eqb_refl. exact Hres. }
  split; [lia |].
  intros k Hlt.
  destruct (Hrow k Hlt) as (r1 & r2 & r3 & r4 & w1 & w2 & w3 & w4
                            & K1 & K2 & K3 & K4 & Hw & Ew & Hself & Hg).
  assert (Er : nth k restored origin
               = combine4 w1 w2 w3 w4 (nth r1 positions origin)
                   (nth r2 positions origin) (nth r3 positions origin)
                   (nth r4 positions origin)).
  { rewrite Hk in Hg by lia. injection Hg as Hg. exact Hg. }
  split.
  - intros Hkey. destruct (Hself Hkey) as (-> & -> & -> & ->).
    rewrite Er. apply combine4_same. tauto.
  - exists r1, r2, r3, r4, w1, w2, w3, w4. tauto.
Qed.

(** ** Column strides *)

Lemma round_half_even_near (x : R) (z : Z) :
  (IZR z - 1 / 2 < x < IZR z + 1 / 2)%R -> round_half_even x = z.
Proof.
  intros [Hlo Hhi]. unfold round_half_even.
  destruct (Rle_lt_dec (IZR z) x) as [Hge | Hlt].
  - assert (E : z = Int_part x) by (apply Int_part_spec; lra).
    rewrite <- E.
    assert (Hd : Rltb (x - IZR z) (1 / 2) = true) by (apply Rltb_true; lra).
    rewrite Hd. reflexivity.
  - assert (E : (z - 1)%Z = Int_part x).
    { apply Int_part_spec. rewrite minus_IZR. lra. }
    rewrite <- E. rewrite minus_IZR.
    assert (Hd : Rltb (x - (IZR z - 1)) (1 / 2) = false)
      by (apply Rltb_false; lra).
    assert (Hd' : Rltb (1 / 2) (x - (IZR z - 1)) = true)
      by (apply Rltb_true; lra).
    rewrite Hd, Hd'. lia.
Qed.

Lemma sqrt3_bounds : (8 / 5 < sqrt 3 < 2)%R.
Proof.
  assert (Hlo : (sqrt ((8 / 5) * (8 / 5)) < sqrt 3)%R) by (apply sqrt_lt_1; lra).
  assert (Hhi : (sqrt 3 < sqrt (2 * 2))%R) by (apply sqrt_lt_1; lra).
  rewrite sqrt_square in Hlo, Hhi by lra. lra.
Qed.

Lemma cos_low_latitude (lat : R) :
  (- (PI / 6) <= lat <= PI / 6)%R -> (4 / 5 < cos lat <= 1)%R.
Proof.
  intros [Hlo Hhi]. pose proof PI_RGT_0 as Hpi. pose proof sqrt3_bounds as Hs.
  split; [| apply COS_bound].
  assert (Hc : (sqrt 3 / 2 <= cos lat)%R).
  { rewrite <- cos_PI6. destruct (Rle_lt_dec 0 lat) as [Hp | Hn].
    - apply cos_decr_1; lra.
    - rewrite <- (cos_neg lat). apply cos_decr_1; lra. }
  lra.
Qed.

Lemma stride_two_at_low_latitude (lat : R) :
  (- (PI / 6) <= lat <= PI / 6)%R -> east_west_factor_at 2 lat = 2%Z.
Proof.
  intros H. destruct (cos_low_latitude lat H) as [Hlo Hhi].
  unfold east_west_factor_at. apply round_half_even_near.
  assert (Hinv : (1 <= / cos lat < 5 / 4)%R).
  { split.
    - rewrite <- Rinv_1 at 1. apply Rinv_le_contravar; lra.
    - replace (5 / 4)%R with (/ (4 / 5))%R by field.
      apply Rinv_lt_contravar; [nra | lra]. }
  unfold Rdiv at 1. lra.
Qed.

Lemma stride_four_at_sixty_degrees (lat : R) :
  lat = (PI / 3)%R \/ lat = (- (PI / 3))%R -> east_west_factor_at 2 lat = 4%Z.
Proof.
  intros H. unfold east_west_factor_at. apply round_half_even_near.
  assert (E : cos lat = (1 / 2)%R).
  { destruct H as [-> | ->]; [| rewrite cos_neg]; apply cos_PI3. }
  rewrite E. replace (2 / (1 / 2))%R with 4%R by field. lra.
Qed.

Lemma stride_at_equator (factor : Z) : east_west_factor_at factor 0 = factor.
Proof.
  unfold east_west_factor_at. apply round_half_even_near.
  rewrite cos_0. unfold Rdiv. rewrite Rinv_1. lra.
Qed.

Lemma low_latitudes_strides :
  map (east_west_factor_at 2) low_latitudes = [2; 2; 2; 2; 2]%Z.
Proof.
  pose proof PI_RGT_0 as Hpi. unfold low_latitudes. cbn [map].
  rewrite !stride_two_at_low_latitude by lra. reflexivity.
Qed.

Lemma wide_latitudes_strides :
  map (east_west_factor_at 2) wide_latitudes = [4; 2; 2; 2; 4]%Z.
Proof.
  pose proof PI_RGT_0 as Hpi. unfold wide_latitudes. cbn [map].
  rewrite (stride_four_at_sixty_degrees (PI / 3)) by auto.
  rewrite (stride_four_at_sixty_degrees (- (PI / 3))) by auto.
  rewrite !stride_two_at_low_latitude by lra. reflexivity.
Qed.

(** ** The operator pair of [mesh_skeleton] *)

Lemma mesh_skeleton_inv (fuel : nat) (t : lookup_table) (factor : Z)
    (lat : list R) (reduce restore : operator) :
  mesh_skeleton fuel t factor lat = Ok (reduce, restore) ->
  exists s,
    mesh_skeleton_strided fuel t factor (length lat)
      (map (east_west_factor_at factor) lat) = Ok (s, (reduce, restore)).
Proof.
  unfold mesh_skeleton. intros H. inv_bind H. destruct a as [s ops].
  simpl in H. injection H as ->. exists s. exact Ha.
Qed.

Lemma is_ok_inv {A : Type} (r : result A) : is_ok r = true -> exists a, r = Ok a.
Proof. destruct r; simpl; intros H; try discriminate. eauto. Qed.

Lemma grid5_low_latitudes_ok :
  exists reduce restore,
    mesh_skeleton 10 grid5 2 low_latitudes = Ok (reduce, restore).
Proof.
  assert (H : is_ok (mesh_skeleton_strided 10 grid5 2 5 [2; 2; 2; 2; 2]%Z) = true)
    by (vm_compute; reflexivity).
  apply is_ok_inv in H. destruct H as [[s [reduce restore]] H].
  exists reduce, restore. unfold mesh_skeleton.
  rewrite low_latitudes_strides. change (length low_latitudes) with 5%nat.
  rewrite H. reflexivity.
Qed.

(** ** Enough fuel *)

Lemma follow_loop_more_fuel (fuel fuel' : nat) (progression : list Z)
    (until : list bool) :
  (fuel <= fuel')%nat ->
  forall state distance arrived r,
    follow_loop fuel progression until state distance arrived = Ok r ->
    follow_loop fuel' progression until state distance arrived = Ok r.
Proof.
  revert fuel'. induction fuel as [| fuel IH]; intros fuel' Hle state distance
    arrived r H; cbn [follow_loop] in H.
  - destruct (forallb (fun a => a) arrived) eqn:Hall; [| discriminate].
    destruct fuel'; cbn [follow_loop]; rewrite Hall; exact H.
  - destruct fuel' as [| fuel']; [lia |]. cbn [follow_loop].
    destruct (forallb (fun a => a) arrived); [exact H |].
    inv_bind H. rewrite Ha. cbn [bind].
    destruct (stuck arrived a state); [discriminate |].
    inv_bind H. rewrite Ha0. cbn [bind]. apply IH; [lia | exact H].
Qed.

Lemma follow_graph_more_fuel (fuel fuel' : nat) (progression frum : list Z)
    (until : list bool) (r : list Z * list nat) :
  (fuel <= fuel')%nat ->
  follow_graph fuel progression frum until = Ok r ->
  follow_graph fuel' progression frum until = Ok r.
Proof.
  intros Hle. unfold follow_graph. intros H. inv_bind H. rewrite Ha. cbn [bind].
  eapply follow_loop_more_fuel; eassumption.
Qed.

Lemma mesh_skeleton_strided_more_fuel (fuel fuel' : nat) (t : lookup_table)
    (factor : Z) (n_lat : nat) (strides : list Z)
    (r : skeleton * (operator * operator)) :
  (fuel <= fuel')%nat ->
  mesh_skeleton_strided fuel t factor n_lat strides = Ok r ->
  mesh_skeleton_strided fuel' t factor n_lat strides = Ok r.
Proof.
  intros Hle. unfold mesh_skeleton_strided. intros H.
  inv_bind_as H top Htop. rewrite Htop. cbn [bind].
  destruct (top + 1 <? 0)%Z; [discriminate |].
  inv_bind_as H g Hg. rewrite Hg. cbn [bind].
  inv_bind_as H [hdn0 isd0] Hmarks. rewrite Hmarks. cbn [bind].
  cbn beta iota zeta in *.
  inv_bind_as H east_has Heast. rewrite Heast. cbn [bind].
  inv_bind_as H west_has Hwest. rewrite Hwest. cbn [bind].
  inv_bind_as H top_partial Hpartial. rewrite Hpartial. cbn [bind].
  inv_bind_as H [n_ref n_dist] Hn.
  rewrite (follow_graph_more_fuel _ _ _ _ _ _ Hle Hn). cbn [bind].
  cbn beta iota zeta in *.
  inv_bind_as H [ne_ref ne_dist] Hne.
  rewrite (follow_graph_more_fuel _ _ _ _ _ _ Hle Hne). cbn [bind].
  cbn beta iota zeta in *.
  inv_bind_as H [nw_ref nw_dist] Hnw.
  rewrite (follow_graph_more_fuel _ _ _ _ _ _ Hle Hnw). cbn [bind].
  cbn beta iota zeta in *.
  inv_bind_as H [s_ref s_dist] Hs.
  rewrite (follow_graph_more_fuel _ _ _ _ _ _ Hle Hs). cbn [bind].
  cbn beta iota zeta in *.
  inv_bind_as H [se_ref se_dist] Hse.
  rewrite (follow_graph_more_fuel _ _ _ _ _ _ Hle Hse). cbn [bind].
  cbn beta iota zeta in *.
  inv_bind_as H [sw_ref sw_dist] Hsw.
  rewrite (follow_graph_more_fuel _ _ _ _ _ _ Hle Hsw). cbn [bind].
  cbn beta iota zeta in *.
  exact H.
Qed.

Lemma mesh_skeleton_more_fuel (fuel fuel' : nat) (t : lookup_table)
    (factor : Z) (lat : list R) (r : operator * operator) :
  (fuel <= fuel')%nat ->
  mesh_skeleton fuel t factor lat = Ok r ->
  mesh_skeleton fuel' t factor lat = Ok r.
Proof.
  intros Hle. unfold mesh_skeleton. intros H. inv_bind H.
  rewrite (mesh_skeleton_strided_more_fuel _ _ _ _ _ _ _ Hle Ha). exact H.
Qed.

(** ** Restoring a constant vector *)

Lemma select_rows_repeat {A : Type} (mask : list bool) (p : A) :
  select_rows mask (repeat p (length mask)) = repeat p (count_true mask).
Proof.
  induction mask as [| m mask IH]; [reflexivity |].
  unfold count_true in *. destruct m; simpl; rewrite IH; reflexivity.
Qed.

Lemma restore_constant (fuel : nat) (t : lookup_table) (factor : Z)
    (n_lat : nat) (strides : list Z) (s : skeleton) (reduce restore : operator)
    (p : point) :
  mesh_skeleton_strided fuel t factor n_lat strides = Ok (s, (reduce, restore)) ->
  matmul restore (repeat p (count_true (sk_is_defined s)))
    = Ok (repeat p (sk_n_full s)).
Proof.
  intros H.
  destruct (mesh_skeleton_strided_rows _ _ _ _ _ _ _ _ H) as (Lmask & _).
  destruct (skeleton_restores _ _ _ _ _ _ _ _ (repeat p (sk_n_full s)) H
              (repeat_length p (sk_n_full s)))
    as (restored & _ & Hrestore & Lres & Hk).
  rewrite <- Lmask in Hrestore at 1. rewrite select_rows_repeat in Hrestore.
  rewrite Hrestore. f_equal.
  apply (nth_ext _ _ origin origin); [rewrite repeat_length; exact Lres |].
  intros k Hlt. rewrite Lres in Hlt.
  destruct (Hk k Hlt) as [_ (r1 & r2 & r3 & r4 & w1 & w2 & w3 & w4
                            & K1 & K2 & K3 & K4 & Hw & _ & E)].
  rewrite E. rewrite !nth_repeat_lt by tauto.
  apply combine4_same. tauto.
Qed.

(** ** The five-by-five grid *)

Lemma grid5_stride_two :
  exists s restore,
    mesh_skeleton_strided 1 grid5 2 5 [2; 2; 2; 2; 2]%Z
      = Ok (s, (Restriction 25 every_other_node, restore)) /\
    sk_n_full s = 25%nat /\ sk_is_defined s = every_other_node.
Proof.
  remember (mesh_skeleton_strided 1 grid5 2 5 [2; 2; 2; 2; 2]%Z) as r eqn:E.
  assert (Hc : match r with
               | Ok (s, (reduce, _)) => Some (sk_n_full s, sk_is_defined s, reduce)
               | _ => None
               end = Some (25%nat, every_other_node,
                           Restriction 25 every_other_node))
    by (subst r; vm_compute; reflexivity).
  clear E. destruct r as [[s [reduce restore]] | |]; try discriminate.
  injection Hc as Hn Hmask Hred. exists s, restore. subst reduce. auto.
Qed.

(** C5, refuted as stated.  With rows at 60 and 30 degrees south, the equator,
    and 30 and 60 degrees north, the column stride of the outer rows is 4, and
    [mesh_skeleton] with factor 2 marks seven key nodes on the five-by-five
    grid, not nine. *)
Lemma grid5_wide_latitudes :
  map (east_west_factor_at 2) wide_latitudes = [4; 2; 2; 2; 4]%Z /\
  key_mask (mesh_skeleton 10 grid5 2 wide_latitudes) = Some thinned_outer_rows /\
  count_true thinned_outer_rows = 7%nat.
Proof.
  split; [exact wide_latitudes_strides |]. split; [| reflexivity].
  unfold mesh_skeleton. rewrite wide_latitudes_strides.
  change (length wide_latitudes) with 5%nat.
  vm_compute. reflexivity.
Qed.

(** ** A two-node loop *)

Lemma two_node_loop_spins (fuel : nat) :
  forall distance,
    follow_loop fuel [1; 0]%Z [false; false; false] [0; 1]%Z distance
      [false; false] = OutOfFuel /\
    follow_loop fuel [1; 0]%Z [false; false; false] [1; 0]%Z distance
      [false; false] = OutOfFuel.
Proof.
  induction fuel as [| fuel IH]; intros distance.
  - split; reflexivity.
  - split; cbn [follow_loop forallb andb]; apply IH.
Qed.

Lemma two_node_loop_follow (fuel : nat) :
  follow_graph fuel [1; 0]%Z [0; 1]%Z [false; false; false] = OutOfFuel.
Proof.
  unfold follow_graph.
  change (np_take [false; false; false] [0; 1]%Z) with (Ok [false; false]).
  cbn [bind]. apply two_node_loop_spins.
Qed.

Lemma loop_table_spins (fuel : nat) :
  mesh_skeleton_strided fuel loop_table 3 5 [3; 3; 3; 3; 3]%Z = OutOfFuel.
Proof.
  unfold mesh_skeleton_strided.
  change (np_max (table_entries loop_table)) with (Ok 1%Z).
  cbn [bind]. change (1 + 1 <? 0)%Z with false. cbv iota.
  change (Z.to_nat (1 + 1)) with 2%nat.
  replace (build_neibors loop_table 2)
    with (Ok {| east_neibor := [-1; -1]%Z; west_neibor := [-1; -1]%Z;
                north_neibor := [1; 0]%Z; south_neibor := [1; 0]%Z |})
    by (vm_compute; reflexivity).
  cbn [bind].
  match goal with
  | |- context [for_range ?n ?f ?x] =>
    replace (for_range n f x)
      with (Ok ([false; false; false], [true; true]))
      by (vm_compute; reflexivity)
  end.
  cbn [bind north_neibor south_neibor east_neibor west_neibor].
  match goal with
  | |- context [np_take ?a [-1; -1]%Z] =>
    replace (np_take a [-1; -1]%Z) with (Ok [false; false])
      by (vm_compute; reflexivity)
  end.
  cbn [bind].
  match goal with
  | |- context [np_max ?a] =>
    replace (np_max a) with (Ok (-1)%Z) by (vm_compute; reflexivity)
  end.
  cbn [bind].
  match goal with
  | |- context [follow_graph fuel [1; 0]%Z ?frum ?until] =>
    change (follow_graph fuel [1; 0]%Z frum until)
      with (follow_graph fuel [1; 0]%Z [0; 1]%Z [false; false; false])
  end.
  rewrite two_node_loop_follow. reflexivity.
Qed.

(** C2, on the code.  On [loop_table] the north neighbor of node 0 is node 1
    and the north neighbor of node 1 is node 0, and neither reaches a row
    anchor.  Whatever the fuel, [mesh_skeleton] neither raises nor returns:
    the walk goes round the loop for ever. *)
Theorem two_node_loop_never_raises (fuel : nat) :
  mesh_skeleton fuel loop_table 3 [0; 0; 0; 0; 0]%R = OutOfFuel.
Proof.
  unfold mesh_skeleton. cbn [map length]. rewrite stride_at_equator.
  rewrite loop_table_spins. reflexivity.
Qed.

(** ** Loops as passes over a list *)

Lemma fold_bind_raise {S X : Type} (step : X -> S -> result S) (l : list X)
    (e : exn) :
  fold_left (fun acc x => s' <- acc ;; step x s') l (Raise e) = Raise e.
Proof. induction l as [| x l IH]; simpl; auto. Qed.

Lemma fold_bind_out_of_fuel {S X : Type} (step : X -> S -> result S)
    (l : list X) :
  fold_left (fun acc x => s' <- acc ;; step x s') l OutOfFuel = OutOfFuel.
Proof. induction l as [| x l IH]; simpl; auto. Qed.

Lemma foldM_cons {S X : Type} (step : X -> S -> result S) (x : X) (l : list X)
    (s : S) :
  foldM step (x :: l) s = (s' <- step x s ;; foldM step l s').
Proof.
  unfold foldM. simpl. destruct (step x s); simpl.
  - reflexivity.
  - apply fold_bind_raise.
  - apply fold_bind_out_of_fuel.
Qed.

Lemma foldM_app {S X : Type} (step : X -> S -> result S) (l1 l2 : list X)
    (s : S) :
  foldM step (l1 ++ l2) s = (s' <- foldM step l1 s ;; foldM step l2 s').
Proof.
  revert s. induction l1 as [| x l1 IH]; intros s.
  - reflexivity.
  - simpl app. rewrite !foldM_cons. destruct (step x s); simpl; auto.
Qed.

Lemma for_range_foldM {S : Type} (n : nat) (body : nat -> S -> result S) (s : S) :
  for_range n body s = foldM body (seq 0 n) s.
Proof. reflexivity. Qed.

Lemma foldM_ext {S X : Type} (step step' : X -> S -> result S) (l : list X)
    (s : S) :
  (forall x s, In x l -> step x s = step' x s) ->
  foldM step l s = foldM step' l s.
Proof.
  revert s. induction l as [| x l IH]; intros s H; [reflexivity |].
  rewrite !foldM_cons. rewrite (H x s) by (left; reflexivity).
  destruct (step' x s); simpl; auto.
  apply IH. intros y s' Hy. apply H. right. exact Hy.
Qed.

Lemma foldM_nested {S X Y : Type} (step : X -> Y -> S -> result S)
    (f : X -> list Y) (l : list X) (s : S) :
  foldM (fun x => foldM (step x) (f x)) l s
  = foldM (fun p => step (fst p) (snd p))
          (flat_map (fun x => map (pair x) (f x)) l) s.
Proof.
  revert s. induction l as [| x l IH]; intros s; [reflexivity |].
  simpl flat_map. rewrite foldM_cons, foldM_app.
  assert (E : forall s0, foldM (step x) (f x) s0
              = foldM (fun p => step (fst p) (snd p)) (map (pair x) (f x)) s0).
  { generalize (f x). intros ys. induction ys as [| y ys IHy]; intros s0;
      [reflexivity |].
    simpl map. rewrite !foldM_cons. simpl.
    destruct (step x y s0); simpl; auto. }
  rewrite E. destruct (foldM _ (map (pair x) (f x)) s); simpl; auto.
Qed.

(** A pass in which every step settles its own place and leaves the other
    places as they are settles every place. *)
Lemma foldM_pointwise {S X : Type} (step : X -> S -> result S)
    (Good : S -> Prop) (Pending Done : X -> S -> Prop) (all : list X) :
  NoDup all ->
  (forall x s, In x all -> Good s -> Pending x s ->
     exists s', step x s = Ok s' /\ Good s' /\ Done x s' /\
       forall y, In y all -> y <> x ->
         (Pending y s -> Pending y s') /\ (Done y s -> Done y s')) ->
  forall s, Good s -> (forall x, In x all -> Pending x s) ->
    exists s', foldM step all s = Ok s' /\ Good s' /\
               forall x, In x all -> Done x s'.
Proof.
  intros Hnd Hstep.
  assert (H : forall rest done, all = done ++ rest ->
            forall s, Good s -> (forall x, In x rest -> Pending x s) ->
              (forall y, In y done -> Done y s) ->
              exists s', foldM step rest s = Ok s' /\ Good s' /\
                         forall x, In x all -> Done x s').
  { induction rest as [| x rest IH]; intros done Hall s Hgood Hpend Hdone.
    - exists s. rewrite app_nil_r in Hall. subst done. auto.
    - assert (Hx : In x all) by (rewrite Hall; apply in_elt).
      destruct (Hstep x s Hx Hgood (Hpend x (or_introl eq_refl)))
        as (s' & Es & Hgood' & Hdx & Hframe).
      assert (Hsplit : all = (done ++ [x]) ++ rest)
        by (rewrite <- app_assoc; exact Hall).
      rewrite Hall in Hnd. apply NoDup_remove_2 in Hnd.
      destruct (IH (done ++ [x]) Hsplit s' Hgood') as (s'' & E & G & D).
      + intros y Hy. apply Hframe.
        * rewrite Hall. apply in_or_app. right. right. exact Hy.
        * intros ->. apply Hnd. apply in_or_app. auto.
        * apply Hpend. right. exact Hy.
      + intros y Hy. apply in_app_or in Hy. destruct Hy as [Hy | [<- | []]].
        * apply Hframe.
          -- rewrite Hall. apply in_or_app. auto.
          -- intros ->. apply Hnd. apply in_or_app. auto.
          -- apply Hdone. exact Hy.
        * exact Hdx.
      + exists s''. rewrite foldM_cons, Es. simpl. auto. }
  intros s Hgood Hpend. apply (H all [] eq_refl s Hgood Hpend).
  intros y [].
Qed.

(** ** The neighbor arrays of a well-numbered table *)

Lemma in_pairs {A B : Type} (la : list A) (f : A -> list B) (a : A) (b : B) :
  In (a, b) (flat_map (fun x => map (pair x) (f x)) la) <-> In a la /\ In b (f a).
Proof.
  rewrite in_flat_map. split.
  - intros (x & Hx & H). apply in_map_iff in H. destruct H as (y & E & Hy).
    injection E as -> ->. auto.
  - intros [Ha Hb]. exists a. split; [exact Ha |]. apply in_map. exact Hb.
Qed.

Lemma NoDup_pairs {A B : Type} (la : list A) (f : A -> list B) :
  NoDup la -> (forall a, In a la -> NoDup (f a)) ->
  NoDup (flat_map (fun x => map (pair x) (f x)) la).
Proof.
  induction 1 as [| a la Ha Hla IH]; intros Hf; simpl; [constructor |].
  apply NoDup_app.
  - apply Finite.Injective_map_NoDup; [| apply Hf; left; reflexivity].
    intros y y' E. injection E as ->. reflexivity.
  - apply IH. intros x Hx. apply Hf. right. exact Hx.
  - intros [x y] H1 H2. apply in_map_iff in H1. destruct H1 as (y' & E & _).
    injection E as <- <-. apply in_pairs in H2. destruct H2 as [H2 _].
    contradiction.
Qed.

Lemma in_places (t : lookup_table) (h i j : nat) :
  In (h, (i, j)) (places t) <->
  (h < n_sections t)%nat /\ (i < n_rows t)%nat /\ (j < n_cols t)%nat.
Proof.
  unfold places. rewrite in_flat_map. split.
  - intros (x & Hx & H). apply in_map_iff in H. destruct H as (p & E & Hp).
    injection E as -> ->.
    change (In (i, j) (flat_map (fun i => map (pair i) ((fun _ => seq 0 (n_cols t)) i))
                                (seq 0 (n_rows t)))) in Hp.
    apply in_pairs in Hp. rewrite !in_seq in *. lia.
  - intros (Hh & Hi & Hj). exists h. split; [apply in_seq; lia |].
    apply in_map.
    change (In (i, j) (flat_map (fun i => map (pair i) ((fun _ => seq 0 (n_cols t)) i))
                                (seq 0 (n_rows t)))).
    apply in_pairs. rewrite !in_seq. lia.
Qed.

Lemma NoDup_places (t : lookup_table) : NoDup (places t).
Proof.
  unfold places.
  apply (NoDup_pairs (seq 0 (n_sections t))
           (fun _ => flat_map (fun i => map (pair i) (seq 0 (n_cols t)))
                              (seq 0 (n_rows t)))).
  - apply seq_NoDup.
  - intros _ _.
    apply (NoDup_pairs (seq 0 (n_rows t)) (fun _ => seq 0 (n_cols t))).
    + apply seq_NoDup.
    + intros _ _. apply seq_NoDup.
Qed.

Lemma nested_loops_places {S : Type} (t : lookup_table)
    (body : nat -> nat -> nat -> S -> result S) (s : S) :
  for_range (n_sections t) (fun h =>
    for_range (n_rows t) (fun i =>
      for_range (n_cols t) (fun j => body h i j))) s
  = foldM (fun x => body (fst x) (fst (snd x)) (snd (snd x))) (places t) s.
Proof.
  pose (rows := flat_map (fun i => map (pair i) (seq 0 (n_cols t)))
                         (seq 0 (n_rows t))).
  transitivity
    (foldM (fun h => foldM (fun p => body h (fst p) (snd p)) ((fun _ => rows) h))
           (seq 0 (n_sections t)) s).
  - rewrite for_range_foldM. apply foldM_ext. intros h s0 _.
    change (foldM (fun i => foldM (fun j => body h i j)
                               ((fun _ => seq 0 (n_cols t)) i))
                  (seq 0 (n_rows t)) s0
            = foldM (fun p => body h (fst p) (snd p)) rows s0).
    rewrite (foldM_nested (fun i j => body h i j) (fun _ => seq 0 (n_cols t))).
    reflexivity.
  - rewrite (foldM_nested (fun h p => body h (fst p) (snd p)) (fun _ => rows)).
    reflexivity.
Qed.

Lemma nth_set_nth_same {A : Type} (k : nat) (x d : A) (a : list A) :
  (k < length a)%nat -> nth k (set_nth k x a) d = x.
Proof.
  revert k. induction a as [| y a IH]; intros [| k] Hk; simpl in *; try lia;
    [reflexivity | apply IH; lia].
Qed.

Lemma nth_set_nth_other {A : Type} (k k' : nat) (x d : A) (a : list A) :
  k' <> k -> nth k' (set_nth k x a) d = nth k' a d.
Proof.
  revert k k'. induction a as [| y a IH]; intros [| k] [| k'] Hk; simpl;
    try reflexivity; try lia.
  apply IH. lia.
Qed.

Lemma np_assign_at {A : Type} (a : list A) (i : Z) (x d : A) :
  (0 <= i < Z.of_nat (length a))%Z ->
  exists a', np_assign a i x = Ok a' /\ length a' = length a /\
             nth (Z.to_nat i) a' d = x /\
             forall k, k <> Z.to_nat i -> nth k a' d = nth k a d.
Proof.
  intros Hi. unfold np_assign.
  destruct (Z.ltb_spec i 0); [lia |].
  destruct (Z.leb_spec 0 i); [| lia].
  destruct (Z.ltb_spec i (Z.of_nat (length a))); [| lia].
  simpl. eexists. split; [reflexivity |].
  split; [apply length_set_nth |]. split.
  - apply nth_set_nth_same. lia.
  - intros k Hk. apply nth_set_nth_other. exact Hk.
Qed.

Lemma guarded_assign_at {A : Type} (c : bool) (a : list A) (i : Z) (x d : A) :
  (0 <= i < Z.of_nat (length a))%Z ->
  exists a', (if c then np_assign a i x else Ok a) = Ok a' /\
             length a' = length a /\
             nth (Z.to_nat i) a' d = (if c then x else nth (Z.to_nat i) a d) /\
             forall k, k <> Z.to_nat i -> nth k a' d = nth k a d.
Proof.
  intros Hi. destruct c.
  - apply np_assign_at. exact Hi.
  - exists a. auto.
Qed.

Lemma np_index_at {A : Type} (a : list A) (i : Z) (d : A) :
  (0 <= i < Z.of_nat (length a))%Z -> np_index a i = Ok (nth (Z.to_nat i) a d).
Proof.
  intros Hi. rewrite <- (Z2Nat.id i) at 1 by lia.
  apply np_index_nat. lia.
Qed.

Lemma guard_value (c : bool) (v : Z) :
  (if c && negb (v =? -1)%Z then v else (-1)%Z) = (if c then v else (-1)%Z).
Proof.
  destruct c; simpl; [| reflexivity].
  destruct (Z.eqb_spec v (-1)); simpl; congruence.
Qed.

Lemma link_at_step (t : lookup_table) (n : nat) (x : nat * (nat * nat))
    (g : neibors) :
  well_numbered t n -> In x (places t) ->
  neibors_sized n g -> neibors_blank_at (Z.to_nat (node_of t x)) g ->
  exists g', link_at t x g = Ok g' /\ neibors_sized n g' /\
    neibors_linked_at t x g' /\
    forall k, k <> Z.to_nat (node_of t x) ->
      nth k (west_neibor g') 0%Z = nth k (west_neibor g) 0%Z /\
      nth k (east_neibor g') 0%Z = nth k (east_neibor g) 0%Z /\
      nth k (south_neibor g') 0%Z = nth k (south_neibor g) 0%Z /\
      nth k (north_neibor g') 0%Z = nth k (north_neibor g) 0%Z.
Proof.
  intros [Hrange _] Hx (Le & Lw & Ln & Ls) (Bw & Be & Bs & Bn).
  specialize (Hrange x Hx). destruct x as [h [i j]].
  unfold link_at, link_neibors, neibors_linked_at, node_of in *.
  cbn [fst snd] in *.
  set (k := node_at t h i j) in *.
  destruct (Z.eqb_spec k (-1)) as [E | _]; [lia |].
  destruct (guarded_assign_at
              ((1 <=? j)%nat && negb (node_at t h i (j - 1) =? -1)%Z)
              (west_neibor g) k (node_at t h i (j - 1)) 0%Z)
    as (w' & -> & Lw' & Ew & Fw); [lia |].
  destruct (guarded_assign_at
              ((j + 1 <? n_cols t)%nat && negb (node_at t h i (j + 1) =? -1)%Z)
              (east_neibor g) k (node_at t h i (j + 1)) 0%Z)
    as (e' & -> & Le' & Ee & Fe); [lia |].
  destruct (guarded_assign_at
              ((1 <=? i)%nat && negb (node_at t h (i - 1) j =? -1)%Z)
              (south_neibor g) k (node_at t h (i - 1) j) 0%Z)
    as (s' & -> & Ls' & Es & Fs); [lia |].
  destruct (guarded_assign_at
              ((i + 1 <? n_rows t)%nat && negb (node_at t h (i + 1) j =? -1)%Z)
              (north_neibor g) k (node_at t h (i + 1) j) 0%Z)
    as (n' & -> & Ln' & En & Fn); [lia |].
  cbn [bind]. eexists. split; [reflexivity |].
  unfold neibors_sized. cbn [east_neibor west_neibor north_neibor south_neibor].
  split; [repeat split; congruence |]. split.
  - rewrite Ew, Ee, Es, En, Bw, Be, Bs, Bn.
    unfold west_of, east_of, south_of, north_of.
    rewrite !guard_value. auto.
  - intros k' Hk'. auto.
Qed.

Lemma build_neibors_linked (t : lookup_table) (n : nat) :
  well_numbered t n ->
  exists g, build_neibors t n = Ok g /\ neibors_sized n g /\
            forall x, In x (places t) -> neibors_linked_at t x g.
Proof.
  intros Hwn. unfold build_neibors.
  rewrite (nested_loops_places t (link_neibors t)).
  apply (foldM_pointwise (link_at t) (neibors_sized n)
           (fun x g => neibors_blank_at (Z.to_nat (node_of t x)) g)
           (neibors_linked_at t) (places t) (NoDup_places t)).
  - intros x g Hx Hgood Hpend.
    destruct (link_at_step t n x g Hwn Hx Hgood Hpend)
      as (g' & E & Hgood' & Hdone & Hframe).
    exists g'. split; [exact E |]. split; [exact Hgood' |].
    split; [exact Hdone |].
    intros y Hy Hyx.
    assert (Hk : Z.to_nat (node_of t y) <> Z.to_nat (node_of t x)).
    { destruct Hwn as [Hrange Hinj].
      pose proof (Hrange x Hx). pose proof (Hrange y Hy).
      intros E'. apply Hyx. apply Hinj; auto. lia. }
    destruct (Hframe _ Hk) as (Fw & Fe & Fs & Fn).
    unfold neibors_blank_at, neibors_linked_at.
    rewrite Fw, Fe, Fs, Fn. auto.
  - unfold neibors_sized. simpl. rewrite !repeat_length. auto.
  - intros x Hx. destruct Hwn as [Hrange _]. specialize (Hrange x Hx).
    unfold neibors_blank_at. simpl.
    rewrite !nth_repeat_lt by lia. auto.
Qed.

(** ** The anchors of a well-numbered table *)

Lemma mark_at_step (t : lookup_table) (factor : Z) (n_lat : nat)
    (strides : list Z) (n : nat) (x : nat * (nat * nat))
    (marks : list bool * list bool) :
  well_numbered t n -> In x (places t) ->
  factor <> 0%Z -> nth (fst (snd x)) strides 0%Z <> 0%Z ->
  length (fst marks) = S n /\ length (snd marks) = n ->
  nth (Z.to_nat (node_of t x)) (fst marks) false = false /\
  nth (Z.to_nat (node_of t x)) (snd marks) false = false ->
  exists marks', mark_at t factor n_lat strides x marks = Ok marks' /\
    (length (fst marks') = S n /\ length (snd marks') = n) /\
    (nth (Z.to_nat (node_of t x)) (fst marks') false
       = important_row factor n_lat x /\
     nth (Z.to_nat (node_of t x)) (snd marks') false
       = important_col strides x) /\
    forall k, k <> Z.to_nat (node_of t x) ->
      nth k (fst marks') false = nth k (fst marks) false /\
      nth k (snd marks') false = nth k (snd marks) false.
Proof.
  intros [Hrange _] Hx Hfactor Hstride [L1 L2] [B1 B2].
  specialize (Hrange x Hx). destruct x as [h [i j]]. destruct marks as [hdn isd].
  unfold mark_at, mark_anchors, important_row, important_col, node_of, py_mod in *.
  cbn [fst snd] in *.
  set (k := node_at t h i j) in *.
  destruct (Z.eqb_spec k (-1)) as [E | _]; [lia |].
  destruct (Z.eqb_spec factor 0) as [E | _]; [contradiction |].
  destruct (Z.eqb_spec (nth i strides 0%Z) 0) as [E | _]; [contradiction |].
  cbn [bind].
  rewrite (np_index_at hdn k false) by lia.
  rewrite (np_index_at isd k false) by lia.
  cbn [bind]. rewrite B1, B2. cbn [orb].
  destruct (np_assign_at hdn k
              ((Z.min (Z.of_nat i) (Z.of_nat n_lat - 1 - Z.of_nat i)) mod factor =? 0)%Z
              false) as (hdn' & -> & Lh & Eh & Fh); [lia |].
  destruct (np_assign_at isd k
              (Z.of_nat j mod nth i strides 0 =? 0)%Z false)
    as (isd' & -> & Li & Ei & Fi); [lia |].
  cbn [bind]. eexists. split; [reflexivity |]. cbn [fst snd].
  split; [split; congruence |]. split; [auto |].
  intros k' Hk'. auto.
Qed.

Lemma marks_loop_places (t : lookup_table) (factor : Z) (n_lat : nat)
    (strides : list Z) (marks : list bool * list bool) :
  (n_rows t <= length strides)%nat ->
  for_range (n_sections t) (fun h =>
    for_range (n_rows t) (fun i marks =>
      east_west_factor <- np_index strides (Z.of_nat i) ;;
      for_range (n_cols t)
        (mark_anchors t factor n_lat east_west_factor h i) marks)) marks
  = foldM (mark_at t factor n_lat strides) (places t) marks.
Proof.
  intros Hlen.
  rewrite <- (nested_loops_places t
                (fun h i j => mark_anchors t factor n_lat (nth i strides 0%Z) h i j)).
  rewrite !for_range_foldM. apply foldM_ext. intros h s _.
  rewrite !for_range_foldM. apply foldM_ext. intros i s' Hi.
  apply in_seq in Hi.
  rewrite (np_index_nat strides i 0%Z) by lia. reflexivity.
Qed.

Lemma marks_loop_spec (t : lookup_table) (factor : Z) (n_lat : nat)
    (strides : list Z) (n : nat) :
  well_numbered t n ->
  (n_rows t <= length strides)%nat ->
  factor <> 0%Z ->
  (forall i, (i < n_rows t)%nat -> nth i strides 0%Z <> 0%Z) ->
  exists marks,
    for_range (n_sections t) (fun h =>
      for_range (n_rows t) (fun i marks =>
        east_west_factor <- np_index strides (Z.of_nat i) ;;
        for_range (n_cols t)
          (mark_anchors t factor n_lat east_west_factor h i) marks))
      (repeat false (n + 1), repeat false n) = Ok marks /\
    (length (fst marks) = S n /\ length (snd marks) = n /\
     nth n (fst marks) false = false) /\
    forall x, In x (places t) ->
      nth (Z.to_nat (node_of t x)) (fst marks) false
        = important_row factor n_lat x /\
      nth (Z.to_nat (node_of t x)) (snd marks) false = important_col strides x.
Proof.
  intros Hwn Hlen Hfactor Hstrides.
  rewrite marks_loop_places by exact Hlen.
  apply (foldM_pointwise (mark_at t factor n_lat strides)
           (fun m => length (fst m) = S n /\ length (snd m) = n
                     /\ nth n (fst m) false = false)
           (fun x m => nth (Z.to_nat (node_of t x)) (fst m) false = false /\
                       nth (Z.to_nat (node_of t x)) (snd m) false = false)
           (fun x m => nth (Z.to_nat (node_of t x)) (fst m) false
                         = important_row factor n_lat x /\
                       nth (Z.to_nat (node_of t x)) (snd m) false
                         = important_col strides x)
           (places t) (NoDup_places t)).
  - intros x m Hx (L1 & L2 & Hlast) Hpend.
    assert (Hi : (fst (snd x) < n_rows t)%nat).
    { destruct x as [h [i j]]. apply in_places in Hx. simpl. lia. }
    destruct (mark_at_step t factor n_lat strides n x m Hwn Hx Hfactor
                (Hstrides _ Hi) (conj L1 L2) Hpend)
      as (m' & E & [L1' L2'] & Hdone & Hframe).
    pose proof (proj1 Hwn x Hx) as Hr.
    exists m'. split; [exact E |]. split.
    { split; [exact L1' |]. split; [exact L2' |].
      rewrite (proj1 (Hframe n ltac:(lia))). exact Hlast. }
    split; [exact Hdone |].
    intros y Hy Hyx.
    assert (Hk : Z.to_nat (node_of t y) <> Z.to_nat (node_of t x)).
    { destruct Hwn as [Hrange Hinj]. pose proof (Hrange y Hy).
      intros E'. apply Hyx. apply Hinj; auto. lia. }
    destruct (Hframe _ Hk) as [F1 F2]. rewrite F1, F2. auto.
  - simpl. rewrite !repeat_length. split; [lia |]. split; [reflexivity |].
    apply nth_repeat_lt. lia.
  - intros x Hx. pose proof (proj1 Hwn x Hx). simpl.
    rewrite !nth_repeat_lt by lia. auto.
Qed.

(** ** Walks that are bound to arrive *)

Lemma np_take_total {A : Type} (a : list A) (idx : list Z) :
  (forall i, In i idx -> exists x, np_index a i = Ok x) ->
  exists r, np_take a idx = Ok r.
Proof.
  intros H. apply mapM_total. apply Forall_forall. exact H.
Qed.

Lemma forallb_by_nth (arrived : list bool) :
  (forall k, (k < length arrived)%nat -> nth k arrived false = true) ->
  forallb (fun a => a) arrived = true.
Proof.
  intros H. apply forallb_forall. intros a Ha.
  destruct (In_nth _ _ false Ha) as (k & Hk & <-). apply H. exact Hk.
Qed.

Lemma stuck_by_nth (arrived : list bool) (next state : list Z) :
  length arrived = length state -> length next = length state ->
  (forall k, (k < length state)%nat ->
     nth k arrived false = false -> nth k next 0%Z <> nth k state 0%Z) ->
  stuck arrived next state = false.
Proof.
  unfold stuck. revert arrived next.
  induction state as [| s state IH]; intros [| a arrived] [| n next];
    simpl; intros L1 L2 H; try lia; try reflexivity.
  rewrite IH; try lia.
  - rewrite orb_false_r. destruct a; [reflexivity |]. simpl.
    apply Z.eqb_neq. apply (H O); [lia | reflexivity].
  - intros k Hk. apply (H (S k)). lia.
Qed.

Section Ranked.
Variable progression : list Z.
Variable until : list bool.

(** [Rk r s]: the state [s] is at most [r] steps from arriving. *)
Variable Rk : nat -> Z -> Prop.

Hypothesis Rk_step : forall r s, Rk r s ->
  exists a next, np_index until s = Ok a /\ np_index progression s = Ok next /\
    (a = false -> next <> s /\ exists r', r = S r' /\ Rk r' next).

Hypothesis Rk_arrived : forall r s,
  Rk (S r) s -> np_index until s = Ok true -> Rk r s.

Lemma Rk_zero (r : nat) (s : Z) :
  Rk r s -> np_index until s = Ok true -> Rk 0 s.
Proof.
  induction r as [| r IH]; intros H Hu; [exact H |].
  apply IH; [apply Rk_arrived; assumption | exact Hu].
Qed.

Lemma follow_loop_ranked (fuel : nat) :
  forall state distance arrived,
    np_take until state = Ok arrived ->
    (forall k, (k < length state)%nat -> Rk fuel (nth k state 0%Z)) ->
    exists state' distance',
      follow_loop fuel progression until state distance arrived
        = Ok (state', distance') /\
      length state' = length state /\
      forall k, (k < length state)%nat -> Rk 0 (nth k state' 0%Z).
Proof.
  induction fuel as [| fuel IH]; intros state distance arrived Harr Hrk.
  - assert (Hall : forallb (fun a => a) arrived = true).
    { apply forallb_by_nth. intros k Hk.
      rewrite (np_take_length _ _ _ Harr) in Hk.
      destruct (Rk_step _ _ (Hrk k Hk)) as (a & next & Ha & _ & Hfalse).
      rewrite (np_take_nth _ _ _ k 0%Z false Harr Hk) in Ha.
      injection Ha as ->. destruct a; [reflexivity |].
      destruct (Hfalse eq_refl) as (_ & r' & E & _). discriminate. }
    cbn [follow_loop]. rewrite Hall. exists state, distance.
    split; [reflexivity |]. split; [reflexivity |]. exact Hrk.
  - cbn [follow_loop].
    destruct (forallb (fun a => a) arrived) eqn:Hall.
    + exists state, distance. split; [reflexivity |]. split; [reflexivity |].
      intros k Hk. apply (Rk_zero (S fuel)); [apply Hrk; exact Hk |].
      rewrite (np_take_nth _ _ _ k 0%Z false Harr Hk). f_equal.
      apply forallb_nth; [exact Hall |].
      rewrite (np_take_length _ _ _ Harr). exact Hk.
    + pose proof (np_take_length _ _ _ Harr) as La.
      destruct (np_take_total progression state) as [next Hnext].
      { intros s Hs. destruct (In_nth _ _ 0%Z Hs) as (k & Hk & <-).
        destruct (Rk_step _ _ (Hrk k Hk)) as (a & nxt & _ & Hn & _). eauto. }
      pose proof (np_take_length _ _ _ Hnext) as Ln.
      rewrite Hnext. cbn [bind].
      assert (Hstep : forall k, (k < length state)%nat ->
                (nth k arrived false = true /\ Rk fuel (nth k state 0%Z)) \/
                (nth k arrived false = false /\
                 nth k next 0%Z <> nth k state 0%Z /\ Rk fuel (nth k next 0%Z))).
      { intros k Hk.
        destruct (Rk_step _ _ (Hrk k Hk)) as (a & nxt & Ha & Hn & Hfalse).
        pose proof Ha as Ha'.
        rewrite (np_take_nth _ _ _ k 0%Z false Harr Hk) in Ha.
        injection Ha as Ea.
        rewrite (np_take_nth _ _ _ k 0%Z 0%Z Hnext Hk) in Hn.
        injection Hn as En. subst a nxt.
        destruct (nth k arrived false) eqn:E.
        - left. split; [reflexivity |]. apply Rk_arrived; [apply Hrk, Hk | exact Ha'].
        - right. destruct (Hfalse eq_refl) as (Hne & r' & Er & Hr').
          injection Er as <-. auto. }
      rewrite stuck_by_nth; [| exact La | exact Ln |].
      2:{ intros k Hk Ek. destruct (Hstep k Hk) as [[E _] | (_ & H & _)];
            [congruence | exact H]. }
      pose proof (length_advance arrived next state La Ln) as Ls.
      assert (Hrk' : forall k, (k < length (advance arrived next state))%nat ->
                Rk fuel (nth k (advance arrived next state) 0%Z)).
      { intros k Hk. rewrite Ls in Hk. rewrite nth_advance by auto.
        destruct (Hstep k Hk) as [[E H] | (E & _ & H)]; rewrite E; exact H. }
      destruct (np_take_total until (advance arrived next state)) as [arrived' Harr'].
      { intros s Hs. destruct (In_nth _ _ 0%Z Hs) as (k & Hk & <-).
        destruct (Rk_step _ _ (Hrk' k Hk)) as (a & nxt & Ha & _). eauto. }
      rewrite Harr'. cbn [bind].
      destruct (IH _ (count_step arrived distance) _ Harr' Hrk')
        as (state' & distance' & E & L & H0).
      exists state', distance'. split; [exact E |]. split; [lia |].
      intros k Hk. apply H0. lia.
Qed.

Lemma follow_graph_ranked (fuel : nat) (frum : list Z) :
  (forall k, (k < length frum)%nat -> Rk fuel (nth k frum 0%Z)) ->
  exists state distance,
    follow_graph fuel progression frum until = Ok (state, distance) /\
    forall k, (k < length frum)%nat -> Rk 0 (nth k state 0%Z).
Proof.
  intros Hrk. unfold follow_graph.
  destruct (np_take_total until frum) as [arrived Harr].
  { intros s Hs. destruct (In_nth _ _ 0%Z Hs) as (k & Hk & <-).
    destruct (Rk_step _ _ (Hrk k Hk)) as (a & nxt & Ha & _). eauto. }
  rewrite Harr. cbn [bind].
  destruct (follow_loop_ranked fuel frum (repeat O (length frum)) arrived Harr Hrk)
    as (state & distance & E & _ & H0).
  exists state, distance. auto.
Qed.
End Ranked.

(** ** The skeleton of a fully numbered table *)

Lemma table_entries_places (t : lookup_table) :
  table_entries t = map (node_of t) (places t).
Proof.
  unfold table_entries, places.
  generalize (seq 0 (n_sections t)). intros hs.
  induction hs as [| h hs IH]; cbn [flat_map map]; [reflexivity |].
  rewrite map_app, <- IH. f_equal. rewrite map_map.
  generalize (seq 0 (n_rows t)). intros rows.
  induction rows as [| i rows IHi]; cbn [flat_map map]; [reflexivity |].
  rewrite map_app, <- IHi. f_equal. rewrite map_map. reflexivity.
Qed.

Lemma fold_max_spec (l : list Z) (x : Z) :
  (x <= fold_left Z.max l x)%Z /\
  (forall y, In y l -> (y <= fold_left Z.max l x)%Z) /\
  (fold_left Z.max l x = x \/ In (fold_left Z.max l x) l).
Proof.
  revert x. induction l as [| a l IH]; intros x; simpl.
  - split; [lia |]. split; [intros y [] | auto].
  - destruct (IH (Z.max x a)) as (H1 & H2 & H3).
    split; [lia |]. split.
    + intros y [<- | Hy]; [lia | auto].
    + destruct H3 as [E | Hin]; [| auto].
      rewrite E. destruct (Z.max_spec x a) as [[_ ->] | [_ ->]]; auto.
Qed.

Lemma np_max_top (l : list Z) (m : Z) :
  In m l -> (forall y, In y l -> (y <= m)%Z) -> np_max l = Ok m.
Proof.
  destruct l as [| x l]; [intros [] |]. intros Hin Hle. cbn [np_max]. f_equal.
  destruct (fold_max_spec l x) as (H1 & H2 & H3).
  assert (Hm : (m <= fold_left Z.max l x)%Z)
    by (destruct Hin as [<- | Hin]; [exact H1 | auto]).
  assert (Hf : (fold_left Z.max l x <= m)%Z).
  { destruct H3 as [-> | H3]; apply Hle; [left; reflexivity | right; exact H3]. }
  lia.
Qed.

Lemma get_interpolation_weits_total (distance_a distance_b : list nat) :
  length distance_a = length distance_b ->
  exists weits_a weits_b,
    get_interpolation_weits distance_a distance_b = Ok (weits_a, weits_b).
Proof.
  revert distance_b. induction distance_a as [| da distance_a IH];
    intros [| db distance_b] H; simpl in H; try lia.
  - exists [], []. reflexivity.
  - destruct (IH distance_b) as (wa & wb & E); [lia |].
    cbn [get_interpolation_weits]. rewrite E. cbn [bind].
    destruct (interpolation_weit da db) as [x y]. eauto.
Qed.

Lemma np_max_total (l : list Z) : l <> [] -> exists m, np_max l = Ok m.
Proof. destruct l as [| x l]; [congruence |]. intros _. simpl. eauto. Qed.

Lemma Forall_zip_with {A B C : Type} (f : A -> B -> C) (P : A -> Prop)
    (Q : B -> Prop) (R : C -> Prop) (a : list A) (b : list B) :
  (forall x y, P x -> Q y -> R (f x y)) ->
  Forall P a -> Forall Q b -> Forall R (zip_with f a b).
Proof.
  intros Hf Ha. revert b. induction Ha as [| x a Hx _ IH]; intros b Hb.
  - constructor.
  - destruct Hb as [| y b Hy Hb]; [constructor |].
    unfold zip_with. cbn [combine map]. constructor.
    + apply Hf; assumption.
    + apply IH. exact Hb.
Qed.

Lemma np_take_cons_total {A : Type} (a : list A) (i : Z) (idx : list Z) :
  (exists v, np_index a i = Ok v) -> (exists r, np_take a idx = Ok r) ->
  exists r, np_take a (i :: idx) = Ok r.
Proof.
  intros [v Hv] [r Hr]. unfold np_take in *. cbn [mapM].
  rewrite Hv. cbn [bind]. rewrite Hr. cbn [bind]. eauto.
Qed.

Lemma take_rows_total {A : Type} (a : list A) (heads : list Z)
    (rows : list (list Z)) :
  Forall (fun s => exists v, np_index a s = Ok v) heads ->
  Forall (fun r => exists b, np_take a r = Ok b) rows ->
  Forall (fun r => exists b, np_take a r = Ok b)
         (zip_with (fun s r => s :: r) heads rows).
Proof.
  apply (Forall_zip_with (fun s r => s :: r)
           (fun s => exists v, np_index a s = Ok v)
           (fun r => exists b, np_take a r = Ok b)
           (fun r => exists b, np_take a r = Ok b)).
  intros s r. apply np_take_cons_total.
Qed.

Lemma count_true_perm (l l' : list bool) :
  Permutation l l' -> count_true l = count_true l'.
Proof.
  unfold count_true. induction 1 as [| x l l' _ IH | x y l | l l' l'' _ IH1 _ IH2].
  - reflexivity.
  - destruct x; simpl; rewrite IH; reflexivity.
  - destruct x, y; reflexivity.
  - congruence.
Qed.

Lemma list_by_nth {A : Type} (l : list A) (d : A) :
  map (fun k => nth k l d) (seq 0 (length l)) = l.
Proof.
  apply (nth_ext _ _ (nth 0 l d) d).
  - rewrite length_map, length_seq. reflexivity.
  - intros k Hk. rewrite length_map, length_seq in Hk.
    rewrite (map_nth (fun k => nth k l d)), seq_nth by exact Hk. reflexivity.
Qed.

Lemma NoDup_map_inj_in {A B : Type} (f : A -> B) (l : list A) :
  NoDup (map f l) ->
  forall x y, In x l -> In y l -> f x = f y -> x = y.
Proof.
  induction l as [| a l IH]; simpl; intros H x y Hx Hy E; [contradiction |].
  inversion H as [| ? ? Hnotin Hnd]; subst.
  destruct Hx as [-> | Hx], Hy as [-> | Hy].
  - reflexivity.
  - exfalso. apply Hnotin. rewrite E. apply in_map. exact Hy.
  - exfalso. apply Hnotin. rewrite <- E. apply in_map. exact Hx.
  - exact (IH Hnd x y Hx Hy E).
Qed.

(** A table whose entries are the node indices 0 .. n-1 in some order is
    fully numbered. *)
Lemma fully_numbered_of_entries (t : lookup_table) (n : nat) :
  (0 < n)%nat ->
  Permutation (table_entries t) (map Z.of_nat (seq 0 n)) ->
  fully_numbered t n.
Proof.
  intros Hpos HP. rewrite table_entries_places in HP.
  split; [split |split; [| exact Hpos]].
  - intros x Hx.
    assert (Hin : In (node_of t x) (map Z.of_nat (seq 0 n)))
      by (eapply Permutation_in; [exact HP | apply in_map; exact Hx]).
    apply in_map_iff in Hin. destruct Hin as (k & <- & Hk).
    apply in_seq in Hk. lia.
  - apply NoDup_map_inj_in.
    apply (Permutation_NoDup (Permutation_sym HP)).
    apply Finite.Injective_map_NoDup; [| apply seq_NoDup].
    intros a b. apply Nat2Z.inj.
  - intros k Hk.
    assert (Hin : In (Z.of_nat k) (map (node_of t) (places t))).
    { eapply Permutation_in; [exact (Permutation_sym HP) |].
      apply in_map. apply in_seq. lia. }
    apply in_map_iff in Hin. destruct Hin as (x & E & Hx). eauto.
Qed.

Section FullyNumbered.
Variable t : lookup_table.
Variable n : nat.
Variable factor : Z.
Variable n_lat : nat.
Variable strides : list Z.

Hypothesis Hfull : fully_numbered t n.

Lemma node_range (x : nat * (nat * nat)) :
  In x (places t) -> (0 <= node_of t x < Z.of_nat n)%Z.
Proof. apply (proj1 (proj1 Hfull)). Qed.

Lemma node_place (s : Z) :
  (0 <= s < Z.of_nat n)%Z -> exists x, In x (places t) /\ node_of t x = s.
Proof.
  intros Hs. destruct (proj1 (proj2 Hfull) (Z.to_nat s)) as (x & Hx & E); [lia |].
  exists x. split; [exact Hx |]. rewrite E. lia.
Qed.

Lemma node_inj (x y : nat * (nat * nat)) :
  In x (places t) -> In y (places t) -> node_of t x = node_of t y -> x = y.
Proof. apply (proj2 (proj1 Hfull)). Qed.

Lemma np_max_entries : np_max (table_entries t) = Ok (Z.of_nat n - 1)%Z.
Proof.
  rewrite table_entries_places. apply np_max_top.
  - destruct (node_place (Z.of_nat n - 1)) as (x & Hx & E).
    { destruct Hfull as (_ & _ & Hpos). lia. }
    rewrite <- E. apply in_map. exact Hx.
  - intros y Hy. apply in_map_iff in Hy. destruct Hy as (x & <- & Hx).
    pose proof (node_range x Hx). lia.
Qed.

(** The neighbor of a place is a place. *)
Lemma north_place (h i j : nat) :
  In (h, (i, j)) (places t) -> (i + 1 <? n_rows t)%nat = true ->
  In (h, (i + 1, j)%nat) (places t) /\
  north_of t (h, (i, j)) = node_of t (h, (i + 1, j)%nat).
Proof.
  intros Hx Hi. pose proof Hi as Hb. apply Nat.ltb_lt in Hi. apply in_places in Hx.
  split; [apply in_places; lia |].
  unfold north_of, node_of. cbn [fst snd]. rewrite Hb. reflexivity.
Qed.

Lemma south_place (h i j : nat) :
  In (h, (i, j)) (places t) -> (1 <=? i)%nat = true ->
  In (h, (i - 1, j)%nat) (places t) /\
  south_of t (h, (i, j)) = node_of t (h, (i - 1, j)%nat).
Proof.
  intros Hx Hi. pose proof Hi as Hb. apply Nat.leb_le in Hi. apply in_places in Hx.
  split; [apply in_places; lia |].
  unfold south_of, node_of. cbn [fst snd]. rewrite Hb. reflexivity.
Qed.

Lemma east_place (h i j : nat) :
  In (h, (i, j)) (places t) -> (j + 1 <? n_cols t)%nat = true ->
  In (h, (i, j + 1)%nat) (places t) /\
  east_of t (h, (i, j)) = node_of t (h, (i, j + 1)%nat).
Proof.
  intros Hx Hj. pose proof Hj as Hb. apply Nat.ltb_lt in Hj. apply in_places in Hx.
  split; [apply in_places; lia |].
  unfold east_of, node_of. cbn [fst snd]. rewrite Hb. reflexivity.
Qed.

Lemma west_place (h i j : nat) :
  In (h, (i, j)) (places t) -> (1 <=? j)%nat = true ->
  In (h, (i, j - 1)%nat) (places t) /\
  west_of t (h, (i, j)) = node_of t (h, (i, j - 1)%nat).
Proof.
  intros Hx Hj. pose proof Hj as Hb. apply Nat.leb_le in Hj. apply in_places in Hx.
  split; [apply in_places; lia |].
  unfold west_of, node_of. cbn [fst snd]. rewrite Hb. reflexivity.
Qed.

Lemma north_edge (x : nat * (nat * nat)) :
  In x (places t) ->
  (north_of t x =? -1)%Z = negb (fst (snd x) + 1 <? n_rows t)%nat.
Proof.
  destruct x as [h [i j]]. intros Hx. cbn [fst snd].
  destruct (i + 1 <? n_rows t)%nat eqn:E.
  - destruct (north_place h i j Hx E) as [Hy ->].
    pose proof (node_range _ Hy). cbn [negb]. apply Z.eqb_neq. lia.
  - unfold north_of. rewrite E. reflexivity.
Qed.

Lemma south_edge (x : nat * (nat * nat)) :
  In x (places t) ->
  (south_of t x =? -1)%Z = negb (1 <=? fst (snd x))%nat.
Proof.
  destruct x as [h [i j]]. intros Hx. cbn [fst snd].
  destruct (1 <=? i)%nat eqn:E.
  - destruct (south_place h i j Hx E) as [Hy ->].
    pose proof (node_range _ Hy). cbn [negb]. apply Z.eqb_neq. lia.
  - unfold south_of. rewrite E. reflexivity.
Qed.

Lemma row_anchor_row (h i j j' : nat) :
  row_anchor t factor n_lat (h, (i, j)) = row_anchor t factor n_lat (h, (i, j')).
Proof. reflexivity. Qed.

(** The array [has_defined_neibors] after its last update. *)
Lemma anchors_spec (g : neibors) (hdn0 : list bool) :
  neibors_sized n g ->
  (forall x, In x (places t) -> neibors_linked_at t x g) ->
  length hdn0 = S n -> nth n hdn0 false = false ->
  (forall x, In x (places t) ->
     nth (Z.to_nat (node_of t x)) hdn0 false = important_row factor n_lat x) ->
  let hdn := zip_with orb (firstn n hdn0)
               (zip_with (fun a b => (a =? -1)%Z || (b =? -1)%Z)
                  (north_neibor g) (south_neibor g)) ++ skipn n hdn0 in
  length hdn = S n /\
  np_index hdn (-1) = Ok false /\
  forall x, In x (places t) ->
    np_index hdn (node_of t x) = Ok (row_anchor t factor n_lat x).
Proof.
  intros (Le & Lw & Ln & Ls) Hlinked L0 Hlast Hrow hdn.
  assert (Lfront : length (zip_with orb (firstn n hdn0)
                     (zip_with (fun a b => (a =? -1)%Z || (b =? -1)%Z)
                        (north_neibor g) (south_neibor g))) = n)
    by (rewrite !length_zip_with, length_firstn; lia).
  assert (Lhdn : length hdn = S n).
  { unfold hdn. rewrite length_app, Lfront, length_skipn. lia. }
  split; [exact Lhdn |]. split.
  - rewrite (np_index_last hdn false) by lia. f_equal.
    rewrite Lhdn. unfold hdn. rewrite app_nth2 by lia.
    rewrite Lfront. replace (S n - 1 - n)%nat with O by lia.
    rewrite nth_skipn, Nat.add_0_r. exact Hlast.
  - intros x Hx. pose proof (node_range x Hx) as Hr.
    rewrite (np_index_at hdn _ false) by lia. f_equal.
    unfold hdn. rewrite app_nth1 by lia.
    rewrite (nth_zip_with orb _ _ _ false false false)
      by (rewrite ?length_zip_with, ?length_firstn; lia).
    rewrite nth_of_firstn by lia.
    rewrite (nth_zip_with _ _ _ _ 0%Z 0%Z false) by lia.
    destruct (Hlinked x Hx) as (_ & _ & Hs & Hn).
    rewrite Hn, Hs, Hrow by exact Hx.
    rewrite north_edge, south_edge by exact Hx.
    reflexivity.
Qed.

(** [has_defined_neibors] looked up at the neighbors in one direction. *)
Lemma side_has_spec (side : list Z) (hdn : list bool)
    (side_of : nat * (nat * nat) -> Z) (inside : nat * (nat * nat) -> bool) :
  length side = n -> length hdn = S n ->
  np_index hdn (-1) = Ok false ->
  (forall x, In x (places t) ->
     np_index hdn (node_of t x) = Ok (row_anchor t factor n_lat x)) ->
  (forall x, In x (places t) -> nth (Z.to_nat (node_of t x)) side 0%Z = side_of x) ->
  (forall x, In x (places t) ->
     if inside x
     then exists y, In y (places t) /\ side_of x = node_of t y /\
                    row_anchor t factor n_lat y = row_anchor t factor n_lat x
     else side_of x = (-1)%Z) ->
  exists has, np_take hdn side = Ok has /\ length has = n /\
    forall x, In x (places t) ->
      nth (Z.to_nat (node_of t x)) has false
      = inside x && row_anchor t factor n_lat x.
Proof.
  intros Lside Lhdn Hlast Hanchor Hside Hinside.
  assert (Hat : forall x, In x (places t) ->
            np_index hdn (side_of x)
            = Ok (inside x && row_anchor t factor n_lat x)).
  { intros x Hx. specialize (Hinside x Hx). destruct (inside x).
    - destruct Hinside as (y & Hy & -> & Ey). rewrite Hanchor by exact Hy.
      rewrite Ey. reflexivity.
    - rewrite Hinside. exact Hlast. }
  destruct (np_take_total hdn side) as [has Hhas].
  { intros s Hs. destruct (In_nth _ _ 0%Z Hs) as (k & Hk & <-).
    destruct (node_place (Z.of_nat k)) as (x & Hx & E); [lia |].
    replace k with (Z.to_nat (node_of t x)) by lia.
    rewrite Hside by exact Hx. rewrite Hat by exact Hx. eauto. }
  exists has. split; [exact Hhas |].
  split; [rewrite (np_take_length _ _ _ Hhas); exact Lside |].
  intros x Hx. pose proof (node_range x Hx) as Hr.
  pose proof (np_take_nth _ _ _ (Z.to_nat (node_of t x)) 0%Z false Hhas) as E.
  rewrite Hside, Hat in E by (try exact Hx; lia).
  specialize (E ltac:(lia)). injection E as E. symmetry. exact E.
Qed.

(** The nodes of the places are the nodes 0 .. n-1 in some order. *)
Lemma nodes_permutation :
  Permutation (map (fun x => Z.to_nat (node_of t x)) (places t)) (seq 0 n).
Proof.
  apply NoDup_Permutation.
  - apply Finite.Injective_map_NoDup_in; [| apply NoDup_places].
    intros x y Hx Hy E. apply node_inj; try assumption.
    pose proof (node_range x Hx). pose proof (node_range y Hy). lia.
  - apply seq_NoDup.
  - intros k. rewrite in_map_iff, in_seq. split.
    + intros (x & <- & Hx). pose proof (node_range x Hx). lia.
    + intros Hk. destruct (node_place (Z.of_nat k)) as (x & Hx & E); [lia |].
      exists x. split; [rewrite E; apply Nat2Z.id | exact Hx].
Qed.

(** A mask over the nodes holds as often as it does over the places. *)
Lemma count_by_places (mask : list bool) (f : nat * (nat * nat) -> bool) :
  length mask = n ->
  (forall x, In x (places t) ->
     nth (Z.to_nat (node_of t x)) mask false = f x) ->
  count_true mask = count_true (map f (places t)).
Proof.
  intros L H.
  rewrite <- (map_ext_in (fun x => nth (Z.to_nat (node_of t x)) mask false)
                f (places t) H).
  rewrite <- (map_map (fun x => Z.to_nat (node_of t x))
                (fun k => nth k mask false)).
  rewrite (count_true_perm _ _
             (Permutation_map (fun k => nth k mask false) nodes_permutation)).
  rewrite <- L, list_by_nth. reflexivity.
Qed.

(** A walk over the places of the table: every walker that has not arrived
    moves to a place of smaller measure, so all walkers arrive within as many
    steps as the largest measure. *)
Lemma walk_arrives (progression : list Z) (until : list bool)
    (stop : nat * (nat * nat) -> bool) (Inv : nat * (nat * nat) -> Prop)
    (next : nat * (nat * nat) -> nat * (nat * nat))
    (m : nat * (nat * nat) -> nat) (fuel : nat) (frum : list Z) :
  length progression = n ->
  (forall x, In x (places t) -> np_index until (node_of t x) = Ok (stop x)) ->
  (forall x, In x (places t) -> Inv x -> stop x = false ->
     In (next x) (places t) /\
     nth (Z.to_nat (node_of t x)) progression 0%Z = node_of t (next x) /\
     Inv (next x) /\ (m (next x) < m x)%nat) ->
  (forall k, (k < length frum)%nat ->
     exists x, In x (places t) /\ node_of t x = nth k frum 0%Z /\ Inv x /\
               (m x <= fuel)%nat) ->
  exists state distance,
    follow_graph fuel progression frum until = Ok (state, distance) /\
    length state = length frum /\ length distance = length frum /\
    forall k, (k < length frum)%nat ->
      exists x, In x (places t) /\ node_of t x = nth k state 0%Z /\ Inv x /\
                stop x = true.
Proof.
  intros Lprog Huntil Hmove Hfrum.
  pose (Rk := fun (r : nat) (s : Z) =>
          exists x, In x (places t) /\ node_of t x = s /\ Inv x /\
                    (stop x = true \/ (m x <= r)%nat)).
  destruct (follow_graph_ranked progression until Rk) with (fuel := fuel) (frum := frum)
    as (state & distance & E & HR).
  - intros r s (x & Hx & <- & Hi & Hor).
    exists (stop x), (nth (Z.to_nat (node_of t x)) progression 0%Z).
    split; [exact (Huntil x Hx) |].
    split; [apply np_index_at; rewrite Lprog; exact (node_range x Hx) |].
    intros Hs. destruct Hor as [Ht | Hm]; [congruence |].
    destruct (Hmove x Hx Hi Hs) as (Hnx & Enx & Hinx & Hlt). split.
    + rewrite Enx. intros Eq. apply node_inj in Eq; [| assumption | assumption].
      rewrite Eq in Hlt. lia.
    + destruct r as [| r]; [lia |]. exists r. split; [reflexivity |].
      exists (next x). split; [exact Hnx |]. split; [symmetry; exact Enx |].
      split; [exact Hinx |]. right. lia.
  - intros r s (x & Hx & <- & Hi & Hor) Hu.
    rewrite (Huntil x Hx) in Hu. injection Hu as Hu.
    exists x. split; [exact Hx |]. split; [reflexivity |].
    split; [exact Hi |]. left. exact Hu.
  - intros k Hk. destruct (Hfrum k Hk) as (x & Hx & Ex & Hi & Hm).
    exists x. split; [exact Hx |]. split; [exact Ex |]. split; [exact Hi |].
    right. exact Hm.
  - exists state, distance. split; [exact E |].
    destruct (follow_graph_spec _ _ _ _ _ _ E) as (L1 & L2 & Hu & _).
    split; [exact L1 |]. split; [exact L2 |].
    intros k Hk. destruct (HR k Hk) as (x & Hx & Ex & Hi & _).
    exists x. split; [exact Hx |]. split; [exact Ex |]. split; [exact Hi |].
    specialize (Hu k Hk). rewrite <- Ex, (Huntil x Hx) in Hu.
    injection Hu as Hu. exact Hu.
Qed.

(** The key mask after its last update. *)
Lemma key_mask_spec (isd0 east_has west_has hdn : list bool) :
  length isd0 = n -> length east_has = n -> length west_has = n ->
  length hdn = S n ->
  (forall x, In x (places t) ->
     nth (Z.to_nat (node_of t x)) isd0 false = important_col strides x) ->
  (forall x, In x (places t) ->
     nth (Z.to_nat (node_of t x)) east_has false
     = (snd (snd x) + 1 <? n_cols t)%nat && row_anchor t factor n_lat x) ->
  (forall x, In x (places t) ->
     nth (Z.to_nat (node_of t x)) west_has false
     = (1 <=? snd (snd x))%nat && row_anchor t factor n_lat x) ->
  (forall x, In x (places t) ->
     np_index hdn (node_of t x) = Ok (row_anchor t factor n_lat x)) ->
  let isd := zip_with andb
               (zip_with orb isd0
                  (zip_with (fun e w => negb e || negb w) east_has west_has))
               (firstn n hdn) in
  length isd = n /\
  forall x, In x (places t) ->
    nth (Z.to_nat (node_of t x)) isd false = key_place t factor n_lat strides x /\
    np_index isd (node_of t x) = Ok (key_place t factor n_lat strides x).
Proof.
  intros L0 Le Lw Lh Hcol Heast Hwest Hanchor isd.
  assert (Lisd : length isd = n).
  { unfold isd. rewrite !length_zip_with, length_firstn. lia. }
  split; [exact Lisd |].
  assert (Hnth : forall x, In x (places t) ->
            nth (Z.to_nat (node_of t x)) isd false
            = key_place t factor n_lat strides x).
  { intros x Hx. pose proof (node_range x Hx) as Hr. unfold isd.
    rewrite (nth_zip_with andb _ _ _ false false false)
      by (rewrite ?length_zip_with, ?length_firstn; lia).
    rewrite (nth_zip_with orb _ _ _ false false false)
      by (rewrite ?length_zip_with; lia).
    rewrite (nth_zip_with _ _ _ _ false false false) by lia.
    rewrite nth_of_firstn by lia.
    rewrite Hcol, Heast, Hwest by exact Hx.
    pose proof (Hanchor x Hx) as Ha.
    rewrite (np_index_at hdn _ false) in Ha by lia. injection Ha as ->.
    reflexivity. }
  intros x Hx. split; [exact (Hnth x Hx) |].
  rewrite (np_index_at isd _ false)
    by (rewrite Lisd; exact (node_range x Hx)).
  rewrite (Hnth x Hx). reflexivity.
Qed.

(** Walking north or south from any node ends at a row anchor. *)
Lemma north_walk (g : neibors) (hdn : list bool) (fuel : nat) (frum : list Z) :
  neibors_sized n g ->
  (forall x, In x (places t) -> neibors_linked_at t x g) ->
  (forall x, In x (places t) ->
     np_index hdn (node_of t x) = Ok (row_anchor t factor n_lat x)) ->
  (n_rows t <= S fuel)%nat ->
  (forall k, (k < length frum)%nat ->
     exists x, In x (places t) /\ node_of t x = nth k frum 0%Z) ->
  exists state distance,
    follow_graph fuel (north_neibor g) frum hdn = Ok (state, distance) /\
    length state = length frum /\ length distance = length frum /\
    forall k, (k < length frum)%nat ->
      exists x, In x (places t) /\ node_of t x = nth k state 0%Z /\
                row_anchor t factor n_lat x = true.
Proof.
  intros (_ & _ & Ln & _) Hlinked Hanchor Hfuel Hfrum.
  destruct (walk_arrives (north_neibor g) hdn (row_anchor t factor n_lat)
              (fun _ => True)
              (fun x => (fst x, (fst (snd x) + 1, snd (snd x)))%nat)
              (fun x => (n_rows t - 1 - fst (snd x))%nat) fuel frum Ln Hanchor)
    as (state & distance & E & L1 & L2 & Hs).
  - intros [h [i j]] Hx _ Hstop. cbn [fst snd].
    unfold row_anchor in Hstop. cbn [fst snd] in Hstop.
    apply orb_false_iff in Hstop. destruct Hstop as [_ Hedge].
    apply orb_false_iff in Hedge. destruct Hedge as [Hin _].
    apply negb_false_iff in Hin.
    destruct (north_place h i j Hx Hin) as [Hy Ey].
    destruct (Hlinked _ Hx) as (_ & _ & _ & Hn).
    split; [exact Hy |]. split; [rewrite Hn; exact Ey |]. split; [exact I |].
    apply Nat.ltb_lt in Hin. lia.
  - intros k Hk. destruct (Hfrum k Hk) as (x & Hx & Ex).
    exists x. split; [exact Hx |]. split; [exact Ex |]. split; [exact I | lia].
  - exists state, distance. split; [exact E |]. split; [exact L1 |].
    split; [exact L2 |]. intros k Hk.
    destruct (Hs k Hk) as (x & Hx & Ex & _ & Hstop). eauto.
Qed.

Lemma south_walk (g : neibors) (hdn : list bool) (fuel : nat) (frum : list Z) :
  neibors_sized n g ->
  (forall x, In x (places t) -> neibors_linked_at t x g) ->
  (forall x, In x (places t) ->
     np_index hdn (node_of t x) = Ok (row_anchor t factor n_lat x)) ->
  (n_rows t <= S fuel)%nat ->
  (forall k, (k < length frum)%nat ->
     exists x, In x (places t) /\ node_of t x = nth k frum 0%Z) ->
  exists state distance,
    follow_graph fuel (south_neibor g) frum hdn = Ok (state, distance) /\
    length state = length frum /\ length distance = length frum /\
    forall k, (k < length frum)%nat ->
      exists x, In x (places t) /\ node_of t x = nth k state 0%Z /\
                row_anchor t factor n_lat x = true.
Proof.
  intros (_ & _ & _ & Ls) Hlinked Hanchor Hfuel Hfrum.
  destruct (walk_arrives (south_neibor g) hdn (row_anchor t factor n_lat)
              (fun _ => True)
              (fun x => (fst x, (fst (snd x) - 1, snd (snd x)))%nat)
              (fun x => fst (snd x)) fuel frum Ls Hanchor)
    as (state & distance & E & L1 & L2 & Hs).
  - intros [h [i j]] Hx _ Hstop. cbn [fst snd].
    unfold row_anchor in Hstop. cbn [fst snd] in Hstop.
    apply orb_false_iff in Hstop. destruct Hstop as [_ Hedge].
    apply orb_false_iff in Hedge. destruct Hedge as [_ Hin].
    apply negb_false_iff in Hin.
    destruct (south_place h i j Hx Hin) as [Hy Ey].
    destruct (Hlinked _ Hx) as (_ & _ & Hso & _).
    split; [exact Hy |]. split; [rewrite Hso; exact Ey |]. split; [exact I |].
    apply Nat.leb_le in Hin. lia.
  - intros k Hk. destruct (Hfrum k Hk) as (x & Hx & Ex).
    exists x. split; [exact Hx |]. split; [exact Ex |]. split; [exact I |].
    destruct x as [h [i j]]. apply in_places in Hx. cbn [fst snd]. lia.
  - exists state, distance. split; [exact E |]. split; [exact L1 |].
    split; [exact L2 |]. intros k Hk.
    destruct (Hs k Hk) as (x & Hx & Ex & _ & Hstop). eauto.
Qed.

(** Walking east or west along a row of anchors ends at a key node. *)
Lemma east_walk (g : neibors) (isd : list bool) (fuel : nat) (frum : list Z) :
  neibors_sized n g ->
  (forall x, In x (places t) -> neibors_linked_at t x g) ->
  (forall x, In x (places t) ->
     np_index isd (node_of t x) = Ok (key_place t factor n_lat strides x)) ->
  (n_cols t <= S fuel)%nat ->
  (forall k, (k < length frum)%nat ->
     exists x, In x (places t) /\ node_of t x = nth k frum 0%Z /\
               row_anchor t factor n_lat x = true) ->
  exists state distance,
    follow_graph fuel (east_neibor g) frum isd = Ok (state, distance) /\
    length state = length frum /\ length distance = length frum /\
    forall k, (k < length frum)%nat ->
      exists x, In x (places t) /\ node_of t x = nth k state 0%Z /\
                key_place t factor n_lat strides x = true.
Proof.
  intros (Le & _ & _ & _) Hlinked Hkey Hfuel Hfrum.
  destruct (walk_arrives (east_neibor g) isd (key_place t factor n_lat strides)
              (fun x => row_anchor t factor n_lat x = true)
              (fun x => (fst x, (fst (snd x), snd (snd x) + 1))%nat)
              (fun x => (n_cols t - 1 - snd (snd x))%nat) fuel frum Le Hkey)
    as (state & distance & E & L1 & L2 & Hs).
  - intros [h [i j]] Hx Hrow Hstop. cbn [fst snd].
    unfold key_place in Hstop. rewrite Hrow in Hstop. cbn [fst snd] in Hstop.
    rewrite !andb_true_r in Hstop.
    apply orb_false_iff in Hstop. destruct Hstop as [_ Hedge].
    apply orb_false_iff in Hedge. destruct Hedge as [Hin _].
    apply negb_false_iff in Hin.
    destruct (east_place h i j Hx Hin) as [Hy Ey].
    destruct (Hlinked _ Hx) as (_ & He & _ & _).
    split; [exact Hy |]. split; [rewrite He; exact Ey |].
    split; [rewrite <- Hrow; apply row_anchor_row |].
    apply Nat.ltb_lt in Hin. lia.
  - intros k Hk. destruct (Hfrum k Hk) as (x & Hx & Ex & Hrow).
    exists x. split; [exact Hx |]. split; [exact Ex |]. split; [exact Hrow | lia].
  - exists state, distance. split; [exact E |]. split; [exact L1 |].
    split; [exact L2 |]. intros k Hk.
    destruct (Hs k Hk) as (x & Hx & Ex & _ & Hstop). eauto.
Qed.

Lemma west_walk (g : neibors) (isd : list bool) (fuel : nat) (frum : list Z) :
  neibors_sized n g ->
  (forall x, In x (places t) -> neibors_linked_at t x g) ->
  (forall x, In x (places t) ->
     np_index isd (node_of t x) = Ok (key_place t factor n_lat strides x)) ->
  (n_cols t <= S fuel)%nat ->
  (forall k, (k < length frum)%nat ->
     exists x, In x (places t) /\ node_of t x = nth k frum 0%Z /\
               row_anchor t factor n_lat x = true) ->
  exists state distance,
    follow_graph fuel (west_neibor g) frum isd = Ok (state, distance) /\
    length state = length frum /\ length distance = length frum /\
    forall k, (k < length frum)%nat ->
      exists x, In x (places t) /\ node_of t x = nth k state 0%Z /\
                key_place t factor n_lat strides x = true.
Proof.
  intros (_ & Lw & _ & _) Hlinked Hkey Hfuel Hfrum.
  destruct (walk_arrives (west_neibor g) isd (key_place t factor n_lat strides)
              (fun x => row_anchor t factor n_lat x = true)
              (fun x => (fst x, (fst (snd x), snd (snd x) - 1))%nat)
              (fun x => snd (snd x)) fuel frum Lw Hkey)
    as (state & distance & E & L1 & L2 & Hs).
  - intros [h [i j]] Hx Hrow Hstop. cbn [fst snd].
    unfold key_place in Hstop. rewrite Hrow in Hstop. cbn [fst snd] in Hstop.
    rewrite !andb_true_r in Hstop.
    apply orb_false_iff in Hstop. destruct Hstop as [_ Hedge].
    apply orb_false_iff in Hedge. destruct Hedge as [_ Hin].
    apply negb_false_iff in Hin.
    destruct (west_place h i j Hx Hin) as [Hy Ey].
    destruct (Hlinked _ Hx) as (Hw & _ & _ & _).
    split; [exact Hy |]. split; [rewrite Hw; exact Ey |].
    split; [rewrite <- Hrow; apply row_anchor_row |].
    apply Nat.leb_le in Hin. lia.
  - intros k Hk. destruct (Hfrum k Hk) as (x & Hx & Ex & Hrow).
    exists x. split; [exact Hx |]. split; [exact Ex |]. split; [exact Hrow |].
    destruct x as [h [i j]]. apply in_places in Hx. cbn [fst snd]. lia.
  - exists state, distance. split; [exact E |]. split; [exact L1 |].
    split; [exact L2 |]. intros k Hk.
    destruct (Hs k Hk) as (x & Hx & Ex & _ & Hstop). eauto.
Qed.

Lemma references_in_range (reindex : list Z) (Q : nat * (nat * nat) -> Prop)
    (ref : list Z) (m : nat) :
  length reindex = n -> length ref = m ->
  (forall k, (k < m)%nat ->
     exists x, In x (places t) /\ node_of t x = nth k ref 0%Z /\ Q x) ->
  Forall (fun s => exists v, np_index reindex s = Ok v) ref.
Proof.
  intros Lre Lref H. apply Forall_forall. intros s Hs.
  destruct (In_nth _ _ 0%Z Hs) as (k & Hk & <-).
  destruct (H k) as (x & Hx & <- & _); [lia |].
  exists (nth (Z.to_nat (node_of t x)) reindex 0%Z).
  apply np_index_at. rewrite Lre. exact (node_range x Hx).
Qed.

Hypothesis Hfactor : factor <> 0%Z.
Hypothesis Hstrides_len : (n_rows t <= length strides)%nat.
Hypothesis Hstrides : forall i, (i < n_rows t)%nat -> nth i strides 0%Z <> 0%Z.

(** On a fully numbered table, with nonzero strides and fuel for the longest
    walk, [mesh_skeleton] returns, and its key nodes are the key places. *)
Lemma mesh_skeleton_strided_total (fuel : nat) :
  (n_rows t <= S fuel)%nat -> (n_cols t <= S fuel)%nat ->
  exists s restore,
    mesh_skeleton_strided fuel t factor n_lat strides
      = Ok (s, (Restriction n (sk_is_defined s), restore)) /\
    sk_n_full s = n /\ length (sk_is_defined s) = n /\
    forall x, In x (places t) ->
      nth (Z.to_nat (node_of t x)) (sk_is_defined s) false
      = key_place t factor n_lat strides x.
Proof.
  intros Hrows Hcols.
  destruct Hfull as (Hwell & _ & Hpos).
  unfold mesh_skeleton_strided. rewrite np_max_entries. cbn [bind].
  replace (Z.of_nat n - 1 + 1)%Z with (Z.of_nat n) by lia.
  destruct (Z.ltb_spec (Z.of_nat n) 0) as [Hneg | _]; [lia |].
  rewrite Nat2Z.id.
  destruct (build_neibors_linked t n Hwell) as (g & Eg & Hsz & Hlinked).
  rewrite Eg. cbn [bind].
  destruct (marks_loop_spec t factor n_lat strides n Hwell Hstrides_len Hfactor
              Hstrides) as ([hdn0 isd0] & Em & (L1 & L2 & Hlast) & Hmarks).
  cbn [fst snd] in L1, L2, Hlast, Hmarks.
  rewrite Em. cbn [bind].
  pose proof (anchors_spec g hdn0 Hsz Hlinked L1 Hlast
                (fun x Hx => proj1 (Hmarks x Hx))) as Hdn.
  cbv zeta in Hdn.
  set (hdn := zip_with orb (firstn n hdn0)
                (zip_with (fun n0 s0 : Z => (n0 =? -1)%Z || (s0 =? -1)%Z)
                   (north_neibor g) (south_neibor g)) ++ skipn n hdn0) in *.
  destruct Hdn as (Lhdn & Hedge & Hanchor).
  pose proof Hsz as (Le & Lw & Ln & Ls).
  destruct (side_has_spec (east_neibor g) hdn (east_of t)
              (fun x => (snd (snd x) + 1 <? n_cols t)%nat)
              Le Lhdn Hedge Hanchor) as (east_has & Ee & Leh & Heast).
  { intros x Hx. destruct (Hlinked x Hx) as (_ & He & _ & _). exact He. }
  { intros [h [i j]] Hx. cbn [fst snd].
    destruct (j + 1 <? n_cols t)%nat eqn:Hin.
    - destruct (east_place h i j Hx Hin) as [Hy Ey].
      exists (h, (i, j + 1)%nat). split; [exact Hy |]. split; [exact Ey |].
      apply row_anchor_row.
    - unfold east_of. rewrite Hin. reflexivity. }
  destruct (side_has_spec (west_neibor g) hdn (west_of t)
              (fun x => (1 <=? snd (snd x))%nat)
              Lw Lhdn Hedge Hanchor) as (west_has & Ew & Lwh & Hwest).
  { intros x Hx. destruct (Hlinked x Hx) as (Hw & _ & _ & _). exact Hw. }
  { intros [h [i j]] Hx. cbn [fst snd].
    destruct (1 <=? j)%nat eqn:Hin.
    - destruct (west_place h i j Hx Hin) as [Hy Ey].
      exists (h, (i, j - 1)%nat). split; [exact Hy |]. split; [exact Ey |].
      apply row_anchor_row.
    - unfold west_of. rewrite Hin. reflexivity. }
  rewrite Ee. cbn [bind]. rewrite Ew. cbn [bind].
  pose proof (key_mask_spec isd0 east_has west_has hdn L2 Leh Lwh Lhdn
                (fun x Hx => proj2 (Hmarks x Hx)) Heast Hwest Hanchor) as Hmask.
  cbv zeta in Hmask.
  set (isd := zip_with andb
                (zip_with orb isd0
                   (zip_with (fun e w : bool => negb e || negb w) east_has
                      west_has))
                (firstn n hdn)) in *.
  destruct Hmask as (Lisd & Hkey).
  assert (Lre : length (reindex_from 0 isd) = n)
    by (rewrite length_reindex_from; exact Lisd).
  destruct (np_max_total (reindex_from 0 isd)) as (top & Et).
  { intros E. rewrite E in Lre. simpl in Lre. lia. }
  rewrite Et. cbn [bind].
  assert (Leveryone : length (map Z.of_nat (seq 0 n)) = n)
    by (rewrite length_map, length_seq; reflexivity).
  assert (Heveryone : forall k, (k < length (map Z.of_nat (seq 0 n)))%nat ->
            exists x, In x (places t) /\
                      node_of t x = nth k (map Z.of_nat (seq 0 n)) 0%Z).
  { intros k Hk. rewrite Leveryone in Hk. rewrite nth_everyone by exact Hk.
    apply node_place. lia. }
  destruct (north_walk g hdn fuel _ Hsz Hlinked Hanchor Hrows Heveryone)
    as (n_ref & n_dist & En & Lnr & Lnd & Hn).
  rewrite Leveryone in Lnr, Lnd, Hn. rewrite <- Lnr in Hn.
  rewrite En. cbn [bind].
  pose proof (fun x Hx => proj2 (Hkey x Hx)) as Hkeyed.
  destruct (east_walk g isd fuel n_ref Hsz Hlinked Hkeyed Hcols Hn)
    as (ne_ref & ne_dist & Ene & Lner & Lned & Hne).
  rewrite Ene. cbn [bind].
  destruct (west_walk g isd fuel n_ref Hsz Hlinked Hkeyed Hcols Hn)
    as (nw_ref & nw_dist & Enw & Lnwr & Lnwd & Hnw).
  rewrite Enw. cbn [bind].
  destruct (south_walk g hdn fuel _ Hsz Hlinked Hanchor Hrows Heveryone)
    as (s_ref & s_dist & Es & Lsr & Lsd & Hs).
  rewrite Leveryone in Lsr, Lsd, Hs. rewrite <- Lsr in Hs.
  rewrite Es. cbn [bind].
  destruct (east_walk g isd fuel s_ref Hsz Hlinked Hkeyed Hcols Hs)
    as (se_ref & se_dist & Ese & Lser & Lsed & Hse).
  rewrite Ese. cbn [bind].
  destruct (west_walk g isd fuel s_ref Hsz Hlinked Hkeyed Hcols Hs)
    as (sw_ref & sw_dist & Esw & Lswr & Lswd & Hsw).
  rewrite Esw. cbn [bind].
  destruct (get_interpolation_weits_total n_dist s_dist)
    as (n_weit & s_weit & Ewns); [congruence |].
  rewrite Ewns. cbn [bind].
  destruct (get_interpolation_weits_total ne_dist nw_dist)
    as (ne_weit & nw_weit & Ewn); [congruence |].
  rewrite Ewn. cbn [bind].
  destruct (get_interpolation_weits_total se_dist sw_dist)
    as (se_weit & sw_weit & Ews); [congruence |].
  rewrite Ews. cbn [bind].
  pose proof (references_in_range _ _ ne_ref _ Lre Lner Hne) as Rne.
  pose proof (references_in_range _ _ nw_ref _ Lre Lnwr Hnw) as Rnw.
  pose proof (references_in_range _ _ se_ref _ Lre Lser Hse) as Rse.
  pose proof (references_in_range _ _ sw_ref _ Lre Lswr Hsw) as Rsw.
  destruct (mapM_total (np_take (reindex_from 0 isd))
              (zip_with (fun ne r => ne :: r) ne_ref
                 (zip_with (fun nw r => nw :: r) nw_ref
                    (zip_with (fun se sw => [se; sw]) se_ref sw_ref))))
    as (gathered & Egather).
  { apply take_rows_total; [exact Rne |].
    apply take_rows_total; [exact Rnw |].
    apply (Forall_zip_with (fun se sw => [se; sw])
             (fun s => exists v, np_index (reindex_from 0 isd) s = Ok v)
             (fun s => exists v, np_index (reindex_from 0 isd) s = Ok v)
             (fun r => exists b, np_take (reindex_from 0 isd) r = Ok b));
      [| exact Rse | exact Rsw].
    intros se sw Hse' Hsw'. apply np_take_cons_total; [exact Hse' |].
    apply np_take_cons_total; [exact Hsw' |]. exists []. reflexivity. }
  rewrite Egather. cbn [bind].
  match goal with
  | |- exists s restore, Ok (?a, (_, ?b)) = _ /\ _ => exists a, b
  end.
  split; [reflexivity |]. cbn [sk_n_full sk_is_defined].
  split; [reflexivity |]. split; [exact Lisd |].
  intros x Hx. exact (proj1 (Hkey x Hx)).
Qed.

End FullyNumbered.


(** ** Fully defined grids *)

Lemma strides_nonzero (factor : Z) (lat : list R) (i : nat) :
  Forall (fun phi => east_west_factor_at factor phi <> 0%Z) lat ->
  (i < length lat)%nat ->
  nth i (map (east_west_factor_at factor) lat) 0%Z <> 0%Z.
Proof.
  intros H Hi.
  rewrite (nth_indep _ 0%Z (east_west_factor_at factor 0%R))
    by (rewrite length_map; exact Hi).
  rewrite (map_nth (east_west_factor_at factor)).
  rewrite Forall_forall in H. apply H. apply nth_In. exact Hi.
Qed.

(** On a fully numbered table, [mesh_skeleton] returns once the fuel covers
    the longest row and column; its key nodes are the nodes of the key places,
    as many as there are key places. *)
Lemma mesh_skeleton_full_grid (fuel : nat) (t : lookup_table) (n : nat)
    (factor : Z) (lat : list R) :
  fully_numbered t n ->
  factor <> 0%Z ->
  (n_rows t <= length lat)%nat ->
  Forall (fun phi => east_west_factor_at factor phi <> 0%Z) lat ->
  (n_rows t <= S fuel)%nat -> (n_cols t <= S fuel)%nat ->
  exists mask restore,
    mesh_skeleton fuel t factor lat = Ok (Restriction n mask, restore) /\
    length mask = n /\
    (forall x, In x (places t) ->
       nth (Z.to_nat (node_of t x)) mask false
       = key_place t factor (length lat)
           (map (east_west_factor_at factor) lat) x) /\
    count_true mask
    = count_true (map (key_place t factor (length lat)
                         (map (east_west_factor_at factor) lat)) (places t)) /\
    forall p, matmul restore (repeat p (count_true mask)) = Ok (repeat p n).
Proof.
  intros Hfull Hfactor Hlat Hstrides Hrows Hcols.
  destruct (mesh_skeleton_strided_total t n factor (length lat)
              (map (east_west_factor_at factor) lat) Hfull Hfactor)
    with (fuel := fuel) as (s & restore & E & Hn & Lmask & Hkey).
  - rewrite length_map. exact Hlat.
  - intros i Hi. apply strides_nonzero; [exact Hstrides | lia].
  - exact Hrows.
  - exact Hcols.
  - exists (sk_is_defined s), restore.
    split; [unfold mesh_skeleton; rewrite E; reflexivity |].
    split; [exact Lmask |]. split; [exact Hkey |].
    split; [exact (count_by_places t n Hfull _ _ Lmask Hkey) |].
    intros p. rewrite <- Hn.
    exact (restore_constant _ _ _ _ _ _ _ _ p E).
Qed.

(** ** The five-by-five grid, however its nodes are numbered *)

Lemma stride_two_everywhere (lat : list R) :
  length lat = 5%nat ->
  Forall (fun phi => east_west_factor_at 2 phi = 2%Z) lat ->
  map (east_west_factor_at 2) lat = [2; 2; 2; 2; 2]%Z.
Proof.
  intros Hlen Hlat.
  do 5 (destruct lat as [| ? lat]; [discriminate |]).
  destruct lat; [| discriminate].
  repeat match goal with
         | H : Forall _ (_ :: _) |- _ => inversion H; subst; clear H
         end.
  cbn [map]. congruence.
Qed.

Lemma low_latitudes_stride_two :
  Forall (fun phi => east_west_factor_at 2 phi = 2%Z) low_latitudes.
Proof.
  pose proof PI_RGT_0 as Hpi.
  repeat constructor; apply stride_two_at_low_latitude; lra.
Qed.

(** With five rows, five columns, factor 2 and stride 2 on every row, the key
    places are those of even row and even column. *)
Lemma key_place_five (t : lookup_table) (x : nat * (nat * nat)) :
  n_rows t = 5%nat -> n_cols t = 5%nat ->
  (fst (snd x) < 5)%nat -> (snd (snd x) < 5)%nat ->
  key_place t 2 5 [2; 2; 2; 2; 2]%Z x
  = Nat.even (fst (snd x)) && Nat.even (snd (snd x)).
Proof.
  destruct x as [h [i j]]. cbn [fst snd]. intros Hr Hc Hi Hj.
  unfold key_place, row_anchor, important_row, important_col.
  cbn [fst snd]. rewrite Hr, Hc.
  do 5 (destruct i as [| i]; [do 5 (destruct j as [| j]; [reflexivity |]); lia |]).
  lia.
Qed.

(** C5, as the code has it.  On a grid of one section, five rows and five
    columns whose entries are the nodes 0 .. 24, each at one place, with
    factor 2 and latitudes that give every row the column stride
    round(2/cos(latitude)) = 2: [mesh_skeleton] returns, the key nodes are
    the nine nodes at rows 0, 2, 4 and columns 0, 2, 4, and the restoration
    operator takes the all-ones vector of length 9 to the all-ones vector of
    length 25. *)
Theorem grid5_factor_two (fuel : nat) (t : lookup_table) (lat : list R) :
  n_sections t = 1%nat -> n_rows t = 5%nat -> n_cols t = 5%nat ->
  Permutation (table_entries t) (map Z.of_nat (seq 0 25)) ->
  (4 <= fuel)%nat ->
  length lat = 5%nat ->
  Forall (fun phi => east_west_factor_at 2 phi = 2%Z) lat ->
  exists mask restore,
    mesh_skeleton fuel t 2 lat = Ok (Restriction 25 mask, restore) /\
    length mask = 25%nat /\
    (forall i j, (i < 5)%nat -> (j < 5)%nat ->
       nth (Z.to_nat (node_at t 0 i j)) mask false
       = Nat.even i && Nat.even j) /\
    count_true mask = 9%nat /\
    matmul restore (repeat (1, 1)%R 9) = Ok (repeat (1, 1)%R 25).
Proof.
  intros Hs Hr Hc Hperm Hfuel Hlen Hlat.
  pose proof (stride_two_everywhere lat Hlen Hlat) as Hstrides.
  assert (Hfull : fully_numbered t 25)
    by (apply fully_numbered_of_entries; [lia | exact Hperm]).
  destruct (mesh_skeleton_full_grid fuel t 25 2 lat Hfull)
    as (mask & restore & E & Lmask & Hkey & Hcount & Hones).
  - discriminate.
  - lia.
  - eapply Forall_impl; [| exact Hlat]. intros phi ->. discriminate.
  - lia.
  - lia.
  - rewrite Hstrides, Hlen in Hkey, Hcount.
    assert (Hnine : count_true mask = 9%nat).
    { rewrite Hcount.
      rewrite (map_ext_in _
                 (fun x => Nat.even (fst (snd x)) && Nat.even (snd (snd x)))).
      - unfold places. rewrite Hs, Hr, Hc. reflexivity.
      - intros [h [i j]] Hx. apply in_places in Hx.
        apply key_place_five; cbn [fst snd]; lia. }
    exists mask, restore. split; [exact E |]. split; [exact Lmask |].
    split; [| split; [exact Hnine |]].
    + intros i j Hi Hj.
      assert (Hx : In (0, (i, j))%nat (places t)) by (apply in_places; lia).
      pose proof (Hkey _ Hx) as Hk. unfold node_of in Hk. cbn [fst snd] in Hk.
      rewrite Hk.
      apply (key_place_five t (0, (i, j))%nat Hr Hc); cbn [fst snd]; lia.
    + pose proof (Hones (1, 1)%R) as Hone. rewrite Hnine in Hone. exact Hone.
Qed.

Lemma grid5_factor_two_witness :
  n_sections grid5 = 1%nat /\ n_rows grid5 = 5%nat /\ n_cols grid5 = 5%nat /\
  Permutation (table_entries grid5) (map Z.of_nat (seq 0 25)) /\
  (4 <= 4)%nat /\ length low_latitudes = 5%nat /\
  Forall (fun phi => east_west_factor_at 2 phi = 2%Z) low_latitudes /\
  exists mask restore,
    mesh_skeleton 4 grid5 2 low_latitudes = Ok (Restriction 25 mask, restore) /\
    length mask = 25%nat /\
    (forall i j, (i < 5)%nat -> (j < 5)%nat ->
       nth (Z.to_nat (node_at grid5 0 i j)) mask false
       = Nat.even i && Nat.even j) /\
    count_true mask = 9%nat /\
    matmul restore (repeat (1, 1)%R 9) = Ok (repeat (1, 1)%R 25).
Proof.
  split; [reflexivity |]. split; [reflexivity |]. split; [reflexivity |].
  split; [exact (Permutation_refl _) |].
  split; [lia |]. split; [reflexivity |].
  split; [exact low_latitudes_stride_two |].
  exact (grid5_factor_two 4 grid5 low_latitudes eq_refl eq_refl eq_refl
           (Permutation_refl _) (le_n 4) eq_refl low_latitudes_stride_two).
Defined.

(** X1.  On a grid without absent entries whose entries are the nodes
    0 .. n-1, each at one place, [mesh_skeleton] returns as soon as the
    factor and the column strides are not zero, there is a latitude for every
    row, and the fuel covers the longest row and column.  The key nodes are
    then the nodes in a row of anchors (a row the factor hits counting from
    the nearer end, or the first or last row) at a column the stride of the
    row hits or at the first or last column. *)
Theorem mesh_skeleton_returns_on_full_grid (fuel : nat) (t : lookup_table)
    (n : nat) (factor : Z) (lat : list R) :
  (0 < n)%nat ->
  Permutation (table_entries t) (map Z.of_nat (seq 0 n)) ->
  factor <> 0%Z ->
  (n_rows t <= length lat)%nat ->
  Forall (fun phi => east_west_factor_at factor phi <> 0%Z) lat ->
  (n_rows t <= S fuel)%nat -> (n_cols t <= S fuel)%nat ->
  exists mask restore,
    mesh_skeleton fuel t factor lat = Ok (Restriction n mask, restore) /\
    length mask = n /\
    forall h i j,
      (h < n_sections t)%nat -> (i < n_rows t)%nat -> (j < n_cols t)%nat ->
      nth (Z.to_nat (node_at t h i j)) mask false
      = key_place t factor (length lat)
          (map (east_west_factor_at factor) lat) (h, (i, j)).
Proof.
  intros Hpos Hperm Hfactor Hlat Hstrides Hrows Hcols.
  destruct (mesh_skeleton_full_grid fuel t n factor lat
              (fully_numbered_of_entries t n Hpos Hperm)
              Hfactor Hlat Hstrides Hrows Hcols)
    as (mask & restore & E & Lmask & Hkey & _).
  exists mask, restore. split; [exact E |]. split; [exact Lmask |].
  intros h i j Hh Hi Hj. apply (Hkey (h, (i, j))). apply in_places. lia.
Qed.

Lemma low_latitudes_stride_nonzero :
  Forall (fun phi => east_west_factor_at 2 phi <> 0%Z) low_latitudes.
Proof.
  eapply Forall_impl; [| exact low_latitudes_stride_two].
  intros phi ->. discriminate.
Qed.

Lemma two_nonzero : 2%Z <> 0%Z.
Proof. discriminate. Qed.

Lemma mesh_skeleton_returns_on_full_grid_witness :
  (0 < 25)%nat /\
  Permutation (table_entries grid5) (map Z.of_nat (seq 0 25)) /\
  (n_rows grid5 <= length low_latitudes)%nat /\
  (n_rows grid5 <= 5)%nat /\ (n_cols grid5 <= 5)%nat /\
  exists mask restore,
    mesh_skeleton 4 grid5 2 low_latitudes = Ok (Restriction 25 mask, restore) /\
    length mask = 25%nat /\
    forall h i j,
      (h < n_sections grid5)%nat -> (i < n_rows grid5)%nat ->
      (j < n_cols grid5)%nat ->
      nth (Z.to_nat (node_at grid5 h i j)) mask false
      = key_place grid5 2 (length low_latitudes)
          (map (east_west_factor_at 2) low_latitudes) (h, (i, j)).
Proof.
  assert (H25 : (0 < 25)%nat) by lia.
  assert (H5 : (5 <= 5)%nat) by lia.
  split; [exact H25 |]. split; [exact (Permutation_refl _) |].
  split; [exact H5 |]. split; [exact H5 |]. split; [exact H5 |].
  exact (mesh_skeleton_returns_on_full_grid 4 grid5 25 2 low_latitudes H25
           (Permutation_refl _) two_nonzero H5 low_latitudes_stride_nonzero
           H5 H5).
Defined.

(** ** Restoring after reducing *)

Lemma dup5_south_spins (fuel : nat) :
  forall distance,
    follow_loop fuel [-1; 2; 1; 1]%Z [true; false; false; true; false]
      [0; 1; 2; 3]%Z distance [true; false; false; true] = OutOfFuel /\
    follow_loop fuel [-1; 2; 1; 1]%Z [true; false; false; true; false]
      [0; 2; 1; 3]%Z distance [true; false; false; true] = OutOfFuel.
Proof.
  induction fuel as [| fuel IH]; intros distance.
  - split; reflexivity.
  - split; cbn [follow_loop forallb andb]; apply IH.
Qed.

Lemma dup5_south_walk (fuel : nat) :
  follow_graph fuel [-1; 2; 1; 1]%Z [0; 1; 2; 3]%Z
    [true; false; false; true; false] = OutOfFuel.
Proof.
  unfold follow_graph.
  change (np_take [true; false; false; true; false] [0; 1; 2; 3]%Z)
    with (Ok [true; false; false; true]).
  cbn [bind]. apply dup5_south_spins.
Qed.

Lemma dup5_spins (fuel : nat) :
  mesh_skeleton_strided fuel dup5 4 5 [4; 4; 4; 4; 4]%Z = OutOfFuel.
Proof.
  destruct fuel as [| [| fuel]]; [vm_compute; reflexivity .. |].
  unfold mesh_skeleton_strided.
  change (np_max (table_entries dup5)) with (Ok 3%Z).
  cbn [bind]. change (3 + 1 <? 0)%Z with false. cbv iota.
  change (Z.to_nat (3 + 1)) with 4%nat.
  replace (build_neibors dup5 4)
    with (Ok {| east_neibor := [-1; -1; -1; -1]%Z;
                west_neibor := [-1; -1; -1; -1]%Z;
                north_neibor := [1; 3; 1; -1]%Z;
                south_neibor := [-1; 2; 1; 1]%Z |})
    by (vm_compute; reflexivity).
  cbn [bind].
  match goal with
  | |- context [for_range ?n ?f ?x] =>
    replace (for_range n f x)
      with (Ok ([true; false; false; true; false], [true; true; true; true]))
      by (vm_compute; reflexivity)
  end.
  cbn [bind north_neibor south_neibor east_neibor west_neibor].
  match goal with
  | |- context [np_take ?a [-1; -1; -1; -1]%Z] =>
    replace (np_take a [-1; -1; -1; -1]%Z)
      with (Ok [false; false; false; false])
      by (vm_compute; reflexivity)
  end.
  cbn [bind].
  match goal with
  | |- context [np_max ?a] =>
    replace (np_max a) with (Ok 1%Z) by (vm_compute; reflexivity)
  end.
  cbn [bind].
  match goal with
  | |- context [follow_graph ?f [1; 3; 1; -1]%Z ?frum ?until] =>
    rewrite (follow_graph_more_fuel 2 f [1; 3; 1; -1]%Z frum until
               ([0; 3; 3; 3]%Z, [0; 1; 2; 0]%nat))
      by (try lia; vm_compute; reflexivity)
  end.
  cbn [bind]. cbn beta iota zeta.
  match goal with
  | |- context [follow_graph ?f [-1; -1; -1; -1]%Z [0; 3; 3; 3]%Z ?until] =>
    rewrite (follow_graph_more_fuel 0 f [-1; -1; -1; -1]%Z [0; 3; 3; 3]%Z
               until ([0; 3; 3; 3]%Z, [0; 0; 0; 0]%nat))
      by (try lia; vm_compute; reflexivity)
  end.
  cbn [bind]. cbn beta iota zeta.
  match goal with
  | |- context [follow_graph ?f [-1; 2; 1; 1]%Z ?frum ?until] =>
    change (follow_graph f [-1; 2; 1; 1]%Z frum until)
      with (follow_graph f [-1; 2; 1; 1]%Z [0; 1; 2; 3]%Z
              [true; false; false; true; false])
  end.
  rewrite dup5_south_walk. reflexivity.
Qed.

Lemma dup5_never_returns (fuel : nat) :
  mesh_skeleton fuel dup5 4 [0; 0; 0; 0; 0]%R = OutOfFuel.
Proof.
  unfold mesh_skeleton. cbn [map length]. rewrite stride_at_equator.
  rewrite dup5_spins. reflexivity.
Qed.



Section Binary64Facts.
Import PrimFloat.
#[local] Set Warnings "-inexact-float".


End Binary64Facts.

(** ** The node enumerator *)

Lemma Reqb_true (x y : R) : Reqb x y = true <-> x = y.
Proof. unfold Reqb. destruct (Req_dec_T x y); split; intros; auto; discriminate. Qed.

Lemma float_ne_false (a b : float) : float_ne a b = false -> a = b.
Proof.
  destruct a as [x |], b as [y |]; simpl; intros H; try discriminate.
  apply negb_false_iff, Reqb_true in H. congruence.
Qed.

Lemma row_ne_false (r q : mesh_row) : row_ne r q = false -> r = q.
Proof.
  destruct r as [rx ry], q as [qx qy]. unfold row_ne. simpl. intros H.
  apply orb_false_iff in H. destruct H as [Hx Hy].
  apply float_ne_false in Hx, Hy. congruence.
Qed.

Lemma row_ne_sym (r q : mesh_row) : row_ne r q = row_ne q r.
Proof.
  destruct r as [[x1 |] [y1 |]], q as [[x2 |] [y2 |]]; unfold row_ne; simpl;
    try reflexivity; unfold Reqb;
    repeat match goal with
           | |- context [Req_dec_T ?a ?b] => destruct (Req_dec_T a b)
           end; simpl; congruence.
Qed.

Ltac order_cases :=
  unfold row_le, row_lt, row_ne, float_lt, float_ne, Rltb, Reqb in *; simpl in *;
  repeat match goal with
         | H : context [Rlt_dec ?a ?b] |- _ => destruct (Rlt_dec a b)
         | |- context [Rlt_dec ?a ?b] => destruct (Rlt_dec a b)
         | H : context [Req_dec_T ?a ?b] |- _ => destruct (Req_dec_T a b)
         | |- context [Req_dec_T ?a ?b] => destruct (Req_dec_T a b)
         end; simpl in *; try discriminate; try reflexivity; try lra.

Lemma row_le_trans (a b c : mesh_row) : row_le a b -> row_le b c -> row_le a c.
Proof.
  destruct a as [[ax |] [ay |]], b as [[bx |] [by_ |]], c as [[cx |] [cy |]];
    intros H1 H2; order_cases.
Qed.

Lemma row_lt_le (a b : mesh_row) : row_lt a b = true -> row_le a b.
Proof.
  destruct a as [[ax |] [ay |]], b as [[bx |] [by_ |]]; intros H; order_cases.
Qed.

Lemma row_le_between (a b c : mesh_row) :
  row_le a b -> row_le b c -> row_ne c a = false -> row_ne b a = false.
Proof.
  destruct a as [[ax |] [ay |]], b as [[bx |] [by_ |]], c as [[cx |] [cy |]];
    intros H1 H2 H3; order_cases.
Qed.

Lemma row_le_nan (a b : mesh_row) :
  row_le a b -> isnan (fst a) = true -> isnan (fst b) = true.
Proof.
  destruct a as [[ax |] [ay |]], b as [[bx |] [by_ |]]; intros H1 H2;
    order_cases.
Qed.

Lemma insert_row_perm (x : nat * mesh_row) (l : list (nat * mesh_row)) :
  Permutation (insert_row x l) (x :: l).
Proof.
  induction l as [| y l IH]; simpl.
  - apply Permutation_refl.
  - destruct (row_lt (snd x) (snd y)).
    + apply Permutation_refl.
    + eapply perm_trans; [apply perm_skip, IH | apply perm_swap].
Qed.

Lemma insert_row_sorted (x : nat * mesh_row) (l : list (nat * mesh_row)) :
  StronglySorted indexed_le l -> StronglySorted indexed_le (insert_row x l).
Proof.
  induction 1 as [| y l Hl IH Hy]; simpl.
  - repeat constructor.
  - destruct (row_lt (snd x) (snd y)) eqn:E.
    + constructor; [constructor; assumption |].
      constructor; [exact (row_lt_le _ _ E) |].
      eapply Forall_impl; [| exact Hy].
      intros z Hz. unfold indexed_le in *.
      eapply row_le_trans; [exact (row_lt_le _ _ E) | exact Hz].
    + constructor; [exact IH |].
      eapply Permutation_Forall; [apply Permutation_sym, insert_row_perm |].
      constructor; [exact E | exact Hy].
Qed.

Lemma fold_insert_row (l acc : list (nat * mesh_row)) :
  StronglySorted indexed_le acc ->
  Permutation (fold_left (fun acc x => insert_row x acc) l acc) (l ++ acc) /\
  StronglySorted indexed_le (fold_left (fun acc x => insert_row x acc) l acc).
Proof.
  revert acc. induction l as [| x l IH]; simpl; intros acc Hacc.
  - split; [apply Permutation_refl | exact Hacc].
  - destruct (IH (insert_row x acc) (insert_row_sorted x acc Hacc)) as [P S].
    split; [| exact S].
    eapply perm_trans; [exact P |].
    eapply perm_trans; [apply Permutation_app_head, insert_row_perm |].
    apply Permutation_sym, Permutation_middle.
Qed.

Lemma argsort_rows_spec (rows : list mesh_row) :
  Permutation (argsort_rows rows) (combine (seq 0 (length rows)) rows) /\
  StronglySorted indexed_le (argsort_rows rows).
Proof.
  unfold argsort_rows.
  destruct (fold_insert_row (combine (seq 0 (length rows)) rows) [])
    as [P S]; [constructor |].
  rewrite app_nil_r in P. auto.
Qed.

(** The scan: every sorted row is sent to a kept row equal to it. *)
Lemma unique_scan_inverse (l : list (nat * mesh_row)) :
  forall prev count u inv pre,
    unique_scan prev count l = (u, inv) ->
    length pre = count ->
    match prev with
    | None => pre = []
    | Some q => exists pre', pre = pre' ++ [q]
    end ->
    Forall2 (fun x y => fst y = fst x /\ (snd y < length (pre ++ u))%nat /\
                        forall d, nth (snd y) (pre ++ u) d = snd x) l inv.
Proof.
  induction l as [| [p r] l IH]; intros prev count u inv pre H Hlen Hprev;
    cbn [unique_scan] in H.
  - injection H as <- <-. constructor.
  - set (keep := match prev with
                 | None => true
                 | Some q => row_ne r q
                 end) in *.
    destruct (unique_scan (Some r) (if keep then S count else count) l)
      as [u' inv'] eqn:E.
    injection H as <- <-.
    destruct keep eqn:K.
    + specialize (IH _ _ _ _ (pre ++ [r]) E).
      rewrite <- app_assoc in IH. simpl in IH.
      constructor.
      * simpl. split; [reflexivity |]. rewrite length_app. simpl.
        split; [lia |]. intros d. replace (count - 0)%nat with (length pre) by lia.
        rewrite nth_middle. reflexivity.
      * apply IH; [rewrite length_app; simpl; lia | eauto].
    + destruct prev as [q |]; [| discriminate]. subst keep.
      apply row_ne_false in K. subst q.
      destruct Hprev as [pre' ->].
      rewrite length_app in Hlen. simpl in Hlen.
      constructor.
      * simpl. split; [reflexivity |]. rewrite !length_app. simpl.
        split; [lia |]. intros d. rewrite <- app_assoc. simpl.
        replace (count - 1)%nat with (length pre') by lia.
        rewrite nth_middle. reflexivity.
      * apply (IH _ _ _ _ (pre' ++ [r]) E);
          [rewrite length_app; simpl; lia | eauto].
Qed.

(** The scan: kept rows come from the sorted rows, in order, and differ
    pairwise. *)
Lemma unique_scan_kept (l : list (nat * mesh_row)) :
  forall prev count u inv,
    unique_scan prev count l = (u, inv) ->
    StronglySorted indexed_le l ->
    (forall q, prev = Some q -> Forall (fun x => row_le q (snd x)) l) ->
    (forall r, In r u -> In r (map snd l)) /\
    StronglySorted row_le u /\
    StronglySorted rows_differ u /\
    (forall q, prev = Some q ->
       Forall (fun r => row_le q r /\ row_ne r q = true) u).
Proof.
  induction l as [| [p r] l IH]; intros prev count u inv H Hs Hprev;
    cbn [unique_scan] in H.
  - injection H as <- <-. repeat split; try constructor. intros r [].
  - set (keep := match prev with
                 | None => true
                 | Some q => row_ne r q
                 end) in *.
    destruct (unique_scan (Some r) (if keep then S count else count) l)
      as [u' inv'] eqn:E.
    injection H as <- <-.
    inversion Hs as [| ? ? Hs' Hr]; subst.
    destruct (IH _ _ _ _ E Hs') as (Hin & Hsorted & Hdiff & Hafter).
    { intros q Hq. injection Hq as <-. exact Hr. }
    specialize (Hafter r eq_refl).
    destruct keep eqn:K.
    + repeat split.
      * intros x [<- | Hx]; simpl; auto.
      * constructor; [exact Hsorted |].
        eapply Forall_impl; [| exact Hafter]. intros x [Hx _]. exact Hx.
      * constructor; [exact Hdiff |].
        eapply Forall_impl; [| exact Hafter]. intros x [_ Hx]. exact Hx.
      * intros q Hq. subst prev. subst keep.
        specialize (Hprev q eq_refl). inversion Hprev as [| ? ? Hqr Hql]; subst.
        simpl in Hqr. constructor; [auto |].
        rewrite Forall_forall in *. intros x Hx.
        destruct (Hafter x Hx) as [Hrx Hne].
        split; [eapply row_le_trans; eassumption |].
        destruct (row_ne x q) eqn:Exq; [reflexivity |].
        rewrite (row_le_between q r x Hqr Hrx Exq) in K. discriminate.
    + destruct prev as [q |]; [| discriminate]. subst keep.
      apply row_ne_false in K. subst q.
      repeat split.
      * intros x Hx. simpl. auto.
      * exact Hsorted.
      * exact Hdiff.
      * intros q Hq. injection Hq as <-. exact Hafter.
Qed.

Lemma Forall2_In_left {A B : Type} (P : A -> B -> Prop) (l : list A)
    (l' : list B) (x : A) :
  Forall2 P l l' -> In x l -> exists y, In y l' /\ P x y.
Proof.
  induction 1 as [| a b l l' Hab _ IH]; simpl; intros Hx; [contradiction |].
  destruct Hx as [<- | Hx]; [eauto |].
  destruct (IH Hx) as (y & Hy & Hxy). eauto.
Qed.

Lemma assoc_nat_In (l : list (nat * nat)) (p v : nat) :
  NoDup (map fst l) -> In (p, v) l -> assoc_nat p l = v.
Proof.
  induction l as [| [q w] l IH]; simpl; intros Hnd Hin; [contradiction |].
  inversion Hnd as [| ? ? Hq Hnd']; subst.
  destruct Hin as [E | Hin].
  - injection E as -> ->. rewrite Nat.eqb_refl. reflexivity.
  - destruct (Nat.eqb_spec p q) as [-> | _]; [| auto].
    exfalso. apply Hq. apply in_map_iff. exists (q, v). auto.
Qed.

Lemma map_fst_combine_seq {A : Type} (rows : list A) (a : nat) :
  map fst (combine (seq a (length rows)) rows) = seq a (length rows).
Proof.
  revert a. induction rows as [| r rows IH]; intros a; simpl;
    [reflexivity | rewrite IH; reflexivity].
Qed.

Lemma In_combine_seq {A : Type} (rows : list A) (a p : nat) (d : A) :
  (p < length rows)%nat ->
  In ((a + p)%nat, nth p rows d) (combine (seq a (length rows)) rows).
Proof.
  revert a p. induction rows as [| r rows IH]; intros a [| p] Hp; simpl in *;
    try lia.
  - left. f_equal. lia.
  - right. replace (a + S p)%nat with (S a + p)%nat by lia. apply IH. lia.
Qed.

Lemma np_unique_rows_spec (rows u : list mesh_row) (idx : list nat) :
  np_unique_rows rows = (u, idx) ->
  length idx = length rows /\
  (forall p, (p < length rows)%nat ->
     (nth p idx O < length u)%nat /\
     forall d d', nth (nth p idx O) u d = nth p rows d') /\
  (forall r, In r u -> In r rows) /\
  StronglySorted row_le u /\ StronglySorted rows_differ u.
Proof.
  unfold np_unique_rows.
  destruct (unique_scan None 0 (argsort_rows rows)) as [u' inv] eqn:E.
  intros H. injection H as <- <-.
  destruct (argsort_rows_spec rows) as [P S].
  pose proof (unique_scan_inverse _ _ _ _ _ [] E eq_refl eq_refl) as Hinv.
  simpl in Hinv.
  destruct (unique_scan_kept _ _ _ _ _ E S) as (Hin & Hsorted & Hdiff & _);
    [discriminate |].
  assert (Hkeys : map fst inv = map fst (argsort_rows rows)).
  { clear - Hinv. induction Hinv as [| x y l l' [Hxy _] _ IH]; simpl;
      [reflexivity | rewrite Hxy, IH; reflexivity]. }
  assert (Hnd : NoDup (map fst inv)).
  { rewrite Hkeys. eapply Permutation_NoDup.
    - apply Permutation_sym, Permutation_map, P.
    - rewrite map_fst_combine_seq. apply seq_NoDup. }
  split; [rewrite length_map, length_seq; reflexivity |]. split; [| split].
  - intros p Hp.
    assert (Enth : nth p (map (fun p => assoc_nat p inv) (seq 0 (length rows))) O
                   = assoc_nat p inv).
    { rewrite (nth_indep _ O (assoc_nat O inv))
        by (rewrite length_map, length_seq; exact Hp).
      rewrite (map_nth (fun p => assoc_nat p inv) (seq 0 (length rows)) O p).
      rewrite seq_nth by exact Hp. reflexivity. }
    rewrite Enth.
    assert (Hmem : In (p, nth p rows (NaN, NaN)) (argsort_rows rows)).
    { eapply Permutation_in; [apply Permutation_sym, P |].
      exact (In_combine_seq rows 0 p (NaN, NaN) Hp). }
    destruct (Forall2_In_left _ _ _ _ Hinv Hmem) as ([q v] & Hy & Hq & Hv & Hrow).
    simpl in Hq, Hv, Hrow. subst q.
    rewrite (assoc_nat_In _ _ _ Hnd Hy).
    split; [exact Hv |]. intros d d'. rewrite Hrow.
    apply nth_indep. exact Hp.
  - intros r Hr. specialize (Hin r Hr). apply in_map_iff in Hin.
    destruct Hin as ([p r'] & <- & Hmem). simpl.
    eapply Permutation_in in Hmem; [| exact P].
    apply in_combine_r in Hmem. exact Hmem.
  - split; assumption.
Qed.

Lemma first_true_sorted (u : list mesh_row) :
  StronglySorted row_le u ->
  match first_true (fun r => isnan (fst r)) u with
  | None => Forall (fun r => isnan (fst r) = false) u
  | Some k =>
      (k < length u)%nat /\
      Forall (fun r => isnan (fst r) = false) (firstn k u) /\
      Forall (fun r => isnan (fst r) = true) (skipn k u)
  end.
Proof.
  induction 1 as [| a u Hu IH Ha]; cbn [first_true].
  - constructor.
  - destruct (isnan (fst a)) eqn:E.
    + simpl. split; [lia |]. split; [constructor |].
      constructor; [exact E |].
      eapply Forall_impl; [| exact Ha].
      intros r Hr. exact (row_le_nan _ _ Hr E).
    + destruct (first_true (fun r => isnan (fst r)) u) as [k |]; simpl.
      * destruct IH as (Hk & Hf & Hs). split; [lia |].
        split; [constructor; assumption | exact Hs].
      * constructor; assumption.
Qed.


Lemma Forall_nth_firstn {A : Type} (P : A -> Prop) (l : list A) (n k : nat) (d : A) :
  Forall P (firstn n l) -> (k < n)%nat -> (k < length l)%nat -> P (nth k l d).
Proof.
  intros H Hk Hl. rewrite Forall_forall in H. apply H.
  rewrite <- (nth_of_firstn l n k d Hk).
  apply nth_In. rewrite length_firstn. lia.
Qed.

Lemma Forall_nth_skipn {A : Type} (P : A -> Prop) (l : list A) (n k : nat) (d : A) :
  Forall P (skipn n l) -> (n <= k)%nat -> (k < length l)%nat -> P (nth k l d).
Proof.
  intros H Hk Hl. rewrite Forall_forall in H. apply H.
  assert (E : nth k l d = nth (k - n) (skipn n l) d).
  { rewrite nth_skipn. f_equal. lia. }
  rewrite E. apply nth_In. rewrite length_skipn. lia.
Qed.

(** ** The mesh as a flat list *)

Lemma flat_map_blocks {A : Type} (f : nat -> list A) (L : nat) :
  (forall h, length (f h) = L) ->
  forall H a,
    length (flat_map f (seq a H)) = (H * L)%nat /\
    forall h q d, (h < H)%nat -> (q < L)%nat ->
      nth (h * L + q) (flat_map f (seq a H)) d = nth q (f (a + h)%nat) d.
Proof.
  intros Hf H. induction H as [| H IH]; intros a; simpl.
  - split; [reflexivity |]. intros; lia.
  - destruct (IH (S a)) as [Hlen Hnth]. split.
    + rewrite length_app, Hlen, Hf. reflexivity.
    + intros [| h] q d Hh Hq.
      * simpl. rewrite app_nth1 by (rewrite Hf; exact Hq).
        rewrite Nat.add_0_r. reflexivity.
      * rewrite app_nth2 by (rewrite Hf; simpl; lia).
        rewrite Hf. replace (S h * L + q - L)%nat with (h * L + q)%nat
          by (simpl; lia).
        rewrite Hnth by lia. f_equal. f_equal. lia.
Qed.

Lemma flat_positions_spec (m : mesh_grid) :
  length (flat_positions m) = (mesh_sections m * (mesh_rows m * mesh_cols m))%nat /\
  forall h i j d,
    (h < mesh_sections m)%nat -> (i < mesh_rows m)%nat -> (j < mesh_cols m)%nat ->
    ((h * mesh_rows m + i) * mesh_cols m + j < length (flat_positions m))%nat /\
    nth ((h * mesh_rows m + i) * mesh_cols m + j) (flat_positions m) d
      = position_at m h i j.
Proof.
  pose (row := fun h i => map (fun j => position_at m h i j) (seq 0 (mesh_cols m))).
  pose (section := fun h => flat_map (row h) (seq 0 (mesh_rows m))).
  assert (Eflat : flat_positions m = flat_map section (seq 0 (mesh_sections m)))
    by reflexivity.
  rewrite Eflat. clear Eflat.
  assert (Lrow : forall h i, length (row h i) = mesh_cols m)
    by (intros; unfold row; rewrite length_map, length_seq; reflexivity).
  assert (Lsec : forall h, length (section h) = (mesh_rows m * mesh_cols m)%nat).
  { intros h. unfold section.
    apply (flat_map_blocks (row h) (mesh_cols m) (Lrow h)). }
  destruct (flat_map_blocks section _ Lsec (mesh_sections m) 0) as [Hlen Hnth].
  split; [exact Hlen |].
  intros h i j d Hh Hi Hj.
  assert (Hq : (i * mesh_cols m + j < mesh_rows m * mesh_cols m)%nat) by nia.
  split; [rewrite Hlen; nia |].
  replace ((h * mesh_rows m + i) * mesh_cols m + j)%nat
    with (h * (mesh_rows m * mesh_cols m) + (i * mesh_cols m + j))%nat by ring.
  rewrite Hnth by assumption. simpl. unfold section.
  destruct (flat_map_blocks (row h) (mesh_cols m) (Lrow h) (mesh_rows m) 0)
    as [_ Hnth2].
  rewrite Hnth2 by assumption. simpl. unfold row.
  rewrite (nth_indep _ d (position_at m h i 0))
    by (rewrite length_map, length_seq; exact Hj).
  rewrite (map_nth (fun j => position_at m h i j)), seq_nth by exact Hj.
  reflexivity.
Qed.

Lemma In_firstn_In {A : Type} (l : list A) (n : nat) (x : A) :
  In x (firstn n l) -> In x l.
Proof.
  intros H. rewrite <- (firstn_skipn n l). apply in_or_app. auto.
Qed.

Lemma StronglySorted_firstn {A : Type} (R : A -> A -> Prop) (l : list A) (n : nat) :
  StronglySorted R l -> StronglySorted R (firstn n l).
Proof.
  intros H. revert n. induction H as [| a l Hl IH Ha]; intros [| n]; simpl;
    try constructor.
  - apply IH.
  - rewrite Forall_forall in *. intros x Hx. apply Ha.
    eapply In_firstn_In; eassumption.
Qed.



(** ** What [follow_graph] returns and when it raises *)

Lemma follow_loop_path (fuel : nat) (progression : list Z) (until : list bool) :
  forall state distance arrived state' distance',
    np_take until state = Ok arrived ->
    length distance = length state ->
    follow_loop fuel progression until state distance arrived
      = Ok (state', distance') ->
    forall k, (k < length state)%nat ->
      exists d,
        nth k distance' O = (nth k distance O + d)%nat /\
        follow_steps progression d (nth k state 0%Z) = Ok (nth k state' 0%Z) /\
        np_index until (nth k state' 0%Z) = Ok true /\
        forall d', (d' < d)%nat ->
          exists s, follow_steps progression d' (nth k state 0%Z) = Ok s /\
                    np_index until s = Ok false.
Proof.
  induction fuel as [| fuel IH]; intros state distance arrived state' distance'
    Harr Hlen H k Hk; cbn [follow_loop] in H;
    destruct (forallb (fun a => a) arrived) eqn:Hall.
  - injection H as <- <-. exists O. rewrite Nat.add_0_r.
    split; [reflexivity |]. split; [reflexivity |]. split; [| intros; lia].
    rewrite (np_take_nth _ _ _ k 0%Z false Harr Hk). f_equal.
    apply forallb_nth; [exact Hall |].
    rewrite (np_take_length _ _ _ Harr). exact Hk.
  - discriminate.
  - injection H as <- <-. exists O. rewrite Nat.add_0_r.
    split; [reflexivity |]. split; [reflexivity |]. split; [| intros; lia].
    rewrite (np_take_nth _ _ _ k 0%Z false Harr Hk). f_equal.
    apply forallb_nth; [exact Hall |].
    rewrite (np_take_length _ _ _ Harr). exact Hk.
  - inv_bind_as H next Hnext.
    destruct (stuck arrived next state); [discriminate |].
    inv_bind_as H arrived2 Harr2.
    pose proof (np_take_length _ _ _ Harr) as La.
    pose proof (np_take_length _ _ _ Hnext) as Ln.
    pose proof (length_advance arrived next state La Ln) as Ls.
    assert (Ld : length (count_step arrived distance) = length distance)
      by (apply length_count_step; lia).
    assert (Hl2 : length (count_step arrived distance)
                  = length (advance arrived next state)) by lia.
    assert (Hk2 : (k < length (advance arrived next state))%nat) by lia.
    destruct (IH _ _ _ _ _ Harr2 Hl2 H k Hk2) as (d & Ed & Ew & Hu & Hbefore).
    rewrite nth_advance in Ew, Hbefore by assumption.
    rewrite nth_count_step in Ed by lia.
    pose proof (np_take_nth _ _ _ k 0%Z false Harr Hk) as Ha.
    pose proof (np_take_nth _ _ _ k 0%Z 0%Z Hnext Hk) as Hn.
    destruct (nth k arrived false) eqn:Ek.
    + (* already arrived: the walker stays *)
      destruct d as [| d].
      * exists O. split; [lia |]. split; [exact Ew |]. split; [exact Hu |].
        intros; lia.
      * destruct (Hbefore O) as (s & Es & Hs); [lia |].
        cbn [follow_steps] in Es. injection Es as <-. congruence.
    + exists (S d). split; [lia |]. split.
      * cbn [follow_steps]. rewrite Hn. cbn [bind]. exact Ew.
      * split; [exact Hu |]. intros [| d'] Hd'.
        -- exists (nth k state 0%Z). split; [reflexivity | exact Ha].
        -- destruct (Hbefore d') as (s & Es & Hs); [lia |].
           exists s. split; [| exact Hs].
           cbn [follow_steps]. rewrite Hn. cbn [bind]. exact Es.
Qed.

(** X2.  When [follow_graph] returns, every walker stands on the first node of
    its path where [until] holds, and its distance is the number of steps to
    that node: [state[k]] is reached from [frum[k]] by [distance[k]] steps of
    [progression], [until[state[k]]] holds, and [until] fails at every node
    the walker passed before. *)
Theorem follow_graph_first_arrival (fuel : nat) (progression frum : list Z)
    (until : list bool) (state : list Z) (distance : list nat) :
  follow_graph fuel progression frum until = Ok (state, distance) ->
  forall k, (k < length frum)%nat ->
    follow_steps progression (nth k distance O) (nth k frum 0%Z)
      = Ok (nth k state 0%Z) /\
    np_index until (nth k state 0%Z) = Ok true /\
    forall d, (d < nth k distance O)%nat ->
      exists s, follow_steps progression d (nth k frum 0%Z) = Ok s /\
                np_index until s = Ok false.
Proof.
  unfold follow_graph. intros H k Hk. inv_bind_as H arrived Harr.
  destruct (follow_loop_path _ _ _ _ _ _ _ _ Harr
              (repeat_length O (length frum)) H k Hk)
    as (d & Ed & Ew & Hu & Hbefore).
  rewrite nth_repeat_lt in Ed by exact Hk. simpl in Ed. subst d.
  split; [exact Ew |]. split; [exact Hu | exact Hbefore].
Qed.

Lemma follow_graph_first_arrival_witness :
  follow_graph 3 [1; 2; 2]%Z [0; 1; 2]%Z [false; false; true]
    = Ok ([2; 2; 2]%Z, [2; 1; 0]%nat) /\
  forall k, (k < 3)%nat ->
    follow_steps [1; 2; 2]%Z (nth k [2; 1; 0]%nat O) (nth k [0; 1; 2]%Z 0%Z)
      = Ok (nth k [2; 2; 2]%Z 0%Z) /\
    np_index [false; false; true] (nth k [2; 2; 2]%Z 0%Z) = Ok true /\
    forall d, (d < nth k [2; 1; 0]%nat O)%nat ->
      exists s, follow_steps [1; 2; 2]%Z d (nth k [0; 1; 2]%Z 0%Z) = Ok s /\
                np_index [false; false; true] s = Ok false.
Proof.
  split; [reflexivity |].
  exact (follow_graph_first_arrival 3 [1; 2; 2]%Z [0; 1; 2]%Z
           [false; false; true] [2; 2; 2]%Z [2; 1; 0]%nat eq_refl).
Defined.

Lemma np_index_valid {A : Type} (a : list A) (i : Z) :
  index_of (length a) i -> exists x, np_index a i = Ok x /\ In x a.
Proof.
  unfold index_of, np_index. intros Hi.
  set (k := if (i <? 0)%Z then (i + Z.of_nat (length a))%Z else i).
  assert (Hk : (0 <= k < Z.of_nat (length a))%Z).
  { unfold k. destruct (Z.ltb_spec i 0); lia. }
  destruct (Z.leb_spec 0 k); [| lia].
  destruct (Z.ltb_spec k (Z.of_nat (length a))); [| lia].
  cbn [andb].
  destruct (nth_error a (Z.to_nat k)) as [x |] eqn:E.
  - exists x. split; [reflexivity |]. eapply nth_error_In. exact E.
  - apply nth_error_None in E. lia.
Qed.

Lemma index_of_le (n m : nat) (i : Z) :
  index_of n i -> (n <= m)%nat -> index_of m i.
Proof. unfold index_of. lia. Qed.

Lemma stuck_true (arrived : list bool) (next state : list Z) (k : nat) :
  length arrived = length state -> length next = length state ->
  (k < length state)%nat ->
  nth k arrived false = false -> nth k next 0%Z = nth k state 0%Z ->
  stuck arrived next state = true.
Proof.
  unfold stuck. revert arrived next k.
  induction state as [| s state IH]; intros [| a arrived] [| n next] [| k];
    simpl; intros H1 H2 Hk Ha Hn; try lia.
  - subst a n. rewrite Z.eqb_refl. reflexivity.
  - rewrite (IH arrived next k) by (assumption || lia). apply orb_true_r.
Qed.

Lemma Forall_advance (P : Z -> Prop) (arrived : list bool) (next state : list Z) :
  Forall P next -> Forall P state -> Forall P (advance arrived next state).
Proof.
  intros Hn Hs. unfold advance. apply Forall_forall. intros x Hx.
  apply in_map_iff in Hx. destruct Hx as ([a [n s]] & <- & Hin).
  apply in_combine_r in Hin.
  pose proof (in_combine_l _ _ _ _ Hin) as Hin1.
  pose proof (in_combine_r _ _ _ _ Hin) as Hin2.
  rewrite Forall_forall in Hn, Hs. destruct a; auto.
Qed.

Lemma follow_loop_self_loop (progression : list Z) (until : list bool)
    (k : nat) (s : Z) :
  (length progression <= length until)%nat ->
  Forall (index_of (length progression)) progression ->
  np_index progression s = Ok s ->
  forall d fuel state distance arrived,
    Forall (index_of (length progression)) state ->
    np_take until state = Ok arrived ->
    (k < length state)%nat ->
    follow_steps progression d (nth k state 0%Z) = Ok s ->
    (forall d', (d' <= d)%nat ->
       exists s', follow_steps progression d' (nth k state 0%Z) = Ok s' /\
                  np_index until s' = Ok false) ->
    (d < fuel)%nat ->
    follow_loop fuel progression until state distance arrived
      = Raise ValueError.
Proof.
  intros Hlen Hprog Hself.
  assert (Htake : forall state, Forall (index_of (length progression)) state ->
            (exists next, np_take progression state = Ok next /\
                          Forall (index_of (length progression)) next) /\
            exists arrived, np_take until state = Ok arrived).
  { intros state Hstate. rewrite Forall_forall in Hstate. split.
    - destruct (np_take_total progression state) as [next Hnext].
      { intros i Hi. destruct (np_index_valid progression i (Hstate i Hi))
          as (x & Hx & _). eauto. }
      exists next. split; [exact Hnext |]. apply Forall_forall. intros x Hx.
      destruct (In_nth _ _ 0%Z Hx) as (j & Hj & <-).
      rewrite (np_take_length _ _ _ Hnext) in Hj.
      pose proof (np_take_nth _ _ _ j 0%Z 0%Z Hnext Hj) as E.
      destruct (np_index_valid progression (nth j state 0%Z))
        as (y & Hy & Hin); [apply Hstate, nth_In; exact Hj |].
      rewrite Hy in E. injection E as <-.
      rewrite Forall_forall in Hprog. apply Hprog. exact Hin.
    - apply np_take_total. intros i Hi.
      destruct (np_index_valid until i) as (x & Hx & _); [| eauto].
      eapply index_of_le; [apply Hstate; exact Hi | exact Hlen]. }
  induction d as [| d IH]; intros fuel state distance arrived Hstate Harr Hk
    Hwalk Hbefore Hfuel;
    (destruct fuel as [| fuel]; [lia |]); cbn [follow_loop];
    pose proof (np_take_nth _ _ _ k 0%Z false Harr Hk) as Hak;
    (destruct (Hbefore O) as (s0 & Es0 & Hs0); [lia |]);
    cbn [follow_steps] in Es0; injection Es0 as <-;
    rewrite Hs0 in Hak; injection Hak as Hak;
    (destruct (forallb (fun a => a) arrived) eqn:Hall;
     [apply forallb_nth with (k := k) in Hall;
      [congruence | rewrite (np_take_length _ _ _ Harr); exact Hk] |]);
    destruct (Htake state Hstate) as [(next & Hnext & Hnext_valid) _];
    rewrite Hnext; cbn [bind];
    pose proof (np_take_length _ _ _ Harr) as La;
    pose proof (np_take_length _ _ _ Hnext) as Ln;
    pose proof (np_take_nth _ _ _ k 0%Z 0%Z Hnext Hk) as Hnk;
    destruct (stuck arrived next state) eqn:Hstuck; try reflexivity.
  - cbn [follow_steps] in Hwalk. injection Hwalk as Hwalk.
    rewrite Hwalk, Hself in Hnk. injection Hnk as Hnk.
    rewrite (stuck_true arrived next state k) in Hstuck;
      [discriminate | assumption | assumption | assumption | congruence
      | congruence].
  - pose proof (Forall_advance _ arrived next state Hnext_valid Hstate) as Hadv.
    destruct (Htake _ Hadv) as [_ (arrived2 & Harr2)].
    rewrite Harr2. cbn [bind].
    pose proof (length_advance arrived next state La Ln) as Ls.
    assert (Ek : nth k (advance arrived next state) 0%Z = nth k next 0%Z).
    { rewrite nth_advance by assumption. rewrite <- Hak. reflexivity. }
    apply (IH fuel _ _ arrived2 Hadv Harr2).
    + lia.
    + rewrite Ek. cbn [follow_steps] in Hwalk. rewrite Hnk in Hwalk. exact Hwalk.
    + intros d' Hd'. destruct (Hbefore (S d')) as (s' & Es' & Hs'); [lia |].
      exists s'. split; [| exact Hs'].
      rewrite Ek. cbn [follow_steps] in Es'. rewrite Hnk in Es'. exact Es'.
    + lia.
Qed.

(** X3.  [follow_graph] raises [ValueError] as soon as a walker that has not
    arrived stands on a node that is its own successor: given arrays whose
    indices are all valid, a walker whose path reaches such a node before any
    node where [until] holds makes the call raise, whatever the other walkers
    do. *)
Theorem follow_graph_raises_at_self_loop (fuel : nat)
    (progression frum : list Z) (until : list bool) (k d : nat) (s : Z) :
  (length progression <= length until)%nat ->
  Forall (index_of (length progression)) progression ->
  Forall (index_of (length progression)) frum ->
  (k < length frum)%nat ->
  follow_steps progression d (nth k frum 0%Z) = Ok s ->
  (forall d', (d' <= d)%nat ->
     exists s', follow_steps progression d' (nth k frum 0%Z) = Ok s' /\
                np_index until s' = Ok false) ->
  np_index progression s = Ok s ->
  (d < fuel)%nat ->
  follow_graph fuel progression frum until = Raise ValueError.
Proof.
  intros Hlen Hprog Hfrum Hk Hwalk Hbefore Hself Hfuel. unfold follow_graph.
  destruct (np_take_total until frum) as [arrived Harr].
  { intros i Hi. rewrite Forall_forall in Hfrum.
    destruct (np_index_valid until i) as (x & Hx & _); [| eauto].
    eapply index_of_le; [apply Hfrum; exact Hi | exact Hlen]. }
  rewrite Harr. cbn [bind].
  exact (follow_loop_self_loop progression until k s Hlen Hprog Hself d fuel
           frum _ arrived Hfrum Harr Hk Hwalk Hbefore Hfuel).
Qed.

Lemma self_loop_indices :
  Forall (index_of (length [1; 1; 0]%Z)) [1; 1; 0]%Z /\
  Forall (index_of (length [1; 1; 0]%Z)) [0; 2]%Z.
Proof. split; repeat constructor; unfold index_of; simpl; lia. Qed.

Lemma self_loop_path :
  forall d', (d' <= 1)%nat ->
    exists s', follow_steps [1; 1; 0]%Z d' (nth 0 [0; 2]%Z 0%Z) = Ok s' /\
               np_index [false; false; false] s' = Ok false.
Proof.
  intros [| [| d']] H; [exists 0%Z | exists 1%Z | lia]; split; reflexivity.
Qed.

Lemma follow_graph_raises_at_self_loop_witness :
  (length [1; 1; 0]%Z <= length [false; false; false])%nat /\
  (0 < length [0; 2]%Z)%nat /\
  follow_steps [1; 1; 0]%Z 1 (nth 0 [0; 2]%Z 0%Z) = Ok 1%Z /\
  np_index [1; 1; 0]%Z 1 = Ok 1%Z /\
  (1 < 2)%nat /\
  follow_graph 2 [1; 1; 0]%Z [0; 2]%Z [false; false; false] = Raise ValueError.
Proof.
  assert (H1 : (length [1; 1; 0]%Z <= length [false; false; false])%nat)
    by (simpl; lia).
  assert (H2 : (0 < length [0; 2]%Z)%nat) by (simpl; lia).
  assert (H3 : (1 < 2)%nat) by lia.
  split; [exact H1 |]. split; [exact H2 |]. split; [reflexivity |].
  split; [reflexivity |]. split; [exact H3 |].
  exact (follow_graph_raises_at_self_loop 2 [1; 1; 0]%Z [0; 2]%Z
           [false; false; false] 0 1 1%Z H1 (proj1 self_loop_indices)
           (proj2 self_loop_indices) H2 eq_refl self_loop_path eq_refl H3).
Defined.

(** ** Interpolation weights *)

Lemma interpolation_weit_order (da db : nat) :
  ((da <= db)%nat ->
   snd (interpolation_weit da db) <= fst (interpolation_weit da db))%R /\
  ((db <= da)%nat -> (0 < da)%nat ->
   fst (interpolation_weit da db) <= snd (interpolation_weit da db))%R /\
  (da = O -> fst (interpolation_weit da db) = 1%R
             /\ snd (interpolation_weit da db) = 0%R) /\
  (db = O -> da <> O -> fst (interpolation_weit da db) = 0%R
                        /\ snd (interpolation_weit da db) = 1%R).
Proof.
  unfold interpolation_weit. cbn [fst snd].
  destruct (Nat.eqb_spec (da + db) 0) as [E | E].
  - assert (da = O) by lia. assert (db = O) by lia. subst.
    repeat split; intros; try lra; lia.
  - assert (Hpos : (0 < INR da + INR db)%R)
      by (rewrite <- plus_INR; apply lt_0_INR; lia).
    rewrite plus_INR.
    assert (Hwa : (INR db / (INR da + INR db) * (INR da + INR db) = INR db)%R)
      by (field; lra).
    set (wa := (INR db / (INR da + INR db))%R) in *.
    repeat split.
    + intros Hle. apply le_INR in Hle. nra.
    + intros Hle _. apply le_INR in Hle. nra.
    + subst da. simpl INR in *. nra.
    + subst da. simpl INR in *. nra.
    + subst db. simpl INR in *.
      assert (0 < INR da)%R by (apply lt_0_INR; lia). nra.
    + subst db. simpl INR in *.
      assert (0 < INR da)%R by (apply lt_0_INR; lia). nra.
Qed.

(** X4.  For two distance arrays of one length, [get_interpolation_weits]
    returns two weight arrays of that length.  At every index the two weights
    lie between 0 and 1; the reference that is not the farther one gets the
    weight that is not the smaller one; and a reference at distance 0 gets
    weight 1 and the other one weight 0 (the first reference when both
    distances are 0). *)
Theorem interpolation_weits_favor_nearer (distance_a distance_b : list nat) :
  length distance_a = length distance_b ->
  exists weits_a weits_b,
    get_interpolation_weits distance_a distance_b = Ok (weits_a, weits_b) /\
    length weits_a = length distance_a /\
    length weits_b = length distance_a /\
    forall k, (k < length distance_a)%nat ->
      (0 <= nth k weits_a 0 <= 1 /\ 0 <= nth k weits_b 0 <= 1)%R /\
      ((nth k distance_a O <= nth k distance_b O)%nat ->
       (nth k weits_b 0 <= nth k weits_a 0)%R) /\
      ((nth k distance_b O <= nth k distance_a O)%nat ->
       (0 < nth k distance_a O)%nat ->
       (nth k weits_a 0 <= nth k weits_b 0)%R) /\
      (nth k distance_a O = O ->
       nth k weits_a 0%R = 1%R /\ nth k weits_b 0%R = 0%R) /\
      (nth k distance_b O = O -> nth k distance_a O <> O ->
       nth k weits_a 0%R = 0%R /\ nth k weits_b 0%R = 1%R).
Proof.
  intros Hlen.
  destruct (get_interpolation_weits_total _ _ Hlen) as (wa & wb & E).
  exists wa, wb. split; [exact E |].
  destruct (get_interpolation_weits_spec _ _ _ _ E) as (_ & La & Lb & Hk).
  split; [exact La |]. split; [exact Lb |].
  intros k Hlt. destruct (Hk k Hlt) as [-> ->].
  destruct (interpolation_weit_convex (nth k distance_a O) (nth k distance_b O))
    as (H0 & H1 & Hsum).
  split; [lra |].
  exact (interpolation_weit_order (nth k distance_a O) (nth k distance_b O)).
Qed.

Lemma interpolation_weits_favor_nearer_witness :
  length [0; 1; 3; 0]%nat = length [2; 1; 0; 0]%nat /\
  exists weits_a weits_b,
    get_interpolation_weits [0; 1; 3; 0]%nat [2; 1; 0; 0]%nat
      = Ok (weits_a, weits_b) /\
    length weits_a = length [0; 1; 3; 0]%nat /\
    length weits_b = length [0; 1; 3; 0]%nat /\
    forall k, (k < length [0; 1; 3; 0]%nat)%nat ->
      (0 <= nth k weits_a 0 <= 1 /\ 0 <= nth k weits_b 0 <= 1)%R /\
      ((nth k [0; 1; 3; 0]%nat O <= nth k [2; 1; 0; 0]%nat O)%nat ->
       (nth k weits_b 0 <= nth k weits_a 0)%R) /\
      ((nth k [2; 1; 0; 0]%nat O <= nth k [0; 1; 3; 0]%nat O)%nat ->
       (0 < nth k [0; 1; 3; 0]%nat O)%nat ->
       (nth k weits_a 0 <= nth k weits_b 0)%R) /\
      (nth k [0; 1; 3; 0]%nat O = O ->
       nth k weits_a 0%R = 1%R /\ nth k weits_b 0%R = 0%R) /\
      (nth k [2; 1; 0; 0]%nat O = O -> nth k [0; 1; 3; 0]%nat O <> O ->
       nth k weits_a 0%R = 0%R /\ nth k weits_b 0%R = 1%R).
Proof.
  split; [reflexivity |].
  exact (interpolation_weits_favor_nearer [0; 1; 3; 0]%nat [2; 1; 0; 0]%nat
           eq_refl).
Defined.

(** ** More on the strain evaluator *)

Lemma np_index_map {A B : Type} (f : A -> B) (a : list A) (i : Z) :
  np_index (map f a) i = (x <- np_index a i ;; Ok (f x)).
Proof.
  unfold np_index. rewrite length_map.
  destruct ((0 <=? _) && _)%Z; [| reflexivity].
  rewrite nth_error_map. destruct (nth_error a _); reflexivity.
Qed.

Lemma np_take_map {A B : Type} (f : A -> B) (a : list A) (idx : list Z) :
  np_take (map f a) idx = (x <- np_take a idx ;; Ok (map f x)).
Proof.
  unfold np_take. induction idx as [| i idx IH]; [reflexivity |].
  cbn [mapM]. rewrite np_index_map, IH.
  destruct (np_index a i); [| reflexivity | reflexivity]. cbn [bind].
  destruct (mapM (np_index a) idx); reflexivity.
Qed.

Lemma zip_with_map {A A' B B' C : Type} (f : A' -> B' -> C) (g : A -> A')
    (h : B -> B') (a : list A) (b : list B) :
  zip_with f (map g a) (map h b) = zip_with (fun x y => f (g x) (h y)) a b.
Proof.
  unfold zip_with. revert b. induction a as [| x a IH]; intros [| y b];
    try reflexivity.
  cbn [map combine fst snd]. f_equal. apply IH.
Qed.

Lemma zip_with_map_l {A A' B C : Type} (f : A' -> B -> C) (g : A -> A')
    (a : list A) (b : list B) :
  zip_with f (map g a) b = zip_with (fun x y => f (g x) y) a b.
Proof.
  rewrite <- (map_id b) at 1. apply (zip_with_map f g (fun y => y)).
Qed.

Lemma map_zip_with {A B C D : Type} (g : C -> D) (f : A -> B -> C)
    (a : list A) (b : list B) :
  map g (zip_with f a b) = zip_with (fun x y => g (f x y)) a b.
Proof. unfold zip_with. rewrite map_map. reflexivity. Qed.

Lemma zip_with_ext {A B C : Type} (f g : A -> B -> C) (a : list A)
    (b : list B) :
  (forall x y, f x y = g x y) -> zip_with f a b = zip_with g a b.
Proof.
  intros H. unfold zip_with. apply map_ext. intros [x y]. apply H.
Qed.

(** The Jacobian columns of the moved mesh are the rotated columns. *)
Lemma finite_difference_map (f g : point -> point) (a b : list point)
    (spacing cell_scales : list R) :
  (forall p q, sub_point (f p) (f q) = g (sub_point p q)) ->
  (forall p d, div_point (g p) d = g (div_point p d)) ->
  finite_difference (map f a) (map f b) spacing cell_scales
  = (F <- finite_difference a b spacing cell_scales ;; Ok (map g F)).
Proof.
  intros Hsub Hdiv. unfold finite_difference.
  destruct (Nat.eqb (length spacing) (length cell_scales)); [| reflexivity].
  cbn [bind]. f_equal. rewrite zip_with_map.
  rewrite (zip_with_ext _ (fun x y => g (sub_point x y)) a b Hsub).
  rewrite <- (map_zip_with g sub_point a b).
  rewrite zip_with_map_l, map_zip_with.
  apply zip_with_ext. intros p d. apply Hdiv.
Qed.

Lemma sub_point_mirror (p q : point) :
  sub_point (mirror_point p) (mirror_point q) = mirror_point (sub_point p q).
Proof.
  unfold sub_point, mirror_point. cbn [fst snd]. f_equal. ring.
Qed.

Lemma div_point_mirror (p : point) (d : R) :
  div_point (mirror_point p) d = mirror_point (div_point p d).
Proof.
  unfold div_point, mirror_point. cbn [fst snd]. f_equal. unfold Rdiv. ring.
Qed.

Lemma trace_at_mirror (F_lam F_phi : point) :
  trace_at (mirror_point F_lam) (mirror_point F_phi)
  = antitrace_at F_lam F_phi.
Proof.
  unfold trace_at, antitrace_at, mirror_point. cbn [fst snd].
  do 2 f_equal. ring.
Qed.

Lemma antitrace_at_mirror (F_lam F_phi : point) :
  antitrace_at (mirror_point F_lam) (mirror_point F_phi)
  = trace_at F_lam F_phi.
Proof.
  unfold trace_at, antitrace_at, mirror_point. cbn [fst snd].
  do 2 f_equal. ring.
Qed.

Lemma zip_with_pair {A B : Type} (f g : A -> B -> R) (op : R -> R -> R)
    (a : list A) (b : list B) :
  zip_with op (zip_with f a b) (zip_with g a b)
  = zip_with (fun x y => op (f x y) (g x y)) a b.
Proof.
  unfold zip_with. revert b. induction a as [| x a IH]; intros [| y b];
    try reflexivity.
  cbn [combine map fst snd]. f_equal. apply IH.
Qed.

(** X7.  Mirroring the whole mesh in the x axis leaves every major strain as
    it is and turns every minor strain into its negative; errors are the
    same. *)
Theorem mirrored_mesh_negates_minor_strain (positions : list point)
    (cell_definitions : list cell) (cell_scales dPhi dLam : list R) :
  compute_principal_strains (map mirror_point positions)
    cell_definitions cell_scales dPhi dLam
  = (ab <- compute_principal_strains positions cell_definitions cell_scales
             dPhi dLam ;;
     Ok (fst ab, map Ropp (snd ab))).
Proof.
  unfold compute_principal_strains. rewrite !np_take_map.
  destruct (np_take positions (map cell_west cell_definitions)) as [west | |];
    [| reflexivity | reflexivity]. cbn [bind].
  destruct (np_take positions (map cell_east cell_definitions)) as [east | |];
    [| reflexivity | reflexivity]. cbn [bind].
  destruct (np_take dLam (map cell_i cell_definitions)) as [lam | |];
    [| reflexivity | reflexivity]. cbn [bind].
  rewrite (finite_difference_map _ mirror_point east west lam
             cell_scales sub_point_mirror div_point_mirror).
  destruct (finite_difference east west lam cell_scales) as [F_lam | |];
    [| reflexivity | reflexivity]. cbn [bind].
  destruct (np_take positions (map cell_south cell_definitions)) as [south | |];
    [| reflexivity | reflexivity]. cbn [bind].
  destruct (np_take positions (map cell_north cell_definitions)) as [north | |];
    [| reflexivity | reflexivity]. cbn [bind].
  destruct (np_take dPhi (map cell_i cell_definitions)) as [phi | |];
    [| reflexivity | reflexivity]. cbn [bind].
  rewrite (finite_difference_map _ mirror_point north south phi
             cell_scales sub_point_mirror div_point_mirror).
  destruct (finite_difference north south phi cell_scales) as [F_phi | |];
    [| reflexivity | reflexivity]. cbn [bind fst snd].
  rewrite !zip_with_map.
  rewrite (zip_with_ext _ antitrace_at F_lam F_phi trace_at_mirror).
  rewrite (zip_with_ext _ trace_at F_lam F_phi antitrace_at_mirror).
  rewrite !zip_with_pair, map_zip_with. do 2 f_equal.
  - apply zip_with_ext. intros x y. ring.
  - apply zip_with_ext. intros x y. ring.
Qed.

(** ** The strict objective has its minimum at unit strains *)

Lemma ln_below_line (x : R) :
  (0 < x -> ln x <= x - 1 /\ (x <> 1 -> ln x < x - 1))%R.
Proof.
  intros Hx. split.
  - destruct (Rle_lt_dec (ln x) (x - 1)) as [H | H]; [exact H |].
    apply exp_increasing in H. rewrite exp_ln in H by exact Hx.
    pose proof (exp_ineq1_le (x - 1)). lra.
  - intros Hne. assert (H : (1 + (x - 1) < exp (x - 1))%R)
      by (apply exp_ineq1; lra).
    replace (1 + (x - 1))%R with x in H by ring.
    apply ln_increasing in H; [| exact Hx]. rewrite ln_exp in H. exact H.
Qed.

Lemma strict_term_minimum (a b : R) :
  (0 < a -> 0 < b ->
   0 <= strict_term a b /\ (strict_term a b = 0 -> a = 1 /\ b = 1))%R.
Proof.
  intros Ha Hb. unfold strict_term.
  assert (Hx : (0 < a * b)%R) by (apply Rmult_lt_0_compat; assumption).
  destruct (ln_below_line (a * b) Hx) as [Hle Hlt].
  assert (Hsq1 : (0 <= (a * b - 1) ^ 2)%R) by apply pow2_ge_0.
  assert (Hsq2 : (0 <= (a - b) ^ 2)%R) by apply pow2_ge_0.
  assert (E : (((a * b) ^ 2 - 1) / 2 - ln (a * b) + 2 * (a - b) ^ 2
               = (a * b - 1) ^ 2 / 2 + (a * b - 1 - ln (a * b))
                 + 2 * (a - b) ^ 2)%R) by field.
  rewrite E. split; [lra |]. intros H0.
  assert (Hab : (a * b = 1)%R).
  { destruct (Req_dec (a * b) 1) as [H1 | H1]; [exact H1 |].
    specialize (Hlt H1). lra. }
  assert (Hd : ((a - b) ^ 2 = 0)%R) by lra.
  assert (Heq : (a = b)%R).
  { assert (H2 : (a - b = 0)%R) by nra. lra. }
  subst b. assert (a = 1)%R by nra. auto.
Qed.

Lemma strict_term_at_one : strict_term 1 1 = 0%R.
Proof. unfold strict_term. replace (1 * 1)%R with 1%R by ring. rewrite ln_1. field. Qed.

Lemma strict_terms_minimum (a b w terms : list R) :
  weighted_terms strict_term a b w = Ok terms ->
  Forall (fun x => (0 < x)%R) a -> Forall (fun x => (0 < x)%R) b ->
  Forall (fun k => (0 <= k)%R) w ->
  (0 <= Rsum terms)%R /\
  (Forall (fun x => x = 1%R) a /\ Forall (fun x => x = 1%R) b ->
   Rsum terms = 0%R) /\
  (Forall (fun k => (0 < k)%R) w -> Rsum terms = 0%R ->
   Forall (fun x => x = 1%R) a /\ Forall (fun x => x = 1%R) b).
Proof.
  revert b w terms. induction a as [| x a IH]; intros [| y b] [| k w] terms H;
    cbn [weighted_terms] in H; try discriminate.
  - injection H as <-. intros _ _ _. simpl. split; [lra |]. auto.
  - inv_bind_as H rest Hrest. injection H as <-.
    intros Ha Hb Hw. inversion Ha as [| ? ? Hx Ha']; subst.
    inversion Hb as [| ? ? Hy Hb']; subst.
    inversion Hw as [| ? ? Hk Hw']; subst.
    destruct (IH _ _ _ Hrest Ha' Hb' Hw') as (Hpos & Hone & Hzero).
    destruct (strict_term_minimum x y Hx Hy) as [Ht Ht0].
    cbn [Rsum fold_right]. fold (Rsum rest).
    assert (Hterm : (0 <= strict_term x y * k)%R)
      by (apply Rmult_le_pos; assumption).
    split; [lra |]. split.
    + intros [H1 H2]. inversion H1; subst. inversion H2; subst.
      rewrite strict_term_at_one, Hone by auto. ring.
    + intros Hwpos Hsum. inversion Hwpos as [| ? ? Hkpos Hwpos']; subst.
      assert (Hr : Rsum rest = 0%R) by lra.
      assert (Hxy : (strict_term x y * k = 0)%R) by lra.
      assert (Hs : strict_term x y = 0%R).
      { apply Rmult_integral in Hxy. destruct Hxy; [assumption | lra]. }
      destruct (Ht0 Hs) as [-> ->].
      destruct (Hzero Hwpos' Hr) as [F1 F2].
      split; constructor; auto.
Qed.

(** X8.  With cell weights that are not negative, a finite value returned by
    [compute_energy_strict] is never negative; it is 0 when every strain is
    1; and with positive weights it is 0 only when every strain is 1. *)
Theorem strict_energy_minimum restore cell_definitions cell_scales
    cell_weights dPhi dLam positions a b (e : R) :
  strains_of restore cell_definitions cell_scales dPhi dLam positions
    = Ok (a, b) ->
  compute_energy_strict restore cell_definitions cell_scales cell_weights
    dPhi dLam positions = Ok (Finite e) ->
  Forall (fun k => (0 <= k)%R) cell_weights ->
  (0 <= e)%R /\
  (Forall (fun x => x = 1%R) a /\ Forall (fun x => x = 1%R) b -> e = 0%R) /\
  (Forall (fun k => (0 < k)%R) cell_weights -> e = 0%R ->
   Forall (fun x => x = 1%R) a /\ Forall (fun x => x = 1%R) b).
Proof.
  intros Hs He Hw. unfold compute_energy_strict in He. rewrite Hs in He.
  cbn [bind] in He.
  destruct (any_nonpositive a || any_nonpositive b) eqn:E; [discriminate |].
  inv_bind_as He terms Hterms. injection He as <-.
  apply orb_false_iff in E. destruct E as [Ea Eb].
  assert (Hpos : forall l, any_nonpositive l = false ->
                   Forall (fun x => (0 < x)%R) l).
  { intros l Hl. apply Forall_forall. intros x Hx.
    destruct (Rlt_le_dec 0 x) as [H | H]; [exact H |].
    assert (any_nonpositive l = true); [| congruence].
    apply any_nonpositive_Exists. apply Exists_exists. eauto. }
  exact (strict_terms_minimum a b cell_weights terms Hterms
           (Hpos a Ea) (Hpos b Eb) Hw).
Qed.

Lemma square_strict_energy :
  compute_energy_strict (ScalarOp 1) [square_cell] [1%R] [1%R] [1%R] [1%R]
    square_positions = Ok (Finite (strict_term 1 1 * 1 + 0)%R).
Proof.
  unfold compute_energy_strict. rewrite square_strains. cbn [bind].
  assert (H : Rleb 1 0 = false) by (apply Rleb_false; lra).
  unfold any_nonpositive. cbn [existsb]. rewrite H. reflexivity.
Qed.

Lemma unit_weight_not_negative : Forall (fun k => (0 <= k)%R) [1%R].
Proof. repeat constructor. lra. Qed.

Lemma strict_energy_minimum_witness :
  strains_of (ScalarOp 1) [square_cell] [1%R] [1%R] [1%R] square_positions
    = Ok ([1%R], [1%R]) /\
  compute_energy_strict (ScalarOp 1) [square_cell] [1%R] [1%R] [1%R] [1%R]
    square_positions = Ok (Finite (strict_term 1 1 * 1 + 0)%R) /\
  Forall (fun k => (0 <= k)%R) [1%R] /\
  (0 <= strict_term 1 1 * 1 + 0)%R /\
  (Forall (fun x => x = 1%R) [1%R] /\ Forall (fun x => x = 1%R) [1%R] ->
   (strict_term 1 1 * 1 + 0)%R = 0%R) /\
  (Forall (fun k => (0 < k)%R) [1%R] -> (strict_term 1 1 * 1 + 0)%R = 0%R ->
   Forall (fun x => x = 1%R) [1%R] /\ Forall (fun x => x = 1%R) [1%R]).
Proof.
  split; [exact square_strains |]. split; [exact square_strict_energy |].
  split; [exact unit_weight_not_negative |].
  exact (strict_energy_minimum (ScalarOp 1) [square_cell] [1%R] [1%R] [1%R]
           [1%R] square_positions [1%R] [1%R] _ square_strains
           square_strict_energy unit_weight_not_negative).
Defined.

(** ** More on the skeleton builder *)

(** Rounding moves a number by at most one half and never below an integer
    that the number is not below. *)
Lemma round_half_even_bounds (x : R) :
  (- (1 / 2) <= IZR (round_half_even x) - x <= 1 / 2)%R /\
  forall z, (IZR z <= x)%R -> (z <= round_half_even x)%Z.
Proof.
  destruct (base_Int_part x) as [Hlo Hhi].
  assert (Hfloor : forall z, (IZR z <= x)%R -> (z <= Int_part x)%Z).
  { intros z Hz. apply Z.lt_succ_r. apply lt_IZR. rewrite succ_IZR. lra. }
  unfold round_half_even.
  destruct (Rltb (x - IZR (Int_part x)) (1 / 2)) eqn:E1.
  - apply Rltb_true in E1. split; [lra | exact Hfloor].
  - apply Rltb_false in E1.
    destruct (Rltb (1 / 2) (x - IZR (Int_part x))) eqn:E2.
    + apply Rltb_true in E2. rewrite plus_IZR. split; [lra |].
      intros z Hz. specialize (Hfloor z Hz). lia.
    + apply Rltb_false in E2. destruct (Z.even (Int_part x)).
      * split; [lra | exact Hfloor].
      * rewrite plus_IZR. split; [lra |].
        intros z Hz. specialize (Hfloor z Hz). lia.
Qed.

(** X9.  For a factor that is not negative and a latitude strictly between the
    poles, the column stride int(round(factor/cos(latitude))) of a row is
    never smaller than the factor, differs from factor/cos(latitude) by at
    most one half, and is the same at the latitude and at its negative. *)
Theorem column_stride_bounds (factor : Z) (lat : R) :
  (0 <= factor)%Z ->
  (- (PI / 2) < lat < PI / 2)%R ->
  (factor <= east_west_factor_at factor lat)%Z /\
  (- (1 / 2) <= IZR (east_west_factor_at factor lat) - IZR factor / cos lat
   <= 1 / 2)%R /\
  east_west_factor_at factor (- lat) = east_west_factor_at factor lat.
Proof.
  intros Hf [Hlo Hhi]. unfold east_west_factor_at.
  destruct (round_half_even_bounds (IZR factor / cos lat)) as [Hnear Hfloor].
  split; [| split; [exact Hnear | rewrite cos_neg; reflexivity]].
  apply Hfloor.
  pose proof (cos_gt_0 lat Hlo Hhi) as Hpos.
  pose proof (COS_bound lat) as [_ Hle].
  assert (H0 : (0 <= IZR factor)%R) by (apply IZR_le; exact Hf).
  assert (Hinv : (1 <= / cos lat)%R).
  { rewrite <- Rinv_1 at 1. apply Rinv_le_contravar; assumption. }
  unfold Rdiv. nra.
Qed.

Lemma column_stride_bounds_witness :
  (2 <= east_west_factor_at 2 (PI / 3))%Z /\
  (- (1 / 2) <= IZR (east_west_factor_at 2 (PI / 3)) - IZR 2 / cos (PI / 3)
   <= 1 / 2)%R /\
  east_west_factor_at 2 (- (PI / 3)) = east_west_factor_at 2 (PI / 3).
Proof.
  apply (column_stride_bounds 2 (PI / 3)); [lia |].
  pose proof PI_RGT_0. lra.
Defined.

(** A loop whose every step leaves the state as it is. *)
Lemma foldM_idle {S X : Type} (step : X -> S -> result S) (l : list X) (s : S) :
  (forall x, In x l -> step x s = Ok s) -> foldM step l s = Ok s.
Proof.
  induction l as [| x l IH]; intros H; [reflexivity |].
  rewrite foldM_cons, (H x) by (left; reflexivity). cbn [bind].
  apply IH. intros y Hy. apply H. right. exact Hy.
Qed.

(** X10.  On a lookup table without any node (no entries at all, or every
    entry -1, with a latitude for every row) [mesh_skeleton] raises
    [ValueError]: there is no maximum to take. *)
Theorem mesh_skeleton_without_nodes (fuel : nat) (t : lookup_table)
    (factor : Z) (lat : list R) :
  (forall h i j, (h < n_sections t)%nat -> (i < n_rows t)%nat ->
     (j < n_cols t)%nat -> node_at t h i j = (-1)%Z) ->
  (n_rows t <= length lat)%nat ->
  mesh_skeleton fuel t factor lat = Raise ValueError.
Proof.
  intros Hnone Hlat. unfold mesh_skeleton, mesh_skeleton_strided.
  assert (Hnode : forall x, In x (places t) -> node_of t x = (-1)%Z).
  { intros [h [i j]] Hx. apply in_places in Hx. destruct Hx as (Hh & Hi & Hj).
    unfold node_of. cbn [fst snd]. apply Hnone; assumption. }
  rewrite table_entries_places.
  assert (Hcases : map (node_of t) (places t) = []
                   \/ In (-1)%Z (map (node_of t) (places t))).
  { pose proof Hnode as Hn. destruct (places t) as [| x0 l]; [left; reflexivity |].
    right. left. apply Hn. left. reflexivity. }
  destruct Hcases as [Hempty | Hin]; [rewrite Hempty; reflexivity |].
  rewrite (np_max_top (map (node_of t) (places t)) (-1)%Z).
  - cbn [bind]. change (-1 + 1 <? 0)%Z with false. cbv iota.
    change (Z.to_nat (-1 + 1)) with O.
    unfold build_neibors. rewrite nested_loops_places.
    rewrite foldM_idle.
    + cbn [bind]. rewrite marks_loop_places by (rewrite length_map; exact Hlat).
      rewrite foldM_idle.
      * reflexivity.
      * intros x Hx. unfold mark_at, mark_anchors.
        change (node_at t (fst x) (fst (snd x)) (snd (snd x)))
          with (node_of t x).
        rewrite (Hnode x Hx). reflexivity.
    + intros x Hx. unfold link_neibors.
      change (node_at t (fst x) (fst (snd x)) (snd (snd x)))
        with (node_of t x).
      rewrite (Hnode x Hx). reflexivity.
  - exact Hin.
  - intros y Hy. apply in_map_iff in Hy. destruct Hy as (x & <- & Hx).
    rewrite (Hnode x Hx). lia.
Qed.

Lemma mesh_skeleton_without_nodes_witness :
  (n_rows (table_of_lists [[[-1; -1]; [-1; -1]]]%Z) <= length [0; 0]%R)%nat /\
  mesh_skeleton 3 (table_of_lists [[[-1; -1]; [-1; -1]]]%Z) 2 [0; 0]%R
    = Raise ValueError.
Proof.
  assert (H : (n_rows (table_of_lists [[[-1; -1]; [-1; -1]]]%Z)
               <= length [0; 0]%R)%nat) by (simpl; lia).
  split; [exact H |].
  apply (mesh_skeleton_without_nodes 3
           (table_of_lists [[[-1; -1]; [-1; -1]]]%Z) 2 [0; 0]%R); [| exact H].
  intros [| h] [| [| i]] [| [| j]] Hh Hi Hj; simpl in *;
    try reflexivity; lia.
Defined.

Lemma select_rows_agree {A : Type} (mask : list bool) (u v : list A) (d : A) :
  length u = length mask -> length v = length mask ->
  (forall k, (k < length mask)%nat -> nth k mask false = true ->
     nth k u d = nth k v d) ->
  select_rows mask u = select_rows mask v.
Proof.
  revert u v. induction mask as [| m mask IH]; intros [| x u] [| y v];
    simpl; intros Lu Lv H; try discriminate; try reflexivity.
  assert (Htail : select_rows mask u = select_rows mask v).
  { apply IH; [lia | lia |]. intros k Hk Hm. apply (H (S k)); [lia | exact Hm]. }
  destruct m; [| exact Htail].
  rewrite Htail. f_equal. apply (H O); [lia | reflexivity].
Qed.

(** X11.  For the pair (reduce, restore) that [mesh_skeleton] returns,
    reducing a position vector, restoring it and reducing again gives the
    reduced vector back: restore @ q is defined for every q = reduce @
    positions, and reduce @ (restore @ q) = q. *)
Theorem reduce_after_restore (fuel : nat) (t : lookup_table) (factor : Z)
    (lat : list R) (reduce restore : operator) (positions q : list point) :
  mesh_skeleton fuel t factor lat = Ok (reduce, restore) ->
  matmul reduce positions = Ok q ->
  exists restored,
    matmul restore q = Ok restored /\ matmul reduce restored = Ok q.
Proof.
  intros H Hq. destruct (mesh_skeleton_inv _ _ _ _ _ _ H) as [s Hs].
  destruct (mesh_skeleton_strided_rows _ _ _ _ _ _ _ _ Hs)
    as (Lmask & Hreduce & _).
  assert (Lpos : length positions = sk_n_full s).
  { rewrite Hreduce in Hq. cbn [matmul] in Hq.
    destruct (Nat.eqb_spec (length positions) (sk_n_full s)) as [E | E];
      [exact E | discriminate]. }
  destruct (skeleton_restores _ _ _ _ _ _ _ _ positions Hs Lpos)
    as (restored & Hred & Hres & Lres & Hk).
  rewrite Hq in Hred. injection Hred as ->.
  exists restored. split; [exact Hres |].
  rewrite Hreduce. cbn [matmul].
  rewrite Lres, Lmask, Nat.eqb_refl. cbn [andb]. f_equal.
  apply (select_rows_agree _ _ _ origin); [lia | lia |].
  intros k Hlt Hm. rewrite Lmask in Hlt. exact (proj1 (Hk k Hlt) Hm).
Qed.

Lemma grid5_reduced_vector :
  exists reduce restore positions q,
    mesh_skeleton 10 grid5 2 low_latitudes = Ok (reduce, restore) /\
    matmul reduce positions = Ok q.
Proof.
  destruct grid5_low_latitudes_ok as (reduce & restore & H).
  destruct (mesh_skeleton_inv _ _ _ _ _ _ H) as [s Hs].
  destruct (mesh_skeleton_strided_rows _ _ _ _ _ _ _ _ Hs)
    as (Lmask & Hreduce & _).
  exists reduce, restore, (repeat origin (sk_n_full s)),
         (select_rows (sk_is_defined s) (repeat origin (sk_n_full s))).
  split; [exact H |]. rewrite Hreduce. cbn [matmul].
  rewrite repeat_length, Lmask, Nat.eqb_refl. reflexivity.
Qed.

Lemma reduce_after_restore_witness :
  exists reduce restore positions q,
    mesh_skeleton 10 grid5 2 low_latitudes = Ok (reduce, restore) /\
    matmul reduce positions = Ok q /\
    exists restored,
      matmul restore q = Ok restored /\ matmul reduce restored = Ok q.
Proof.
  destruct grid5_reduced_vector as (reduce & restore & positions & q & H & Hq).
  exists reduce, restore, positions, q. split; [exact H |].
  split; [exact Hq |].
  exact (reduce_after_restore 10 grid5 2 low_latitudes reduce restore
           positions q H Hq).
Defined.

(** ** [util.py] *)

(** *** [dilate] *)

Lemma or_with_next_cons (a b : bool) (l : list bool) :
  or_with_next (a :: b :: l) = (a || b) :: or_with_next (b :: l).
Proof.
  unfold or_with_next, zip_with.
  cbn [removelast tl length combine map fst snd app Nat.sub skipn].
  rewrite Nat.sub_0_r. reflexivity.
Qed.

Lemma nth_or_with_next (x : list bool) (k : nat) :
  nth k (or_with_next x) false = nth k x false || nth (S k) x false.
Proof.
  revert k. induction x as [| a x IH]; intros k.
  - destruct k; reflexivity.
  - destruct x as [| b l].
    + destruct k as [| [| k]]; cbn; try rewrite orb_false_r; reflexivity.
    + rewrite or_with_next_cons. destruct k as [| k]; [reflexivity |].
      cbn [nth]. rewrite IH. reflexivity.
Qed.

Lemma length_or_with_next (x : list bool) :
  length (or_with_next x) = length x.
Proof.
  induction x as [| a [| b l] IH]; try reflexivity.
  rewrite or_with_next_cons. cbn [length] in *. rewrite IH. reflexivity.
Qed.

Lemma or_with_previous_cons (a b : bool) (l : list bool) :
  or_with_previous (a :: b :: l)
  = a :: (b || a) :: tl (or_with_previous (b :: l)).
Proof. reflexivity. Qed.

Lemma length_or_with_previous (x : list bool) :
  length (or_with_previous x) = length x.
Proof.
  induction x as [| a [| b l] IH]; try reflexivity.
  rewrite or_with_previous_cons. cbn [length] in *.
  destruct (or_with_previous (b :: l)) as [| c r]; [discriminate |].
  cbn [tl length] in *. lia.
Qed.

Lemma nth_or_with_previous (x : list bool) (k : nat) :
  (k < length x)%nat ->
  nth k (or_with_previous x) false
  = nth k x false || match k with O => false | S k' => nth k' x false end.
Proof.
  revert k. induction x as [| a x IH]; intros k Hk; [simpl in Hk; lia |].
  destruct x as [| b l].
  - destruct k; [cbn; symmetry; apply orb_false_r | simpl in Hk; lia].
  - rewrite or_with_previous_cons.
    destruct k as [| [| k]]; cbn [nth].
    + rewrite orb_false_r. reflexivity.
    + reflexivity.
    + specialize (IH (S k)). cbn [length] in IH, Hk.
      destruct (or_with_previous (b :: l)) as [| c r] eqn:E.
      * pose proof (length_or_with_previous (b :: l)) as L.
        rewrite E in L. discriminate.
      * cbn [tl nth] in *. apply IH. lia.
Qed.

(** One pass of the loop of [dilate]: every entry takes in its two
    neighbors. *)
Lemma nth_dilate_once (x : list bool) (k : nat) :
  (k < length x)%nat ->
  nth k (or_with_previous (or_with_next x)) false
  = nth k x false || nth (S k) x false
    || match k with O => false | S k' => nth k' x false end.
Proof.
  intros Hk. rewrite nth_or_with_previous
    by (rewrite length_or_with_next; exact Hk).
  rewrite nth_or_with_next. destruct k as [| k]; [reflexivity |].
  rewrite nth_or_with_next.
  destruct (nth (S k) x false), (nth (S (S k)) x false), (nth k x false);
    reflexivity.
Qed.

Lemma nth_true_in_range (x : list bool) (j : nat) :
  nth j x false = true -> (j < length x)%nat.
Proof.
  intros H. destruct (Nat.lt_ge_cases j (length x)) as [Hlt | Hge];
    [exact Hlt |].
  rewrite nth_overflow in H by exact Hge. discriminate.
Qed.

Lemma dilate_steps (d : nat) (x : list bool) :
  length (Nat.iter d (fun y => or_with_previous (or_with_next y)) x)
  = length x /\
  forall k, (k < length x)%nat ->
    (nth k (Nat.iter d (fun y => or_with_previous (or_with_next y)) x) false
     = true
     <-> exists j, nth j x false = true /\ (j <= k + d)%nat /\ (k <= j + d)%nat).
Proof.
  induction d as [| d [IHlen IH]].
  - split; [reflexivity |]. intros k Hk. simpl Nat.iter. split.
    + intros H. exists k. split; [exact H | lia].
    + intros (j & Hj & H1 & H2). assert (j = k) by lia. subst j. exact Hj.
  - rewrite Nat.iter_succ.
    set (y := Nat.iter d (fun y => or_with_previous (or_with_next y)) x) in *.
    split; [rewrite length_or_with_previous, length_or_with_next; exact IHlen |].
    intros k Hk. rewrite nth_dilate_once by (rewrite IHlen; exact Hk).
    rewrite !orb_true_iff. split.
    + intros [[H | H] | H].
      * apply IH in H; [| exact Hk]. destruct H as (j & Hj & H1 & H2).
        exists j. split; [exact Hj | lia].
      * pose proof (nth_true_in_range y _ H) as Hr. rewrite IHlen in Hr.
        apply IH in H; [| exact Hr]. destruct H as (j & Hj & H1 & H2).
        exists j. split; [exact Hj | lia].
      * destruct k as [| k]; [discriminate |].
        apply IH in H; [| lia]. destruct H as (j & Hj & H1 & H2).
        exists j. split; [exact Hj | lia].
    + intros (j & Hj & H1 & H2).
      pose proof (nth_true_in_range x j Hj) as Hjr.
      destruct (Nat.le_gt_cases j (k + d)) as [Ha | Ha].
      * destruct (Nat.le_gt_cases k (j + d)) as [Hb | Hb].
        -- left. left. apply IH; [exact Hk |]. exists j. auto.
        -- (* j is far below k: the entry before k reaches it *)
           right. destruct k as [| k]; [lia |].
           apply IH; [lia |]. exists j. split; [exact Hj | lia].
      * (* j is far above k: the entry after k reaches it *)
        left. right. apply IH; [lia |]. exists j. split; [exact Hj | lia].
Qed.

(** X15.  [dilate(x, distance)] keeps the length of the array and turns on
    exactly the entries that lie within [distance] places of an entry that
    was on; a distance that is not positive changes nothing. *)
Theorem dilate_reaches (x : list bool) (distance : Z) :
  length (dilate x distance) = length x /\
  forall k, (k < length x)%nat ->
    (nth k (dilate x distance) false = true
     <-> exists j, nth j x false = true /\
                   (Z.abs (Z.of_nat k - Z.of_nat j) <= Z.max 0 distance)%Z).
Proof.
  unfold dilate. destruct (dilate_steps (Z.to_nat distance) x) as [Hlen H].
  split; [exact Hlen |]. intros k Hk. rewrite (H k Hk).
  split; intros (j & Hj & Hd); exists j; (split; [exact Hj | lia]).
Qed.

(** *** Bins *)

Lemma nth_tl {A : Type} (l : list A) (k : nat) (d : A) :
  nth k (tl l) d = nth (S k) l d.
Proof. destruct l; [destruct k; reflexivity | reflexivity]. Qed.

Lemma length_tl {A : Type} (l : list A) : length (tl l) = (length l - 1)%nat.
Proof. destruct l; simpl; lia. Qed.

Lemma length_removelast {A : Type} (l : list A) :
  length (removelast l) = (length l - 1)%nat.
Proof.
  induction l as [| a [| b l] IH]; try reflexivity.
  cbn [removelast length] in *. rewrite IH. lia.
Qed.

Lemma nth_removelast {A : Type} (l : list A) (k : nat) (d : A) :
  (S k < length l)%nat -> nth k (removelast l) d = nth k l d.
Proof.
  revert k. induction l as [| a [| b l] IH]; intros k Hk; simpl in Hk; try lia.
  destruct k as [| k]; [reflexivity |].
  cbn [removelast nth] in *. apply IH. simpl. lia.
Qed.

(** X16.  [bin_centers] returns one center per bin, and no center lies
    outside its bin: it is between the two edges of the bin, whichever of the
    two is the larger. *)
Theorem bin_centers_between (bin_edges : list R) :
  length (bin_centers bin_edges) = (length bin_edges - 1)%nat /\
  forall k, (S k < length bin_edges)%nat ->
    ((nth k bin_edges 0 <= nth (S k) bin_edges 0 ->
      nth k bin_edges 0 <= nth k (bin_centers bin_edges) 0
      <= nth (S k) bin_edges 0) /\
     (nth (S k) bin_edges 0 <= nth k bin_edges 0 ->
      nth (S k) bin_edges 0 <= nth k (bin_centers bin_edges) 0
      <= nth k bin_edges 0))%R.
Proof.
  unfold bin_centers. split.
  - rewrite length_zip_with, length_tl, length_removelast. lia.
  - intros k Hk.
    rewrite (nth_zip_with _ _ _ _ 0%R 0%R 0%R)
      by (rewrite ?length_tl, ?length_removelast; lia).
    rewrite nth_tl, nth_removelast by exact Hk.
    split; intros H; lra.
Qed.

Lemma monotone_cons (a : R) (l : list R) :
  monotone Rleb (a :: l) = true ->
  monotone Rleb l = true /\ Forall (fun b => (a <= b)%R) l.
Proof.
  revert a. induction l as [| b l IH]; intros a H.
  - split; [reflexivity | constructor].
  - cbn [monotone] in H. apply andb_true_iff in H. destruct H as [Hab H].
    apply Rleb_true in Hab. split; [exact H |].
    destruct (IH b H) as [_ Hb]. constructor; [exact Hab |].
    eapply Forall_impl; [| exact Hb]. simpl. intros c Hc. lra.
Qed.

Lemma sorted_count (x : R) (l : list R) :
  monotone Rleb l = true ->
  let c := length (filter (fun b => Rleb b x) l) in
  (c <= length l)%nat /\
  (forall k, (k < c)%nat -> (nth k l 0 <= x)%R) /\
  (forall k, (c <= k < length l)%nat -> (x < nth k l 0)%R).
Proof.
  induction l as [| a l IH]; intros Hm; cbv zeta.
  - simpl. split; [lia |]. split; intros; lia.
  - destruct (monotone_cons a l Hm) as [Hm' Ha].
    specialize (IH Hm'). cbv zeta in IH. destruct IH as (Hc & Hlow & Hhigh).
    cbn [filter]. destruct (Rleb a x) eqn:E.
    + apply Rleb_true in E. cbn [length]. split; [lia |]. split.
      * intros [| k] Hk; [exact E | apply Hlow; lia].
      * intros [| k] Hk; [lia | apply Hhigh; lia].
    + apply Rleb_false in E.
      assert (Hnone : filter (fun b => Rleb b x) l = []).
      { clear - Ha E. induction Ha as [| b l Hb _ IH]; [reflexivity |].
        cbn [filter]. assert (Hf : Rleb b x = false) by (apply Rleb_false; lra).
        rewrite Hf. exact IH. }
      rewrite Hnone. cbn [length]. split; [lia |]. split; [intros; lia |].
      intros [| k] Hk; [exact E |]. cbn [nth].
      rewrite Forall_forall in Ha.
      assert (a <= nth k l 0)%R by (apply Ha, nth_In; simpl in Hk; lia).
      lra.
Qed.

Lemma monotone_nth (l : list R) (j k : nat) :
  monotone Rleb l = true -> (j <= k)%nat -> (k < length l)%nat ->
  (nth j l 0 <= nth k l 0)%R.
Proof.
  revert j k. induction l as [| a l IH]; intros j k Hm Hjk Hk;
    [simpl in Hk; lia |].
  destruct (monotone_cons a l Hm) as [Hm' Ha].
  destruct j as [| j], k as [| k]; cbn [nth]; try lra; try lia.
  - rewrite Forall_forall in Ha. apply Ha, nth_In. simpl in Hk. lia.
  - apply IH; [exact Hm' | lia | simpl in Hk; lia].
Qed.

(** X17.  For bin edges that never decrease, at least two of them:
    [bin_index] puts a number between the first and the last edge into a bin
    whose two edges enclose it (the last edge itself into the last bin); a
    number above the last edge goes into the last bin all the same, and a
    number below the first edge gets index -1. *)
Theorem bin_index_encloses (x : R) (bin_edges : list R) :
  monotone Rleb bin_edges = true ->
  (2 <= length bin_edges)%nat ->
  ((nth 0 bin_edges 0 <= x <= nth (length bin_edges - 1) bin_edges 0)%R ->
   exists i, bin_index x bin_edges = Ok (Z.of_nat i) /\
             (S i < length bin_edges)%nat /\
             (nth i bin_edges 0 <= x <= nth (S i) bin_edges 0)%R) /\
  ((nth (length bin_edges - 1) bin_edges 0 < x)%R ->
   bin_index x bin_edges = Ok (Z.of_nat (length bin_edges) - 2)%Z) /\
  ((x < nth 0 bin_edges 0)%R -> bin_index x bin_edges = Ok (-1)%Z).
Proof.
  intros Hm Hlen.
  assert (Hidx : bin_index x bin_edges
                 = Ok (if Rltb x (nth (length bin_edges - 1) bin_edges 0%R)
                       then (count_where (fun b => Rleb b x) bin_edges - 1)%Z
                       else (Z.of_nat (length bin_edges) - 2)%Z)).
  { unfold bin_index, np_digitize.
    rewrite (np_index_last bin_edges 0%R) by lia. cbn [bind].
    rewrite Hm. reflexivity. }
  rewrite Hidx. clear Hidx.
  destruct (sorted_count x bin_edges Hm) as (Hc & Hlow & Hhigh).
  unfold count_where.
  set (c := length (filter (fun b => Rleb b x) bin_edges)) in *.
  set (last_edge := nth (length bin_edges - 1) bin_edges 0%R).
  split; [| split].
  - intros [H0 H1]. destruct (Rltb x last_edge) eqn:E.
    + apply Rltb_true in E.
      assert (Hc1 : (1 <= c)%nat).
      { destruct c as [| c']; [| lia].
        assert (x < nth 0 bin_edges 0)%R by (apply Hhigh; lia). lra. }
      assert (Hc2 : (c < length bin_edges)%nat).
      { destruct (Nat.lt_ge_cases c (length bin_edges)) as [H | H]; [exact H |].
        assert (nth (length bin_edges - 1) bin_edges 0 <= x)%R
          by (apply Hlow; lia).
        unfold last_edge in E. lra. }
      exists (c - 1)%nat. split; [f_equal; lia |].
      replace (S (c - 1)) with c by lia. split; [exact Hc2 |]. split.
      * apply Hlow. lia.
      * left. apply Hhigh. lia.
    + apply Rltb_false in E. exists (length bin_edges - 2)%nat.
      split; [f_equal; lia |].
      replace (S (length bin_edges - 2)) with (length bin_edges - 1)%nat by lia.
      split; [lia |]. fold last_edge. split; [| lra].
      assert (nth (length bin_edges - 2) bin_edges 0 <= last_edge)%R
        by (apply monotone_nth; [exact Hm | lia | lia]).
      lra.
  - intros H. assert (E : Rltb x last_edge = false) by (apply Rltb_false; lra).
    rewrite E. reflexivity.
  - intros H.
    assert (Hfl : (nth 0 bin_edges 0 <= last_edge)%R)
      by (apply monotone_nth; [exact Hm | lia | lia]).
    assert (E : Rltb x last_edge = true) by (apply Rltb_true; lra).
    rewrite E. f_equal.
    assert (c = O); [| lia].
    destruct c as [| c']; [reflexivity |].
    assert (nth 0 bin_edges 0 <= x)%R by (apply Hlow; lia). lra.
Qed.

Lemma bin_index_encloses_witness :
  monotone Rleb [0; 1; 3]%R = true /\
  (2 <= length [0; 1; 3]%R)%nat /\
  ((nth 0 [0; 1; 3] 0 <= 2 <= nth (length [0; 1; 3]%R - 1) [0; 1; 3] 0)%R ->
   exists i, bin_index 2 [0; 1; 3]%R = Ok (Z.of_nat i) /\
             (S i < length [0; 1; 3]%R)%nat /\
             (nth i [0; 1; 3] 0 <= 2 <= nth (S i) [0; 1; 3] 0)%R) /\
  ((nth (length [0; 1; 3]%R - 1) [0; 1; 3] 0 < 2)%R ->
   bin_index 2 [0; 1; 3]%R = Ok (Z.of_nat (length [0; 1; 3]%R) - 2)%Z) /\
  ((2 < nth 0 [0; 1; 3] 0)%R -> bin_index 2 [0; 1; 3]%R = Ok (-1)%Z).
Proof.
  assert (Hm : monotone Rleb [0; 1; 3]%R = true).
  { cbn [monotone].
    assert (H1 : Rleb 0 1 = true) by (apply Rleb_true; lra).
    assert (H2 : Rleb 1 3 = true) by (apply Rleb_true; lra).
    rewrite H1, H2. reflexivity. }
  assert (Hl : (2 <= length [0; 1; 3]%R)%nat) by (simpl; lia).
  split; [exact Hm |]. split; [exact Hl |].
  exact (bin_index_encloses 2 [0; 1; 3]%R Hm Hl).
Defined.

(** ** The bounding box *)

Lemma fold_fmin_spec (a : list float) :
  forall x0,
    (forall x, In (Num x) (x0 :: a) ->
       exists y, fold_left fmin a x0 = Num y /\ (y <= x)%R) /\
    (forall y, fold_left fmin a x0 = Num y -> In (Num y) (x0 :: a)) /\
    (fold_left fmin a x0 = NaN -> forall v, In v (x0 :: a) -> v = NaN).
Proof.
  induction a as [| b a IH]; intros x0; cbn [fold_left].
  - split; [| split].
    + intros x [-> | []]. exists x. split; [reflexivity | lra].
    + intros y ->. left. reflexivity.
    + intros -> v [<- | []]. reflexivity.
  - destruct (IH (fmin x0 b)) as (Hlow & Hin & Hnan). split; [| split].
    + intros x Hx.
      assert (Hx' : exists z, In (Num z) (fmin x0 b :: a) /\ (z <= x)%R).
      { destruct Hx as [-> | [-> | Hx]].
        - destruct b as [y |]; cbn [fmin].
          + exists (Rmin x y). split; [left; reflexivity | apply Rmin_l].
          + exists x. split; [left; reflexivity | lra].
        - destruct x0 as [y |]; cbn [fmin].
          + exists (Rmin y x). split; [left; reflexivity | apply Rmin_r].
          + exists x. split; [left; reflexivity | lra].
        - exists x. split; [right; exact Hx | lra]. }
      destruct Hx' as (z & Hz & Hzx).
      destruct (Hlow z Hz) as (y & Ey & Hy). exists y. split; [exact Ey | lra].
    + intros y Hy. destruct (Hin y Hy) as [E | E]; [| right; right; exact E].
      destruct x0 as [u |], b as [v |]; cbn [fmin] in E.
      * injection E as E. unfold Rmin in E.
        destruct (Rle_dec u v); subst; [left | right; left]; reflexivity.
      * left. exact E.
      * right. left. exact E.
      * discriminate.
    + intros Hm v Hv.
      assert (Hf : fmin x0 b = NaN) by (apply (Hnan Hm); left; reflexivity).
      destruct Hv as [<- | [<- | Hv]].
      * destruct x0, b; cbn [fmin] in Hf; congruence.
      * destruct x0, b; cbn [fmin] in Hf; congruence.
      * apply (Hnan Hm). right. exact Hv.
Qed.

Lemma fold_fmax_spec (a : list float) :
  forall x0,
    (forall x, In (Num x) (x0 :: a) ->
       exists y, fold_left fmax a x0 = Num y /\ (x <= y)%R) /\
    (forall y, fold_left fmax a x0 = Num y -> In (Num y) (x0 :: a)) /\
    (fold_left fmax a x0 = NaN -> forall v, In v (x0 :: a) -> v = NaN).
Proof.
  induction a as [| b a IH]; intros x0; cbn [fold_left].
  - split; [| split].
    + intros x [-> | []]. exists x. split; [reflexivity | lra].
    + intros y ->. left. reflexivity.
    + intros -> v [<- | []]. reflexivity.
  - destruct (IH (fmax x0 b)) as (Hlow & Hin & Hnan). split; [| split].
    + intros x Hx.
      assert (Hx' : exists z, In (Num z) (fmax x0 b :: a) /\ (x <= z)%R).
      { destruct Hx as [-> | [-> | Hx]].
        - destruct b as [y |]; cbn [fmax].
          + exists (Rmax x y). split; [left; reflexivity | apply Rmax_l].
          + exists x. split; [left; reflexivity | lra].
        - destruct x0 as [y |]; cbn [fmax].
          + exists (Rmax y x). split; [left; reflexivity | apply Rmax_r].
          + exists x. split; [left; reflexivity | lra].
        - exists x. split; [right; exact Hx | lra]. }
      destruct Hx' as (z & Hz & Hzx).
      destruct (Hlow z Hz) as (y & Ey & Hy). exists y. split; [exact Ey | lra].
    + intros y Hy. destruct (Hin y Hy) as [E | E]; [| right; right; exact E].
      destruct x0 as [u |], b as [v |]; cbn [fmax] in E.
      * injection E as E. unfold Rmax in E.
        destruct (Rle_dec u v); subst; [right; left | left]; reflexivity.
      * left. exact E.
      * right. left. exact E.
      * discriminate.
    + intros Hm v Hv.
      assert (Hf : fmax x0 b = NaN) by (apply (Hnan Hm); left; reflexivity).
      destruct Hv as [<- | [<- | Hv]].
      * destruct x0, b; cbn [fmax] in Hf; congruence.
      * destruct x0, b; cbn [fmax] in Hf; congruence.
      * apply (Hnan Hm). right. exact Hv.
Qed.

(** The smallest and the largest number of an array that is not empty. *)
Lemma nan_extremes (a : list float) :
  a <> [] ->
  exists lo hi,
    np_nanmin a = Ok lo /\ np_nanmax a = Ok hi /\
    (forall x, In (Num x) a ->
       exists l h, lo = Num l /\ hi = Num h /\ (l <= x <= h)%R) /\
    (forall l, lo = Num l -> In (Num l) a) /\
    (forall h, hi = Num h -> In (Num h) a) /\
    ((forall v, In v a -> v = NaN) -> lo = NaN /\ hi = NaN).
Proof.
  destruct a as [| x0 a]; [congruence |]. intros _.
  destruct (fold_fmin_spec a x0) as (Hlo & Hlin & _).
  destruct (fold_fmax_spec a x0) as (Hhi & Hhin & _).
  exists (fold_left fmin a x0), (fold_left fmax a x0).
  split; [reflexivity |]. split; [reflexivity |]. split; [| split; [| split]].
  - intros x Hx. destruct (Hlo x Hx) as (l & El & Hl).
    destruct (Hhi x Hx) as (h & Eh & Hh). exists l, h. auto.
  - exact Hlin.
  - exact Hhin.
  - intros Hall. split.
    + destruct (fold_left fmin a x0) as [l |] eqn:E; [| reflexivity].
      specialize (Hall _ (Hlin l eq_refl)). discriminate.
    + destruct (fold_left fmax a x0) as [h |] eqn:E; [| reflexivity].
      specialize (Hall _ (Hhin h eq_refl)). discriminate.
Qed.

Lemma in_coordinates {A : Type} (f : A -> float) (points : list A) (x : R) :
  In (Num x) (map f points) <-> exists p, In p points /\ f p = Num x.
Proof.
  rewrite in_map_iff. split; intros (p & H1 & H2); exists p; auto.
Qed.

(** X18.  [get_bounding_box] raises [ValueError] on an empty set of points.
    Otherwise it returns [[left, bottom], [right, top]] such that every
    coordinate that is a number lies between the two bounds of its axis, every
    bound that is a number is the coordinate of some point, and the bounds of
    an axis are NaN when every coordinate of the axis is. *)
Theorem bounding_box_encloses (points : list mesh_row) :
  (points = [] -> get_bounding_box points = Raise ValueError) /\
  (points <> [] ->
   exists left bottom right top,
     get_bounding_box points = Ok ((left, bottom), (right, top)) /\
     (forall p x, In p points -> fst p = Num x ->
        exists l r, left = Num l /\ right = Num r /\ (l <= x <= r)%R) /\
     (forall p y, In p points -> snd p = Num y ->
        exists b t, bottom = Num b /\ top = Num t /\ (b <= y <= t)%R) /\
     (forall l, left = Num l -> exists p, In p points /\ fst p = Num l) /\
     (forall r, right = Num r -> exists p, In p points /\ fst p = Num r) /\
     (forall b, bottom = Num b -> exists p, In p points /\ snd p = Num b) /\
     (forall t, top = Num t -> exists p, In p points /\ snd p = Num t) /\
     ((forall p, In p points -> fst p = NaN) -> left = NaN /\ right = NaN) /\
     ((forall p, In p points -> snd p = NaN) -> bottom = NaN /\ top = NaN)).
Proof.
  split; [intros ->; reflexivity |]. intros Hne.
  assert (Hx : map fst points <> [])
    by (destruct points; [congruence | discriminate]).
  assert (Hy : map snd points <> [])
    by (destruct points; [congruence | discriminate]).
  destruct (nan_extremes _ Hx)
    as (left & right & El & Er & Hxb & Hl & Hr & Hxn).
  destruct (nan_extremes _ Hy)
    as (bottom & top & Eb & Et & Hyb & Hb & Ht & Hyn).
  exists left, bottom, right, top. unfold get_bounding_box.
  rewrite El, Eb, Er, Et. split; [reflexivity |].
  split; [| split; [| split; [| split; [| split; [| split; [| split]]]]]].
  - intros p x Hp E. apply Hxb. apply in_coordinates. eauto.
  - intros p y Hp E. apply Hyb. apply in_coordinates. eauto.
  - intros l E. apply in_coordinates. apply Hl. exact E.
  - intros r E. apply in_coordinates. apply Hr. exact E.
  - intros b E. apply in_coordinates. apply Hb. exact E.
  - intros t E. apply in_coordinates. apply Ht. exact E.
  - intros Hall. apply Hxn. intros v Hv. apply in_map_iff in Hv.
    destruct Hv as (p & <- & Hp). apply Hall. exact Hp.
  - intros Hall. apply Hyn. intros v Hv. apply in_map_iff in Hv.
    destruct Hv as (p & <- & Hp). apply Hall. exact Hp.
Qed.

(** ** Resampling a raster *)


(** ** From the node list back to the mesh *)

(** What a successful call of [enumerate_nodes] says about every entry. *)
Lemma enumerate_nodes_lookup (mesh : mesh_grid) (node_indices : lookup_table)
    (node_positions : list mesh_row) :
  enumerate_nodes mesh = Ok (node_indices, node_positions) ->
  (n_sections node_indices = mesh_sections mesh /\
   n_rows node_indices = mesh_rows mesh /\
   n_cols node_indices = mesh_cols mesh) /\
  flat_positions mesh <> [] /\
  forall h i j,
    (h < mesh_sections mesh)%nat -> (i < mesh_rows mesh)%nat ->
    (j < mesh_cols mesh)%nat ->
    (isnan (fst (position_at mesh h i j)) = true ->
     node_at node_indices h i j = (-1)%Z) /\
    (isnan (fst (position_at mesh h i j)) = false ->
     exists k, node_at node_indices h i j = Z.of_nat k /\
               (k < length node_positions)%nat /\
               forall d, nth k node_positions d = position_at mesh h i j).
Proof.
  unfold enumerate_nodes.
  destruct (np_unique_rows (flat_positions mesh)) as [u idx] eqn:E.
  destruct (np_unique_rows_spec _ _ _ E) as (Lidx & Hidx & Hin & Hsorted & Hdiff).
  pose proof (first_true_sorted u Hsorted) as Hfirst.
  destruct (flat_positions_spec mesh) as [_ Hflat].
  destruct (first_true (fun r => isnan (fst r)) u) as [nan_index |];
    [| discriminate].
  intros H. injection H as <- <-.
  destruct Hfirst as (Hk & Hf & Hs).
  split; [simpl; auto |]. split.
  - intros Hnil. assert (Hmem : In (nth nan_index u (NaN, NaN)) u)
      by (apply nth_In; exact Hk).
    apply Hin in Hmem. rewrite Hnil in Hmem. destruct Hmem.
  - intros h i j Hh Hi Hj.
    destruct (Hflat h i j (NaN, NaN) Hh Hi Hj) as [Hq Eq].
    set (q := ((h * mesh_rows mesh + i) * mesh_cols mesh + j)%nat) in *.
    destruct (Hidx q Hq) as [Hku Hrow].
    assert (Enode : node_at
              (reshape_like mesh
                 (map (fun k => if (nan_index <=? k)%nat then (-1)%Z
                                else Z.of_nat k) idx)) h i j
            = if (nan_index <=? nth q idx O)%nat then (-1)%Z
              else Z.of_nat (nth q idx O)).
    { cbn [reshape_like node_at]. fold q.
      rewrite (nth_indep _ (-1)%Z
                 ((fun k => if (nan_index <=? k)%nat then (-1)%Z
                            else Z.of_nat k) O))
        by (rewrite length_map; lia).
      rewrite (map_nth (fun k => if (nan_index <=? k)%nat then (-1)%Z
                                 else Z.of_nat k) idx O q).
      reflexivity. }
    rewrite Enode. rewrite <- Eq.
    rewrite <- (Hrow (NaN, NaN) (NaN, NaN)).
    destruct (Nat.leb_spec nan_index (nth q idx O)) as [Hge | Hlt]; split.
    + reflexivity.
    + intros Hnum.
      pose proof (Forall_nth_skipn _ u nan_index _ (NaN, NaN) Hs Hge Hku) as Hn.
      simpl in Hn. congruence.
    + intros Hnan.
      pose proof (Forall_nth_firstn _ u nan_index _ (NaN, NaN) Hf Hlt Hku) as Hn.
      simpl in Hn. congruence.
    + intros _. exists (nth q idx O). split; [reflexivity |].
      split; [rewrite length_firstn; lia |].
      intros d. rewrite nth_of_firstn by exact Hlt.
      apply nth_indep. exact Hku.
Qed.

Lemma Forall2_map_seq {A B : Type} (P : A -> B -> Prop) (f : nat -> A)
    (g : nat -> B) (n : nat) :
  forall a, (forall k, (a <= k < a + n)%nat -> P (f k) (g k)) ->
    Forall2 P (map f (seq a n)) (map g (seq a n)).
Proof.
  induction n as [| n IH]; intros a H; cbn [seq map]; constructor.
  - apply H. lia.
  - apply IH. intros k Hk. apply H. lia.
Qed.

Lemma Forall2_flat_map_seq {A B : Type} (P : A -> B -> Prop)
    (f : nat -> list A) (g : nat -> list B) (n : nat) :
  forall a, (forall k, (a <= k < a + n)%nat -> Forall2 P (f k) (g k)) ->
    Forall2 P (flat_map f (seq a n)) (flat_map g (seq a n)).
Proof.
  induction n as [| n IH]; intros a H; cbn [seq flat_map]; [constructor |].
  apply Forall2_app.
  - apply H. lia.
  - apply IH. intros k Hk. apply H. lia.
Qed.

(** The entries of the table and the rows of the mesh, side by side. *)
Lemma entries_beside_rows (P : Z -> mesh_row -> Prop) (mesh : mesh_grid)
    (t : lookup_table) :
  n_sections t = mesh_sections mesh -> n_rows t = mesh_rows mesh ->
  n_cols t = mesh_cols mesh ->
  (forall h i j, (h < mesh_sections mesh)%nat -> (i < mesh_rows mesh)%nat ->
     (j < mesh_cols mesh)%nat -> P (node_at t h i j) (position_at mesh h i j)) ->
  Forall2 P (table_entries t) (flat_positions mesh).
Proof.
  intros Hs Hr Hc H. unfold table_entries, flat_positions.
  rewrite Hs, Hr, Hc.
  apply Forall2_flat_map_seq. intros h Hh.
  apply Forall2_flat_map_seq. intros i Hi.
  apply Forall2_map_seq. intros j Hj. apply H; lia.
Qed.

Lemma rebuild_rows (node_positions : list mesh_row) (f : mesh_row -> mesh_row)
    (entries : list Z) (rows : list mesh_row) :
  Forall2 (fun k r => exists v, np_index node_positions k = Ok v /\
                       (if (k =? -1)%Z then (NaN, NaN) else v) = f r)
          entries rows ->
  exists looked,
    np_take node_positions entries = Ok looked /\
    zip_with (fun k r => if (k =? -1)%Z then (NaN, NaN) else r) entries looked
    = map f rows.
Proof.
  unfold np_take.
  induction 1 as [| k r entries rows (v & Hv & Ev) _ (looked & Hl & El)].
  - exists []. split; reflexivity.
  - exists (v :: looked). cbn [mapM]. rewrite Hv, Hl. split; [reflexivity |].
    unfold zip_with in *. cbn [combine map fst snd]. rewrite Ev, El.
    reflexivity.
Qed.

(** X20.  The last step of [create_map_projection] undoes [enumerate_nodes]:
    from the node list and the lookup table that [enumerate_nodes] returns, it
    rebuilds the rows of the mesh, every absent entry (NaN in its first
    coordinate) as (NaN, NaN) and every other entry as it was.  When the mesh
    has no node at all, the step raises [IndexError] instead. *)
Theorem rebuild_after_enumerate (mesh : mesh_grid)
    (node_indices : lookup_table) (node_positions : list mesh_row) :
  enumerate_nodes mesh = Ok (node_indices, node_positions) ->
  (node_positions = [] ->
   rebuild_mesh node_positions node_indices = Raise IndexError) /\
  (node_positions <> [] ->
   rebuild_mesh node_positions node_indices
   = Ok (map (fun r => if isnan (fst r) then (NaN, NaN) else r)
             (flat_positions mesh))).
Proof.
  intros H.
  destruct (enumerate_nodes_lookup _ _ _ H) as ((Hs & Hr & Hc) & Hne & Hlook).
  unfold rebuild_mesh. split.
  - intros ->.
    pose proof (entries_beside_rows (fun _ _ => True) mesh node_indices
                  Hs Hr Hc (fun _ _ _ _ _ _ => I)) as Hlen.
    apply Forall2_length in Hlen.
    destruct (table_entries node_indices) as [| k entries].
    + destruct (flat_positions mesh); [congruence | discriminate].
    + unfold np_take. cbn [mapM].
      assert (E : np_index (@nil mesh_row) k = Raise IndexError).
      { unfold np_index. cbn [length]. change (Z.of_nat 0) with 0%Z.
        set (k' := if (k <? 0)%Z then (k + 0)%Z else k).
        destruct (Z.leb_spec 0 k'), (Z.ltb_spec k' 0); try reflexivity. lia. }
      rewrite E. reflexivity.
  - intros Hpos.
    destruct (rebuild_rows node_positions
                (fun r => if isnan (fst r) then (NaN, NaN) else r)
                (table_entries node_indices) (flat_positions mesh))
      as (looked & Hl & El).
    { apply (entries_beside_rows _ mesh node_indices Hs Hr Hc).
      intros h i j Hh Hi Hj. destruct (Hlook h i j Hh Hi Hj) as [Hnan Hnum].
      destruct (isnan (fst (position_at mesh h i j))) eqn:E.
      - rewrite (Hnan eq_refl).
        exists (nth (length node_positions - 1) node_positions (NaN, NaN)).
        split; [| reflexivity]. apply np_index_last.
        destruct node_positions; [congruence | simpl; lia].
      - destruct (Hnum eq_refl) as (k & Ek & Hk & Hrow). rewrite Ek.
        exists (position_at mesh h i j). split.
        + assert (Hr' : (0 <= Z.of_nat k < Z.of_nat (length node_positions))%Z)
            by lia.
          rewrite (np_index_at node_positions (Z.of_nat k) (NaN, NaN) Hr').
          rewrite Nat2Z.id, Hrow. reflexivity.
        + destruct (Z.eqb_spec (Z.of_nat k) (-1)); [lia | reflexivity]. }
    rewrite Hl. cbn [bind]. rewrite El. reflexivity.
Qed.

Lemma enumerate_nodes_returns (mesh : mesh_grid) :
  Exists (fun r => isnan (fst r) = true) (flat_positions mesh) ->
  exists node_indices node_positions,
    enumerate_nodes mesh = Ok (node_indices, node_positions).
Proof.
  intros Hsome. unfold enumerate_nodes.
  destruct (np_unique_rows (flat_positions mesh)) as [u idx] eqn:E.
  destruct (np_unique_rows_spec _ _ _ E) as (Lidx & Hidx & Hin & Hsorted & Hdiff).
  pose proof (first_true_sorted u Hsorted) as Hfirst.
  destruct (first_true (fun r => isnan (fst r)) u) as [nan_index |]; [eauto |].
  exfalso. apply Exists_exists in Hsome. destruct Hsome as (r & Hr & Hnan).
  destruct (In_nth _ _ (NaN, NaN) Hr) as (p & Hp & Ep).
  destruct (Hidx p Hp) as [Hk Hrow].
  assert (Er : nth (nth p idx O) u (NaN, NaN) = r)
    by (rewrite (Hrow (NaN, NaN) (NaN, NaN)); exact Ep).
  rewrite Forall_forall in Hfirst.
  pose proof (Hfirst _ (nth_In u (NaN, NaN) Hk)) as Hnum.
  simpl in Hnum. rewrite Er in Hnum. congruence.
Qed.

Lemma small_mesh_enumerated :
  exists node_indices node_positions,
    enumerate_nodes small_mesh = Ok (node_indices, node_positions).
Proof.
  apply enumerate_nodes_returns.
  apply Exists_cons_tl, Exists_cons_tl, Exists_cons_hd. reflexivity.
Qed.

Lemma rebuild_after_enumerate_witness :
  exists node_indices node_positions,
    enumerate_nodes small_mesh = Ok (node_indices, node_positions) /\
    (node_positions = [] ->
     rebuild_mesh node_positions node_indices = Raise IndexError) /\
    (node_positions <> [] ->
     rebuild_mesh node_positions node_indices
     = Ok (map (fun r => if isnan (fst r) then (NaN, NaN) else r)
               (flat_positions small_mesh))).
Proof.
  destruct small_mesh_enumerated as (node_indices & node_positions & H).
  exists node_indices, node_positions. split; [exact H |].
  exact (rebuild_after_enumerate small_mesh node_indices node_positions H).
Defined.

(** ** The cell list and the strain evaluator *)

Lemma all_candidates_corners (t : lookup_table) (d : candidate) :
  In d (all_candidates t) ->
  entry_of t (cell_west (cand_cell d)) /\ entry_of t (cell_east (cand_cell d)) /\
  entry_of t (cell_south (cand_cell d)) /\
  entry_of t (cell_north (cand_cell d)) /\
  cell_i (cand_cell d) = cand_node1_i d.
Proof.
  unfold all_candidates, candidates_for. intros H.
  apply in_flat_map in H. destruct H as (di & Hdi & H).
  apply in_flat_map in H. destruct H as (dj & Hdj & H).
  apply in_flat_map in H. destruct H as (h & Hh & H).
  apply in_flat_map in H. destruct H as (i & Hi & H).
  apply in_map_iff in H. destruct H as (j & <- & Hj).
  apply in_seq in Hdi, Hdj, Hh, Hi, Hj. cbn [candidate_at cand_cell cell_west
    cell_east cell_south cell_north cell_i cand_node1_i].
  split; [| split; [| split; [| split; [| reflexivity]]]].
  - exists h, (i + di)%nat, j. repeat split; lia.
  - exists h, (i + di)%nat, (j + 1)%nat. repeat split; lia.
  - exists h, i, (j + dj)%nat. repeat split; lia.
  - exists h, (i + 1)%nat, (j + dj)%nat. repeat split; lia.
Qed.

Lemma enumerate_cells_returns (t : lookup_table)
    (values scales : Z -> Z -> Z -> R) (dPhi dLam : list R) :
  (n_rows t <= length dPhi)%nat -> (n_rows t <= length dLam)%nat ->
  exists cells weights cell_scales,
    enumerate_cells t values scales dPhi dLam = Ok (cells, weights, cell_scales).
Proof.
  intros HPhi HLam. unfold enumerate_cells.
  destruct (mapM_total (candidate_weight_scale values scales dPhi dLam)
              (kept_candidates t)) as [ws Hws].
  { apply Forall_forall. intros d Hd.
    apply kept_candidates_valid in Hd. destruct Hd as [Hd _].
    apply unique_by_corners_In, all_candidates_rows in Hd.
    unfold candidate_weight_scale.
    destruct (np_index_in_range dPhi (cand_node1_i d)) as [x1 ->]; [lia |].
    destruct (np_index_in_range dLam (cand_node1_i d)) as [x2 ->]; [lia |].
    destruct (np_index_in_range dPhi (cand_node2_i d)) as [x3 ->]; [lia |].
    destruct (np_index_in_range dLam (cand_node2_i d)) as [x4 ->]; [lia |].
    simpl. eauto. }
  rewrite Hws. simpl. eauto.
Qed.

(** X21.  What [enumerate_cells] returns can always be given to
    [compute_principal_strains]: the three arrays have one entry per cell,
    and for any position array that has a row for every node index of the
    lookup table, the strain evaluator returns one major and one minor strain
    per cell without an error. *)
Theorem cells_fit_strain_evaluator (t : lookup_table)
    (values scales : Z -> Z -> Z -> R) (dPhi dLam : list R)
    (cells : list cell) (weights cell_scales : list R)
    (positions : list point) :
  enumerate_cells t values scales dPhi dLam = Ok (cells, weights, cell_scales) ->
  (forall h i j, (h < n_sections t)%nat -> (i < n_rows t)%nat ->
     (j < n_cols t)%nat ->
     (-1 <= node_at t h i j < Z.of_nat (length positions))%Z) ->
  length weights = length cells /\ length cell_scales = length cells /\
  exists a b,
    compute_principal_strains positions cells cell_scales dPhi dLam
      = Ok (a, b) /\
    length a = length cells /\ length b = length cells.
Proof.
  intros H Htable. unfold enumerate_cells in H.
  inv_bind_as H ws Hws. injection H as <- <- <-.
  apply mapM_ok in Hws. pose proof (Forall2_length Hws) as Lws.
  rewrite !length_map. split; [lia |]. split; [lia |].
  assert (Hcorner : forall d k, In d (kept_candidates t) -> entry_of t k ->
            k <> (-1)%Z -> exists p, np_index positions k = Ok p).
  { intros d k _ (h & i & j & Hh & Hi & Hj & <-) Hk.
    apply np_index_in_range. specialize (Htable h i j Hh Hi Hj). lia. }
  assert (Hkept : forall d, In d (kept_candidates t) ->
            (exists p, np_index positions (cell_west (cand_cell d)) = Ok p) /\
            (exists p, np_index positions (cell_east (cand_cell d)) = Ok p) /\
            (exists p, np_index positions (cell_south (cand_cell d)) = Ok p) /\
            (exists p, np_index positions (cell_north (cand_cell d)) = Ok p) /\
            (exists x, np_index dLam (cell_i (cand_cell d)) = Ok x) /\
            (exists x, np_index dPhi (cell_i (cand_cell d)) = Ok x)).
  { intros d Hd. pose proof Hd as Hd'.
    apply kept_candidates_valid in Hd'.
    destruct Hd' as (Hu & Hw & He & Hs & Hn & _).
    apply unique_by_corners_In, all_candidates_corners in Hu.
    destruct Hu as (Cw & Ce & Cs & Cn & Ei).
    destruct (Forall2_In_left _ _ _ _ Hws Hd) as (w & _ & Hcw).
    unfold candidate_weight_scale in Hcw.
    inv_bind_as Hcw phi1 Hphi1. inv_bind_as Hcw lam1 Hlam1.
    rewrite Ei. eauto 12. }
  assert (Htake : forall (A : Type) (arr : list A) (f : cell -> Z),
            (forall d, In d (kept_candidates t) ->
               exists x, np_index arr (f (cand_cell d)) = Ok x) ->
            exists r, np_take arr (map f (map cand_cell (kept_candidates t)))
                      = Ok r).
  { intros A arr f Hf. apply np_take_total. intros k Hk.
    apply in_map_iff in Hk. destruct Hk as (c & <- & Hc).
    apply in_map_iff in Hc. destruct Hc as (d & <- & Hd). exact (Hf d Hd). }
  destruct (Htake _ positions cell_west) as [west Hwest];
    [intros d Hd; apply (Hkept d Hd) |].
  destruct (Htake _ positions cell_east) as [east Heast];
    [intros d Hd; apply (Hkept d Hd) |].
  destruct (Htake _ positions cell_south) as [south Hsouth];
    [intros d Hd; apply (Hkept d Hd) |].
  destruct (Htake _ positions cell_north) as [north Hnorth];
    [intros d Hd; apply (Hkept d Hd) |].
  destruct (Htake _ dLam cell_i) as [lam Hlam];
    [intros d Hd; apply (Hkept d Hd) |].
  destruct (Htake _ dPhi cell_i) as [phi Hphi];
    [intros d Hd; apply (Hkept d Hd) |].
  assert (Hresult : exists a b,
            compute_principal_strains positions
              (map cand_cell (kept_candidates t)) (map snd ws) dPhi dLam
            = Ok (a, b)).
  { unfold compute_principal_strains.
    rewrite Hwest, Heast, Hlam. cbn [bind]. unfold finite_difference.
    pose proof (np_take_length _ _ _ Hlam) as Ll.
    pose proof (np_take_length _ _ _ Hphi) as Lp.
    rewrite !length_map in Ll, Lp.
    assert (E1 : length lam = length (map snd ws))
      by (rewrite length_map; lia).
    assert (E2 : length phi = length (map snd ws))
      by (rewrite length_map; lia).
    rewrite E1, Nat.eqb_refl. cbn [bind].
    rewrite Hsouth, Hnorth, Hphi. cbn [bind].
    rewrite E2, Nat.eqb_refl. cbn [bind]. eauto. }
  destruct Hresult as (a & b & Hab). exists a, b. split; [exact Hab |].
  pose proof (strains_lengths _ _ _ _ _ _ _ Hab) as [La Lb].
  rewrite length_map in La, Lb. split; assumption.
Qed.

Lemma corner_table_cells_returned :
  exists cells weights cell_scales,
    enumerate_cells corner_table (fun _ _ _ => 1%R) (fun _ _ _ => 1%R)
      [1; 1; 1]%R [1; 1; 1]%R = Ok (cells, weights, cell_scales).
Proof. apply enumerate_cells_returns; simpl; lia. Qed.

Lemma corner_table_entries :
  forall h i j, (h < n_sections corner_table)%nat ->
    (i < n_rows corner_table)%nat -> (j < n_cols corner_table)%nat ->
    (-1 <= node_at corner_table h i j
     < Z.of_nat (length [(0, 0); (1, 0); (0, 1); (1, 2)]%R))%Z.
Proof.
  intros [| h] [| [| [| i]]] [| [| j]] Hh Hi Hj; simpl in *; lia.
Qed.

Lemma cells_fit_strain_evaluator_witness :
  exists cells weights cell_scales,
    enumerate_cells corner_table (fun _ _ _ => 1%R) (fun _ _ _ => 1%R)
      [1; 1; 1]%R [1; 1; 1]%R = Ok (cells, weights, cell_scales) /\
    length weights = length cells /\ length cell_scales = length cells /\
    exists a b,
      compute_principal_strains [(0, 0); (1, 0); (0, 1); (1, 2)]%R cells
        cell_scales [1; 1; 1]%R [1; 1; 1]%R = Ok (a, b) /\
      length a = length cells /\ length b = length cells.
Proof.
  destruct corner_table_cells_returned as (cells & weights & cell_scales & H).
  exists cells, weights, cell_scales. split; [exact H |].
  exact (cells_fit_strain_evaluator corner_table (fun _ _ _ => 1%R)
           (fun _ _ _ => 1%R) [1; 1; 1]%R [1; 1; 1]%R cells weights
           cell_scales [(0, 0); (1, 0); (0, 1); (1, 2)]%R H
           corner_table_entries).
Defined.
